(** * LatexMode: the CodeMirror LaTeX tokenizer of
      [public/es/ide/editor/codemirror/parser.js]

    A shallow embedding of the pushdown tokenizer and of its mark
    bookkeeping, followed by the properties of the tokenizer state.

    Conventions of the embedding.
    - A JavaScript string is a list of UTF-16 code units ([N]).
    - A [CodeMirror.StringStream] over a line is kept as [pos], [start] and
      [rest], the text from the cursor on ([string.slice(pos)]).
    - The closures that the source pushes on [state.stack] are
      defunctionalised into the constructors of [Tok]; a closure's captured
      immutable variables are the constructor's arguments.  The counter [i]
      captured (and incremented) by [_matchNext] is mutable and shared by
      every copy of the stack that holds the closure, so it lives in a heap
      cell.
    - [state.stack] and [state.openMarks] are kept with their top at the
      head of the list; [state.marks] is kept in source order (oldest
      first). *)

From Stdlib Require Import List ZArith NArith Lia Bool Ascii String Arith.
Import ListNotations.

Set Implicit Arguments.

(** ** Code units and character classes *)

Definition ch (a : ascii) : N := N_of_ascii a.

Definition js (s : string) : list N := map N_of_ascii (list_ascii_of_string s).

(** [\s] of ECMAScript regular expressions (it includes U+00A0). *)
Definition is_space (c : N) : bool :=
  ((9 <=? c) && (c <=? 13) || (c =? 32) || (c =? 160) || (c =? 5760)
   || ((8192 <=? c) && (c <=? 8202)) || (c =? 8232) || (c =? 8233)
   || (c =? 8239) || (c =? 8287) || (c =? 12288) || (c =? 65279))%N.

(** Line terminators: the characters that [.] does not match. *)
Definition is_line_terminator (c : N) : bool :=
  ((c =? 10) || (c =? 13) || (c =? 8232) || (c =? 8233))%N.

Definition is_letter (c : N) : bool :=
  ((65 <=? c) && (c <=? 90) || (97 <=? c) && (c <=? 122))%N.

Definition is_digit (c : N) : bool := ((48 <=? c) && (c <=? 57))%N.

Definition is_char (a : ascii) (c : N) : bool := (c =? ch a)%N.

Definition one_of (s : string) (c : N) : bool :=
  existsb (N.eqb c) (js s).

(** ** Regular expressions

    A pattern anchored at the cursor maps the text after the cursor to the
    length of the match ([match[0].length]), or to [None].  Every pattern of
    the source is deterministic enough for greedy matching without
    backtracking, except the two written out by hand below. *)

Definition Pattern := list N -> option nat.

Fixpoint lit (p s : list N) : option nat :=
  match p with
  | [] => Some 0
  | c :: p' =>
      match s with
      | d :: s' =>
          if (c =? d)%N then
            match lit p' s' with Some n => Some (S n) | None => None end
          else None
      | [] => None
      end
  end.

(** The length of the longest prefix of [s] made of characters in [f]. *)
Fixpoint span (f : N -> bool) (s : list N) : nat :=
  match s with
  | c :: s' => if f c then S (span f s') else 0
  | [] => 0
  end.

Definition star (f : N -> bool) : Pattern := fun s => Some (span f s).

Definition plus (f : N -> bool) : Pattern := fun s =>
  match span f s with
  | O => None
  | S n => Some (S n)
  end.

Definition one (f : N -> bool) : Pattern := fun s =>
  match s with
  | c :: _ => if f c then Some 1 else None
  | [] => None
  end.

(** [$] without the multiline flag. *)
Definition eos : Pattern := fun s =>
  match s with [] => Some 0 | _ :: _ => None end.

Definition andThen (a b : Pattern) : Pattern := fun s =>
  match a s with
  | Some n => match b (skipn n s) with Some m => Some (n + m) | None => None end
  | None => None
  end.

Definition alt (a b : Pattern) : Pattern := fun s =>
  match a s with Some n => Some n | None => b s end.

Definition empty_pattern : Pattern := fun s => Some 0.

Infix ";;;" := andThen (at level 61, right associativity).

(** [/^\\begin\s*/] and [/^\\end\s*/] *)
Definition re_begin : Pattern := lit (js "\begin") ;;; star is_space.
Definition re_end : Pattern := lit (js "\end") ;;; star is_space.

(** [/[^{}]+/]: not anchored, but [stream.match] refuses a match whose index
    is not 0, so it behaves as the anchored pattern. *)
Definition re_env_name : Pattern := plus (fun c => negb (one_of "{}" c)).

(** [/^[\s ]+$/] *)
Definition re_blank : Pattern := plus is_space ;;; eos.

(** [/^\s*%/] *)
Definition re_line_comment : Pattern := star is_space ;;; lit (js "%").

(** [/^\\(?:[a-zA-Z]+|.|\n)/] *)
Definition re_command : Pattern :=
  lit (js "\") ;;;
  alt (plus is_letter)
      (one (fun c => negb (is_line_terminator c) || (c =? 10)%N)).

(** [/^[\^_&~]/] *)
Definition re_math_special : Pattern := one (one_of "^_&~").

(** [/^(?:\d+\.\d*|\d*\.\d+|\d+)/] *)
Definition re_number : Pattern :=
  alt (plus is_digit ;;; lit (js ".") ;;; star is_digit)
      (alt (star is_digit ;;; lit (js ".") ;;; plus is_digit)
           (plus is_digit)).

(** [/^\\title[\[{]/] and [/^\\title/] *)
Definition re_title_lookahead : Pattern := lit (js "\title") ;;; one (one_of "[{").
Definition re_title : Pattern := lit (js "\title").

(** The text that a command or environment name matches when it is
    spliced into a regular expression: the names of the source hold letters
    and the escape [\*] only. *)
Definition regex_literal (name : string) : list N :=
  filter (fun c => negb (c =? ch "\")%N) (js name).

(** [new RegExp('^\\\\' + command + '\\s*[\\[{]')] and
    [new RegExp('^\\\\' + command + '\\s*')], [_buildCommandPatterns] *)
Definition lookaheadPattern (command : string) : Pattern :=
  lit (js "\") ;;; lit (regex_literal command) ;;; star is_space ;;; one (one_of "[{").
Definition matchPattern (command : string) : Pattern :=
  lit (js "\") ;;; lit (regex_literal command) ;;; star is_space.

(** [/^\\item(?: |$)/] *)
Definition re_item : Pattern := lit (js "\item") ;;; alt (lit (js " ")) eos.

(** [/^\\verb\*?([^a-zA-Z])/]; the result is the length of the match and
    the captured delimiter.  When [\verb*] is followed by a letter or by the
    end of the line the star itself is the delimiter (the regular expression
    backtracks). *)
Definition re_verb (s : list N) : option (nat * N) :=
  match lit (js "\verb") s with
  | Some n =>
      match skipn n s with
      | c :: s' =>
          if (c =? ch "*")%N then
            match s' with
            | d :: _ => if is_letter d then Some (n + 1, c) else Some (n + 2, d)
            | [] => Some (n + 1, c)
            end
          else if is_letter c then None else Some (n + 1, c)
      | [] => None
      end
  | None => None
  end.

(** [/^[^\\]+/] *)
Definition re_no_backslash : Pattern := plus (fun c => negb (c =? ch "\")%N).

(** [/^\\begin\s*{[^}]+}/] and [/^\\end\s*{[^}]+}/] *)
Definition re_any_begin : Pattern :=
  re_begin ;;; lit (js "{") ;;; plus (fun c => negb (c =? ch "}")%N) ;;; lit (js "}").
Definition re_any_end : Pattern :=
  re_end ;;; lit (js "{") ;;; plus (fun c => negb (c =? ch "}")%N) ;;; lit (js "}").

(** [/^\\end\s*{document}/] *)
Definition re_end_document : Pattern := re_end ;;; lit (js "{document}").

(** [/^\\maketitle$/] *)
Definition re_maketitle : Pattern := lit (js "\maketitle") ;;; eos.

(** [/^[{}\[\]]/], [/^[&~]+/] and [/^[^{}\[\]\\$&%~]+/] of [_matchOther] *)
Definition re_bracket : Pattern := one (one_of "{}[]").
Definition re_amp_tilde : Pattern := plus (one_of "&~").
Definition re_plain : Pattern := plus (fun c => negb (one_of "{}[]\$&%~" c)).

(** ** Positions, marks and the mode state *)

(** [CodeMirror.Pos(line, ch)] *)
Record Pos := mkPos { pos_line : Z; pos_ch : nat }.

Inductive Style := tag | bracket | keyword | comment | string_style | number.

(** A JavaScript number as far as [checkedProperties.number] needs it:
    [undefined + 1] is [NaN]. *)
Inductive jsnumber := JNum (n : nat) | JNaN.

Definition js_succ (x : option jsnumber) : jsnumber :=
  match x with Some (JNum n) => JNum (n + 1) | _ => JNaN end.

(** An open mark: [new Mark(kind, openPos, currentPos)].  [uid] stands for
    the identity of the object, which [_matchItemCommand] compares with
    [!==]; [o_openMarksCount] is [checkedProperties.openMarksCount]. *)
Record OpenMark := mkOpenMark {
  uid : nat;
  o_kind : string;
  o_from : Pos;
  o_contentFrom : Pos;
  o_openMarksCount : option Z
}.

Record CheckedProperties := mkChecked {
  cp_kind : option string;
  cp_number : option jsnumber;
  cp_openMarksCount : option Z;
  cp_fromLine : option Z;
  cp_toLine : option Z
}.

Definition no_properties : CheckedProperties := mkChecked None None None None None.

(** A closed mark:
    [new Mark(kind, from, contentFrom, contentTo, to, openParent)]. *)
Record Mark := mkMark {
  kind : string;
  from : Pos;
  contentFrom : Pos;
  contentTo : Pos;
  to : Pos;
  openParent : option OpenMark;
  checkedProperties : CheckedProperties
}.

Inductive InnerMode := InText | InMath.

Inductive EnvTokenizer :=
  TkVerbatim | TkComment | TkMath | TkText | TkListContent | TkFigureContent | TkTikZ.

(** An entry of an environment table; [env_kind = None] when the entry
    has no own property [kind]. *)
Record EnvConfig := mkEnv {
  env_name : string;
  tokenizer : EnvTokenizer;
  env_kind : option string;
  allowBlankLines : bool;
  matchOnSingleLine : bool
}.

(** [_buildEnvironmentBeginAndEndPatterns] *)
Definition beginPattern (e : EnvConfig) : Pattern :=
  re_begin ;;; lit (js "{") ;;; lit (regex_literal (env_name e)) ;;; lit (js "}") ;;;
  (if matchOnSingleLine e then eos else empty_pattern).
Definition endPattern (e : EnvConfig) : Pattern :=
  re_end ;;; lit (js "{") ;;; lit (regex_literal (env_name e)) ;;; lit (js "}").

Inductive SeqKind := BeginSeq | EndSeq.

(** The callbacks handed to [_matchSequence]. *)
Inductive Callback :=
| CbNoop
| CbBeginEnvironment (envConfig : EnvConfig) (markOpenPos : option Pos)
| CbEndEnvironment (envConfig : EnvConfig) (markClosePos : option Pos)
| CbEndDocument.

(** The tokenizers wrapped by [_defer]. *)
Inductive DeferredCall :=
| DMatchNext (cell : nat) (sq : SeqKind) (cb : Callback)
| DRequiredArgument (k : string) (openPos : Pos)
| DOptionalArgumentMarked (k : string) (openPos : Pos)
| DOptionalArgument.

(** The functions that the source pushes on [state.stack]. *)
Inductive Tok :=
| TopLevel
| Deferred (d : DeferredCall)
| MarkBody (close : list N) (closeStyle : Style) (abandon : list (list N))
           (innerMode : InnerMode)
| ArgumentBody (close : list N) (closeStyle : Style) (innerMode : InnerMode)
| GroupBody (innerMode : InnerMode)
| VerbBody (verbEnd : N)
| EnvironmentBody (envConfig : EnvConfig)
| AfterEndDocument.

Record State := mkState {
  stack : list Tok;
  line : Z;
  openMarks : list OpenMark;
  marks : list Mark
}.

Record Stream := mkStream { pos : nat; start : nat; rest : list N }.

(** [new CodeMirror.StringStream(s)] *)
Definition StringStream (s : list N) : Stream := mkStream 0 0 s.

(** The part of the JavaScript heap that the mode state points into but
    does not own: the counters [i] of the [_matchNext] closures, and the
    supply of object identities. *)
Record Heap := mkHeap { cells : list nat; next_uid : nat }.

Record World := mkWorld { stream : Stream; state : State; heap : Heap }.

Inductive Error := EmptyStack | TypeError.

(** ** The monad of the tokenizer functions *)

Definition M (A : Type) : Type := World -> Error + (A * World).

Definition ret {A} (a : A) : M A := fun w => inr (a, w).

Definition bind {A B} (m : M A) (f : A -> M B) : M B := fun w =>
  match m w with
  | inl e => inl e
  | inr (a, w') => f a w'
  end.

Definition throw {A} (e : Error) : M A := fun _ => inl e.

Notation "x <- m ;; k" := (bind m (fun x => k))
  (at level 100, m at next level, right associativity).
Notation "m ;; k" := (bind m (fun _ => k))
  (at level 100, right associativity).

(** [a || b] on the (truthy or undefined) results of two matchers. *)
Definition orElse (a b : M (option Style)) : M (option Style) :=
  r <- a ;; match r with Some s => ret (Some s) | None => b end.

Infix "|||" := orElse (at level 50, left associativity).

(** *** Stream primitives *)

Definition get_stream : M Stream := fun w => inr (stream w, w).
Definition get_state : M State := fun w => inr (state w, w).

Definition set_stream (s : Stream) : M unit := fun w =>
  inr (tt, mkWorld s (state w) (heap w)).
Definition set_state (s : State) : M unit := fun w =>
  inr (tt, mkWorld (stream w) s (heap w)).

Definition sol : M bool := s <- get_stream ;; ret (Nat.eqb (pos s) 0).
Definition eol : M bool :=
  s <- get_stream ;; ret (match rest s with [] => true | _ => false end).

(** [stream.pos += n] *)
Definition consume (s : Stream) (n : nat) : Stream :=
  mkStream (pos s + n) (start s) (skipn n (rest s)).

(** [stream.match(pattern, consume)] *)
Definition stream_match (p : Pattern) (consuming : bool) : M bool :=
  s <- get_stream ;;
  match p (rest s) with
  | Some n => (if consuming then set_stream (consume s n) else ret tt) ;; ret true
  | None => ret false
  end.

(** [stream.eat(c)] for a one-character string [c] *)
Definition stream_eat (c : N) : M bool := stream_match (one (N.eqb c)) true.

(** [stream.next()] *)
Definition stream_next : M unit :=
  s <- get_stream ;;
  match rest s with
  | _ :: _ => set_stream (consume s 1)
  | [] => ret tt
  end.

(** [stream.skipToEnd()] *)
Definition stream_skipToEnd : M unit :=
  s <- get_stream ;; set_stream (consume s (List.length (rest s))).

(** [string.indexOf(c, pos) - pos] *)
Fixpoint index_of (c : N) (s : list N) : option nat :=
  match s with
  | [] => None
  | d :: s' =>
      if (d =? c)%N then Some 0
      else match index_of c s' with Some n => Some (S n) | None => None end
  end.

(** [stream.skipTo(c)] *)
Definition stream_skipTo (c : N) : M bool :=
  s <- get_stream ;;
  match index_of c (rest s) with
  | Some n => set_stream (consume s n) ;; ret true
  | None => ret false
  end.

(** *** Heap primitives *)

Definition new_cell (v : nat) : M nat := fun w =>
  let h := heap w in
  inr (List.length (cells h),
       mkWorld (stream w) (state w) (mkHeap (cells h ++ [v]) (next_uid h))).

Definition read_cell (c : nat) : M nat := fun w =>
  inr (nth c (cells (heap w)) 0, w).

Fixpoint set_nth (c : nat) (v : nat) (l : list nat) : list nat :=
  match l, c with
  | [], _ => []
  | _ :: l', O => v :: l'
  | x :: l', S c' => x :: set_nth c' v l'
  end.

Definition write_cell (c : nat) (v : nat) : M unit := fun w =>
  let h := heap w in
  inr (tt, mkWorld (stream w) (state w) (mkHeap (set_nth c v (cells h)) (next_uid h))).

Definition fresh_uid : M nat := fun w =>
  let h := heap w in
  inr (next_uid h, mkWorld (stream w) (state w) (mkHeap (cells h) (S (next_uid h)))).

(** ** The tokenizer *)

(** *** Stack *)

Definition set_stack (f : list Tok -> list Tok) : M unit :=
  st <- get_state ;;
  set_state (mkState (f (stack st)) (line st) (openMarks st) (marks st)).

Definition _push (tokenizer : Tok) : M unit := set_stack (cons tokenizer).

(** [state.stack.pop()]; popping an empty array does nothing. *)
Definition _pop : M unit := set_stack (@tl Tok).

Definition _defer (tokenizer : DeferredCall) : M unit := _push (Deferred tokenizer).

(** *** Marks *)

Definition _startPos : M Pos :=
  s <- get_stream ;; st <- get_state ;; ret (mkPos (line st) (start s)).

(** [stream.current()] is [string.slice(start, pos)]. *)
Definition _currentPos : M Pos :=
  s <- get_stream ;; st <- get_state ;;
  ret (mkPos (line st) (start s + (pos s - start s))).

Definition set_openMarks (f : list OpenMark -> list OpenMark) : M unit :=
  st <- get_state ;;
  set_state (mkState (stack st) (line st) (f (openMarks st)) (marks st)).

Definition set_marks (f : list Mark -> list Mark) : M unit :=
  st <- get_state ;;
  set_state (mkState (stack st) (line st) (openMarks st) (f (marks st))).

Definition _openMark (k : string) (openPos : Pos) : M OpenMark :=
  cur <- _currentPos ;;
  u <- fresh_uid ;;
  let newMark := mkOpenMark u k openPos cur None in
  set_openMarks (cons newMark) ;;
  ret newMark.

(** [openMark.checkedProperties.openMarksCount = ...] on the mark that
    [_openMark] has just pushed. *)
Definition set_openMarksCount (n : Z) : M unit :=
  set_openMarks (fun l =>
    match l with
    | m :: l' => mkOpenMark (uid m) (o_kind m) (o_from m) (o_contentFrom m) (Some n) :: l'
    | [] => []
    end).

Definition _abandonMark : M unit := set_openMarks (@tl OpenMark).

(** An open mark is built without [openParent], so [mark.openParent || top]
    is the new top of [openMarks] (or [undefined]). *)
Definition _closeMark (closePos : Pos) : M Mark :=
  st <- get_state ;;
  match openMarks st with
  | [] => throw TypeError
  | mark :: remaining =>
      set_openMarks (@tl OpenMark) ;;
      cur <- _currentPos ;;
      let newMark := mkMark (o_kind mark) (o_from mark) (o_contentFrom mark)
                            closePos cur (hd_error remaining) no_properties in
      set_marks (fun l => l ++ [newMark]) ;;
      ret newMark
  end.

(** Assignments to [closedMark.checkedProperties] on the mark that
    [_closeMark] has just pushed. *)
Definition set_checkedProperties (f : Mark -> CheckedProperties) : M unit :=
  set_marks (fun l =>
    match rev l with
    | m :: r => rev r ++ [mkMark (kind m) (from m) (contentFrom m) (contentTo m)
                                 (to m) (openParent m) (f m)]
    | [] => []
    end).

(** *** Blank lines *)

Definition _matchBlankLine : M bool :=
  s <- sol ;;
  if s then (e <- eol ;; if e then ret true else stream_match re_blank true)
  else ret false.

(** *** Sequences *)

(** [patterns[i]]; out of range it is [undefined], which [String.match]
    turns into the empty regular expression. *)
Definition sequence_pattern (sq : SeqKind) (i : nat) : Pattern :=
  match i with
  | 0 => match sq with BeginSeq => re_begin | EndSeq => re_end end
  | 1 => lit (js "{")
  | 2 => re_env_name
  | 3 => lit (js "}")
  | _ => empty_pattern
  end.

(** [tokens[i]] *)
Definition sequence_token (i : nat) : option Style :=
  match i with
  | 0 => Some tag
  | 1 => Some bracket
  | 2 => Some keyword
  | 3 => Some bracket
  | _ => None
  end.

(** The callbacks: of [_matchOtherEnvironmentBeginOrEnd], of the begin and
    of the end of [_matchEnvironments], and of [_matchEndDocument]. *)
Definition run_callback (cb : Callback) : M unit :=
  match cb with
  | CbNoop => ret tt
  | CbBeginEnvironment envConfig markOpenPos =>
      match env_kind envConfig, markOpenPos with
      | Some k, Some p =>
          _openMark k p ;;
          st <- get_state ;;
          set_openMarksCount (Z.of_nat (List.length (openMarks st)) - 1)%Z
      | _, _ => ret tt
      end ;;
      _push (EnvironmentBody envConfig)
  | CbEndEnvironment envConfig markClosePos =>
      match env_kind envConfig, markClosePos with
      | Some _, Some p =>
          closedMark <- _closeMark p ;;
          st <- get_state ;;
          set_checkedProperties (fun m =>
            let c := checkedProperties m in
            mkChecked (cp_kind c) (cp_number c)
                      (Some (Z.of_nat (List.length (openMarks st))))
                      (Some (pos_line (from closedMark)))
                      (Some (pos_line (to closedMark))))
      | _, _ => ret tt
      end
  | CbEndDocument => _push AfterEndDocument
  end.

(** [_matchNext] of [_matchSequence]; [cell] holds its counter [i]. *)
Definition _matchNext (cell : nat) (sq : SeqKind) (cb : Callback) : M (option Style) :=
  i <- read_cell cell ;;
  m <- stream_match (sequence_pattern sq i) true ;;
  if m then
    write_cell cell (i + 1) ;;
    (if i + 1 <? 4 then _defer (DMatchNext cell sq cb) else run_callback cb) ;;
    ret (sequence_token i)
  else ret None.

Definition _matchSequence (sq : SeqKind) (cb : Callback) : M (option Style) :=
  cell <- new_cell 0 ;; _matchNext cell sq cb.

Definition _matchBeginEnvironmentSequence := _matchSequence BeginSeq.
Definition _matchEndEnvironmentSequence := _matchSequence EndSeq.

(** *** Marked and unmarked regions *)

Definition _matchAndMark (k : string) (openPos : Pos)
    (open : list N) (openStyle : Style) (close : list N) (closeStyle : Style)
    (abandon : list (list N)) (innerMode : InnerMode) : M (option Style) :=
  m <- stream_match (lit open) true ;;
  if m then
    _openMark k openPos ;;
    _push (MarkBody close closeStyle abandon innerMode) ;;
    ret (Some openStyle)
  else ret None.

Definition _matchAndMarkOptionalArgument k openPos innerMode :=
  _matchAndMark k openPos (js "[") bracket (js "]") bracket [] innerMode.

Definition _matchAndMarkRequiredArgument k openPos innerMode :=
  _matchAndMark k openPos (js "{") bracket (js "}") bracket [] innerMode.

Definition _matchArgument (open : list N) (openStyle : Style)
    (close : list N) (closeStyle : Style) (innerMode : InnerMode) : M (option Style) :=
  m <- stream_match (lit open) true ;;
  if m then
    _push (ArgumentBody close closeStyle innerMode) ;;
    ret (Some openStyle)
  else ret None.

Definition _matchOptionalArgument innerMode :=
  _matchArgument (js "[") bracket (js "]") bracket innerMode.

Definition _matchGroup (innerMode : InnerMode) : M (option Style) :=
  m <- stream_eat (ch "{") ;;
  if m then _push (GroupBody innerMode) ;; ret (Some bracket) else ret None.

Definition _matchLineComment : M (option Style) :=
  m <- stream_match re_line_comment true ;;
  if m then stream_skipToEnd ;; ret (Some comment) else ret None.

(** *** Commands *)

Definition _matchTitleCommand : M (option Style) :=
  m <- stream_match re_title_lookahead false ;;
  if m then
    stream_match re_title true ;;
    openPos <- _startPos ;;
    _defer (DRequiredArgument "title" openPos) ;;
    _defer DOptionalArgument ;;
    ret (Some tag)
  else ret None.

Definition _bibCommands : list string :=
  ["cite"; "citep"; "citet"; "footcite"; "nocite"; "autocite"; "autocites";
   "citeauthor"; "citeyear"; "parencite"; "citealt"; "textcite"; "cref"; "Cref"]%string.

(** Every command that the source passes is a key of
    [_MATCH_COMMAND_WITH_ARGUMENT_LOOKAHEADS], whose patterns are
    [lookaheadPattern] and [matchPattern]. *)
Definition _matchCommandWithArgument (command : string) : M (option Style) :=
  m <- stream_match (lookaheadPattern command) false ;;
  if m then
    stream_match (matchPattern command) true ;;
    openPos <- _startPos ;;
    _defer (DRequiredArgument command openPos) ;;
    ret (Some tag)
  else ret None.

Definition _matchBibCommand : M (option Style) :=
  fold_right (fun command k => _matchCommandWithArgument command ||| k)
             (ret None) _bibCommands.

Definition same_object (a b : option OpenMark) : bool :=
  match a, b with
  | Some x, Some y => Nat.eqb (uid x) (uid y)
  | None, None => true
  | _, _ => false
  end.

(** The loop of [_matchItemCommand] over the marks older than the new one,
    newest first; [lastOpenmark.from] fails when [lastOpenmark] is
    [undefined]. *)
Fixpoint item_number (older : list Mark) (k : string)
    (lastOpenmark : option OpenMark) : Error + jsnumber :=
  match older with
  | [] => inr (JNum 1)
  | mark :: older' =>
      match lastOpenmark with
      | None => inl TypeError
      | Some l =>
          if (pos_line (from mark) <? pos_line (o_from l))%Z then inr (JNum 1)
          else if String.eqb (kind mark) k then
            if negb (same_object (openParent mark) lastOpenmark)
            then item_number older' k lastOpenmark
            else inr (js_succ (cp_number (checkedProperties mark)))
          else item_number older' k lastOpenmark
      end
  end.

Definition _matchItemCommand : M (option Style) :=
  s <- sol ;;
  m <- (if s then stream_match re_item true else ret false) ;;
  if m then
    st <- get_state ;;
    let lastOpenmark := hd_error (openMarks st) in
    let k := match lastOpenmark with
             | Some l => if String.eqb (o_kind l) "enumerate"
                         then "enumerate-item"%string else "item"%string
             | None => "item"%string
             end in
    sp <- _startPos ;;
    _openMark k sp ;;
    cur <- _currentPos ;;
    _closeMark cur ;;
    st' <- get_state ;;
    match item_number (rev (marks st)) k lastOpenmark with
    | inl e => throw e
    | inr n =>
        set_checkedProperties (fun _ =>
          mkChecked (Some k) (Some n)
                    (Some (Z.of_nat (List.length (openMarks st')) - 1)%Z) None None) ;;
        ret (Some tag)
    end
  else ret None.

Definition _matchVerbCommand : M (option Style) :=
  s <- get_stream ;;
  match re_verb (rest s) with
  | Some (n, verbEnd) =>
      set_stream (consume s n) ;;
      _push (VerbBody verbEnd) ;;
      ret (Some tag)
  | None => ret None
  end.

Definition _matchVerbatimEnvironment : M (option Style) :=
  m <- stream_match re_no_backslash true ;;
  (if m then ret tt else stream_next) ;;
  ret (Some string_style).

Definition _matchCommentEnvironment : M (option Style) :=
  m <- stream_match re_no_backslash true ;;
  (if m then ret tt else stream_next) ;;
  ret (Some comment).

(** *** Environment tables *)

Definition ignored_environment (name : string) (t : EnvTokenizer) : EnvConfig :=
  mkEnv name t None true false.

Definition _IGNORED_ENVIRONMENTS : list EnvConfig :=
  [ ignored_environment "verbatim" TkVerbatim;
    ignored_environment "Verbatim" TkVerbatim;
    ignored_environment "lstlisting" TkVerbatim;
    ignored_environment "minted" TkVerbatim;
    ignored_environment "comment" TkComment ].

Definition math_environment (name k : string) : EnvConfig :=
  mkEnv name TkMath (Some k) false false.

Definition _MATH_ENVIRONMENTS : list EnvConfig :=
  [ math_environment "math" "inline-math";
    math_environment "displaymath" "display-math" ] ++
  flat_map (fun env =>
      [ math_environment env "outer-display-math";
        math_environment (env ++ "\*") "outer-display-math" ])
    [ "equation"; "eqnarray"; "align"; "gather"; "multline"; "alignat"; "xalignat" ]%string.

Definition _TOP_LEVEL_ENVIRONMENTS : list EnvConfig :=
  [ mkEnv "abstract" TkText (Some "abstract"%string) true false ].

Definition _LIST_ENVIROMENTS : list EnvConfig :=
  [ mkEnv "itemize" TkListContent (Some "itemize"%string) true true;
    mkEnv "enumerate" TkListContent (Some "enumerate"%string) true true ].

Definition _FIGURE_ENVIRONMENTS : list EnvConfig :=
  [ mkEnv "figure" TkFigureContent (Some "figure"%string) true false ].

Definition _TIKZ_ENVIRONMENTS : list EnvConfig :=
  [ mkEnv "tikzpicture" TkTikZ None true false ].

(** The [matcher] of [_matchEnvironments] up to the push of
    [_matchEnvironment], which the begin callback does. *)
Definition begin_environment (envConfig : EnvConfig) : M (option Style) :=
  markOpenPos <- match env_kind envConfig with
                 | Some _ => sp <- _startPos ;; ret (Some sp)
                 | None => ret None
                 end ;;
  _matchBeginEnvironmentSequence (CbBeginEnvironment envConfig markOpenPos).

Fixpoint _lookaheadForBeginEnvironments (environments : list EnvConfig)
    (matcher : EnvConfig -> M (option Style)) : M (option Style) :=
  match environments with
  | [] => ret None
  | envConfig :: others =>
      m <- stream_match (beginPattern envConfig) false ;;
      if m then matcher envConfig
      else _lookaheadForBeginEnvironments others matcher
  end.

Definition _matchEnvironments (environments : list EnvConfig) : M (option Style) :=
  _lookaheadForBeginEnvironments environments begin_environment.

Definition _matchCommand (command : Pattern) (markKind : string) : M (option Style) :=
  m <- stream_match command true ;;
  if m then
    openPos <- _startPos ;;
    _openMark markKind openPos ;;
    _closeMark openPos ;;
    ret (Some tag)
  else ret None.

Definition _matchOtherEnvironmentBeginOrEnd : M (option Style) :=
  b <- stream_match re_any_begin false ;;
  if b then _matchBeginEnvironmentSequence CbNoop
  else
    e <- stream_match re_any_end false ;;
    if e then _matchEndEnvironmentSequence CbNoop else ret None.

Definition _matchOtherCommand : M (option Style) :=
  m <- stream_match re_command true ;;
  if m then ret (Some tag) else ret None.

Definition _matchSectioningCommand : M (option Style) :=
  _matchCommandWithArgument "chapter" |||
  _matchCommandWithArgument "chapter\*" |||
  _matchCommandWithArgument "section" |||
  _matchCommandWithArgument "section\*" |||
  _matchCommandWithArgument "subsection" |||
  _matchCommandWithArgument "subsection\*" |||
  _matchCommandWithArgument "subsubsection" |||
  _matchCommandWithArgument "subsubsection\*".

Definition _matchDollarDollarMath : M (option Style) :=
  sp <- _startPos ;;
  _matchAndMark "display-math" sp (js "$$") keyword (js "$$") keyword [] InMath.

Definition _matchDollarMath : M (option Style) :=
  sp <- _startPos ;;
  _matchAndMark "inline-math" sp (js "$") keyword (js "$") keyword [js "$$"] InMath.

Definition _matchBracketMath : M (option Style) :=
  sp <- _startPos ;;
  _matchAndMark "display-math" sp (js "\[") keyword (js "\]") keyword [] InMath.

Definition _matchParenMath : M (option Style) :=
  sp <- _startPos ;;
  _matchAndMark "inline-math" sp (js "\(") keyword (js "\)") keyword [] InMath.

Definition _matchEndDocument : M (option Style) :=
  m <- stream_match re_end_document false ;;
  if m then _matchEndEnvironmentSequence CbEndDocument else ret None.

Definition _matchOther : M (option Style) :=
  b <- stream_match re_bracket true ;;
  if b then ret (Some bracket)
  else
    a <- stream_match re_amp_tilde true ;;
    if a then ret (Some tag)
    else
      p <- stream_match re_plain true ;;
      if p then ret None else stream_next ;; ret None.

Definition _matchOtherMath : M (option Style) :=
  c <- stream_match re_command true ;;
  if c then ret (Some tag)
  else
    s <- stream_match re_math_special true ;;
    if s then ret (Some tag)
    else
      n <- stream_match re_number true ;;
      if n then ret (Some number) else stream_next ;; ret None.

Definition _matchMath : M (option Style) :=
  _matchVerbCommand |||
  _matchOtherEnvironmentBeginOrEnd |||
  _matchOtherCommand |||
  _matchOtherMath.

Definition _matchText : M (option Style) :=
  _matchCommandWithArgument "textbf" |||
  _matchCommandWithArgument "textit" |||
  _matchBracketMath |||
  _matchParenMath |||
  _matchCommandWithArgument "ref" |||
  _matchBibCommand |||
  _matchCommandWithArgument "label" |||
  _matchCommandWithArgument "input" |||
  _matchCommandWithArgument "include" |||
  _matchEnvironments _FIGURE_ENVIRONMENTS |||
  _matchEnvironments _LIST_ENVIROMENTS |||
  _matchEnvironments _MATH_ENVIRONMENTS |||
  _matchVerbCommand |||
  _matchEnvironments _IGNORED_ENVIRONMENTS |||
  _matchEnvironments _TIKZ_ENVIRONMENTS |||
  _matchOtherEnvironmentBeginOrEnd |||
  _matchOtherCommand |||
  _matchGroup InText |||
  _matchDollarDollarMath |||
  _matchDollarMath |||
  _matchOther.

Definition _matchIncludeGraphics : M (option Style) :=
  m <- stream_match (lookaheadPattern "includegraphics") false ;;
  if m then
    stream_match (matchPattern "includegraphics") true ;;
    openPos <- _startPos ;;
    _defer (DRequiredArgument "includegraphics" openPos) ;;
    _defer (DOptionalArgumentMarked "includegraphics-optional" openPos) ;;
    ret (Some tag)
  else ret None.

Definition _matchTikZ : M (option Style) :=
  _matchEnvironments _TIKZ_ENVIRONMENTS ||| _matchOtherCommand ||| _matchOther.

Definition _matchFigureContent : M (option Style) :=
  _matchCommandWithArgument "caption" ||| _matchIncludeGraphics ||| _matchText.

Definition _matchListContent : M (option Style) :=
  _matchItemCommand ||| _matchText.

Definition _topLevel : M (option Style) :=
  _matchTitleCommand |||
  _matchCommandWithArgument "author" |||
  _matchCommand re_maketitle "maketitle" |||
  _matchSectioningCommand |||
  _matchEnvironments _TOP_LEVEL_ENVIRONMENTS |||
  _matchEndDocument |||
  _matchText.

(** *** The functions on the stack *)

Definition inner_mode (m : InnerMode) : M (option Style) :=
  match m with InText => _matchText | InMath => _matchMath end.

Definition env_tokenizer (t : EnvTokenizer) : M (option Style) :=
  match t with
  | TkVerbatim => _matchVerbatimEnvironment
  | TkComment => _matchCommentEnvironment
  | TkMath => _matchMath
  | TkText => _matchText
  | TkListContent => _matchListContent
  | TkFigureContent => _matchFigureContent
  | TkTikZ => _matchTikZ
  end.

(** The tokenizer wrapped by [_defer]. *)
Definition deferred_call (d : DeferredCall) : M (option Style) :=
  match d with
  | DMatchNext cell sq cb => _matchNext cell sq cb
  | DRequiredArgument k openPos => _matchAndMarkRequiredArgument k openPos InText
  | DOptionalArgumentMarked k openPos => _matchAndMarkOptionalArgument k openPos InText
  | DOptionalArgument => _matchOptionalArgument InText
  end.

Fixpoint lookahead_any (abandon : list (list N)) : M bool :=
  match abandon with
  | [] => ret false
  | a :: others =>
      m <- stream_match (lit a) false ;;
      if m then ret true else lookahead_any others
  end.

(** The body of the function [t] found on top of the stack;
    [_popAndResume] is what [_popAndResume(stream, state)] does when [t]
    calls it. *)
Definition run_tokenizer (t : Tok) (_popAndResume : M (option Style)) : M (option Style) :=
  match t with
  | TopLevel => _topLevel
  | Deferred d => _pop ;; deferred_call d
  | MarkBody close closeStyle abandon innerMode =>
      b <- _matchBlankLine ;;
      if b then _abandonMark ;; _popAndResume
      else
        a <- lookahead_any abandon ;;
        if a then _abandonMark ;; _popAndResume
        else
          c <- stream_match (lit close) true ;;
          if c then
            sp <- _startPos ;;
            _closeMark sp ;;
            _pop ;;
            ret (Some closeStyle)
          else inner_mode innerMode
  | ArgumentBody close closeStyle innerMode =>
      b <- _matchBlankLine ;;
      if b then _pop ;; ret None
      else
        c <- stream_match (lit close) true ;;
        if c then _pop ;; ret (Some closeStyle) else inner_mode innerMode
  | GroupBody innerMode =>
      c <- stream_eat (ch "}") ;;
      if c then _pop ;; ret (Some bracket) else inner_mode innerMode
  | VerbBody verbEnd =>
      m <- stream_match (lit [verbEnd]) true ;;
      if m then _pop ;; ret (Some tag)
      else
        f <- stream_skipTo verbEnd ;;
        if f then ret (Some string_style)
        else stream_skipToEnd ;; ret (Some string_style)
  | EnvironmentBody envConfig =>
      let mark := match env_kind envConfig with Some _ => true | None => false end in
      b <- (if negb (allowBlankLines envConfig) then _matchBlankLine else ret false) ;;
      if b then
        (if mark then _abandonMark else ret tt) ;;
        _popAndResume
      else
        e <- stream_match (endPattern envConfig) false ;;
        if e then
          markClosePos <- (if mark then sp <- _startPos ;; ret (Some sp) else ret None) ;;
          _pop ;;
          _matchEndEnvironmentSequence (CbEndEnvironment envConfig markClosePos)
        else env_tokenizer (tokenizer envConfig)
  | AfterEndDocument => stream_skipToEnd ;; ret (Some comment)
  end.

(** [state.stack[state.stack.length - 1](stream, state)] for the stack [stk],
    which is [state.stack] at the call; calling [undefined] fails with
    [fault]. *)
Fixpoint call_top (fault : Error) (stk : list Tok) : M (option Style) :=
  match stk with
  | [] => throw fault
  | t :: below => run_tokenizer t (_pop ;; call_top TypeError below)
  end.

(** *** The mode *)

Definition set_line (f : Z -> Z) : M unit :=
  st <- get_state ;;
  set_state (mkState (stack st) (f (line st)) (openMarks st) (marks st)).

Definition _startNewLine : M unit := set_line (fun l => (l + 1)%Z).

Definition _token : M (option Style) :=
  s <- sol ;;
  (if s then _startNewLine else ret tt) ;;
  result <- _matchLineComment ;;
  result <- match result with
            | Some r => ret (Some r)
            | None => st <- get_state ;; call_top EmptyStack (stack st)
            end ;;
  s <- sol ;;
  e <- eol ;;
  (if s && negb e then set_line (fun l => (l - 1)%Z) else ret tt) ;;
  ret result.

Definition startState : State := mkState [TopLevel] (-1) [] [].

Definition empty_heap : Heap := mkHeap [] 0.

(** [token(stream, state)] and [blankLine(state)] as the editor calls them:
    the state is mutated in place and the heap is shared.  [blankLine] has
    no [return]: it calls [_token] and its own value is [undefined]. *)
Definition token (s : Stream) (st : State) (h : Heap) : Error + (option Style * World) :=
  _token (mkWorld s st h).

Definition blankLine (st : State) (h : Heap) : Error + (option Style * World) :=
  match _token (mkWorld (StringStream []) st h) with
  | inl e => inl e
  | inr (_, w) => inr (None, w)
  end.

(** ** The editor's side

    [parseLine] is the driver of the repository's test suite, which calls
    the mode the way CodeMirror does: [blankLine] for an empty line, and
    otherwise [token] until the end of the line, with [stream.start] moved
    to [stream.pos] between two calls. *)

Inductive Outcome (A : Type) :=
| OutOfFuel
| Threw (e : Error)
| Done (a : A).
Arguments OutOfFuel {A}.
Arguments Threw {A} e.
Arguments Done {A} a.

Definition next_token (s : Stream) : Stream := mkStream (pos s) (pos s) (rest s).

Fixpoint token_loop (fuel : nat) (w : World) (output : list (option Style))
  : Outcome (list (option Style) * World) :=
  match rest (stream w) with
  | [] => Done (output, w)
  | _ :: _ =>
      match fuel with
      | O => OutOfFuel
      | S fuel' =>
          match _token w with
          | inl e => Threw e
          | inr (style, w') =>
              token_loop fuel'
                (mkWorld (next_token (stream w')) (state w') (heap w'))
                (output ++ [style])
          end
      end
  end.

(** Every call of [token] on a line consumes input or shortens the stack,
    and pushes at most two functions. *)
Definition line_fuel (l : list N) (st : State) : nat :=
  3 * List.length l + List.length (stack st) + 1.

Definition parseLine (l : list N) (st : State) (h : Heap)
  : Outcome (list (option Style) * State * Heap) :=
  match l with
  | [] =>
      match blankLine st h with
      | inl e => Threw e
      | inr (style, w) => Done ([style], state w, heap w)
      end
  | _ :: _ =>
      match token_loop (line_fuel l st) (mkWorld (StringStream l) st h) [] with
      | OutOfFuel => OutOfFuel
      | Threw e => Threw e
      | Done (output, w) => Done (output, state w, heap w)
      end
  end.

(** The result of tokenizing a document: the styles of each line, the
    copy of the state that the editor keeps at each line boundary (boundary
    0 is before the first line), the last state and the heap. *)
Record Parsed := mkParsed {
  styles : list (list (option Style));
  saved : list State;
  final : State;
  final_heap : Heap
}.

Fixpoint parseLines (ls : list (list N)) (st : State) (h : Heap) : Outcome Parsed :=
  match ls with
  | [] => Done (mkParsed [] [st] st h)
  | l :: ls' =>
      match parseLine l st h with
      | OutOfFuel => OutOfFuel
      | Threw e => Threw e
      | Done (output, st', h') =>
          match parseLines ls' st' h' with
          | OutOfFuel => OutOfFuel
          | Threw e => Threw e
          | Done p => Done (mkParsed (output :: styles p) (st :: saved p) (final p) (final_heap p))
          end
      end
  end.

Definition parseDocument (ls : list string) : Outcome Parsed :=
  parseLines (map js ls) startState empty_heap.

(** [n] consecutive calls of [token] on the current line. *)
Fixpoint token_steps (n : nat) (w : World) : Error + World :=
  match n with
  | O => inr w
  | S n' =>
      match _token w with
      | inl e => inl e
      | inr (_, w') =>
          token_steps n' (mkWorld (next_token (stream w')) (state w') (heap w'))
      end
  end.

(** The editor tokenizes again from line [k], starting from the copy of the
    state that it kept at boundary [k] of an earlier pass [p]: the copy has
    its own [stack], [openMarks] and [marks] arrays, but the functions and
    marks in them are the objects of the earlier pass, in the heap that this
    pass has left. *)
Definition resume_from (k : nat) (ls : list (list N)) (p : Parsed) : Outcome Parsed :=
  parseLines (skipn k ls) (nth k (saved p) startState) (final_heap p).

(** ** Reachable states *)

(** States reached by calls of [token] (and of [blankLine], which is
    [token] on the empty stream) on arbitrary streams. *)
Inductive Called : State -> Heap -> Prop :=
| called_start : Called startState empty_heap
| called_token s st h r w' :
    Called st h -> token s st h = inr (r, w') -> Called (state w') (heap w').

(** The calls that the editor makes: on a line that is not finished,
    [token] with [start] at the cursor; at the end of a line either
    [blankLine] for an empty next line or a stream over the next line. *)
Definition start_world : World := mkWorld (StringStream []) startState empty_heap.

Definition advance (w : World) : World :=
  mkWorld (next_token (stream w)) (state w) (heap w).

Inductive host_step : World -> World -> Prop :=
| step_token w r w' :
    rest (stream w) <> [] -> _token w = inr (r, w') -> host_step w (advance w')
| step_blank w r w' :
    rest (stream w) = [] -> blankLine (state w) (heap w) = inr (r, w') ->
    host_step w (advance w')
| step_line w l :
    rest (stream w) = [] -> l <> [] ->
    host_step w (mkWorld (StringStream l) (state w) (heap w)).

Inductive Reachable : World -> Prop :=
| reach_start : Reachable start_world
| reach_step w w' : Reachable w -> host_step w w' -> Reachable w'.

(** Lexicographic order of positions. *)
Definition pos_lt (p q : Pos) : Prop :=
  (pos_line p < pos_line q)%Z \/ (pos_line p = pos_line q /\ pos_ch p < pos_ch q).

Definition pos_le (p q : Pos) : Prop :=
  (pos_line p < pos_line q)%Z \/ (pos_line p = pos_line q /\ pos_ch p <= pos_ch q).

Fixpoint ascending (l : list Pos) : Prop :=
  match l with
  | [] => True
  | p :: l' => (forall q, In q l' -> pos_le p q) /\ ascending l'
  end.

(** What a test of the repository reads from a closed mark. *)
Definition outline (m : Mark) : string * Pos * Pos * Pos * Pos :=
  (kind m, from m, contentFrom m, contentTo m, to m).

(** ** Relations between the world before and after a step *)

Definition preorder (R : World -> World -> Prop) : Prop :=
  (forall w, R w w) /\ (forall a b c, R a b -> R b c -> R a c).

(** [m] relates the worlds by [R] when it returns, and fails with
    [TypeError] only: no function of the mode other than [_token] itself
    fails with [EmptyStack]. *)
Definition respects (R : World -> World -> Prop) {A} (m : M A) : Prop :=
  forall w, match m w with
            | inl e => e = TypeError
            | inr (_, w') => R w w'
            end.

Definition any_world (w w' : World) : Prop := True.

(** A matcher never pops the stack, and never removes or changes a closed
    mark. *)
Definition grows (w w' : World) : Prop :=
  (exists l, stack (state w') = l ++ stack (state w)) /\
  (exists n, marks (state w') = marks (state w) ++ n).

(** The steps that a function on the stack takes before it pops itself
    leave the stack alone. *)
Definition keeps (w w' : World) : Prop :=
  stack (state w') = stack (state w) /\
  exists n, marks (state w') = marks (state w) ++ n.

Definition marks_extended (w w' : World) : Prop :=
  exists n, marks (state w') = marks (state w) ++ n.

Definition anchored (stk : list Tok) : Prop := exists l, stk = l ++ [TopLevel].

(** The result of a call in terms of the stack and the marks at the call. *)
Definition call_result (w w' : World) : Prop :=
  anchored (stack (state w')) /\
  exists n, marks (state w') = marks (state w) ++ n.

Definition dollar_line : list N := js "foo $x bar $$x$$".

Definition interrupted_begin : list string := ["\begin{%x}"; "foo"]%string.

(** ** Blank lines and the beginning of environments *)

Definition blank_world (st : State) (h : Heap) : World := mkWorld (StringStream []) st h.












(** ** The invariant of the states that the editor reaches *)

(** The position that bounds every position recorded so far: the cursor,
    or the start of the next line when the cursor is at the start of a
    line (the line counter is then one behind). *)
Definition bound (w : World) : Pos :=
  match pos (stream w) with
  | O => mkPos (line (state w) + 1) 0
  | S _ => mkPos (line (state w)) (pos (stream w))
  end.

(** What holds of every closed mark: the ranges are ordered, except that a
    mark made by [_matchCommand] has its inner range reversed. *)
Definition good_mark (m : Mark) : Prop :=
  pos_lt (from m) (contentFrom m) /\
  pos_le (contentFrom m) (to m) /\
  pos_le (from m) (contentTo m) /\
  pos_le (contentTo m) (to m) /\
  (pos_le (contentFrom m) (contentTo m) \/
   (contentTo m = from m /\ contentFrom m = to m)).

Definition marks_ok (b : Pos) (mks : list Mark) : Prop :=
  Forall good_mark mks /\
  ascending (map to mks) /\
  ascending (map contentTo mks) /\
  Forall (fun m => pos_le (to m) b) mks.

Definition good_open (b : Pos) (o : OpenMark) : Prop :=
  pos_lt (o_from o) (o_contentFrom o) /\ pos_le (o_contentFrom o) b.

(** [o] was opened at or after the start of every mark of [os]. *)
Definition above (os : list OpenMark) (o : OpenMark) : Prop :=
  forall o', In o' os -> pos_le (o_from o') (o_from o).

(** A position that a function on the stack has captured for the mark it
    is going to open. *)
Definition captured (b : Pos) (opens : list OpenMark) (p : Pos) : Prop :=
  pos_le p b /\ forall o, In o opens -> pos_le (o_from o) p.

Definition all_environments : list EnvConfig :=
  _FIGURE_ENVIRONMENTS ++ _LIST_ENVIROMENTS ++ _MATH_ENVIRONMENTS ++
  _IGNORED_ENVIRONMENTS ++ _TIKZ_ENVIRONMENTS ++ _TOP_LEVEL_ENVIRONMENTS.

Definition is_marked (e : EnvConfig) : bool :=
  match env_kind e with Some _ => true | None => false end.

(** The stack and the open marks go together: the functions of
    [_matchAndMark] and of a marked environment, and the end sequence of a
    marked environment, each own one open mark, in the order of the
    stack; the mark of an environment has the kind of the environment. *)
Fixpoint sync (b : Pos) (stk : list Tok) (opens : list OpenMark) : Prop :=
  match stk with
  | [] => opens = []
  | t :: below =>
      let owns (P : OpenMark -> Prop) :=
        exists o os, opens = o :: os /\ above os o /\ P o /\ sync b below os in
      match t with
      | MarkBody _ _ _ _ => owns (fun _ => True)
      | EnvironmentBody e =>
          In e all_environments /\
          if is_marked e then owns (fun o => env_kind e = Some (o_kind o))
          else sync b below opens
      | Deferred (DMatchNext _ _ (CbEndEnvironment e cp)) =>
          In e all_environments /\
          match cp with
          | Some p =>
              is_marked e = true /\
              owns (fun o => pos_le (o_contentFrom o) p /\ pos_le p b)
          | None => is_marked e = false /\ sync b below opens
          end
      | Deferred (DMatchNext _ _ (CbBeginEnvironment e mp)) =>
          In e all_environments /\
          match mp with
          | Some p => is_marked e = true /\ captured b opens p
          | None => is_marked e = false
          end /\
          sync b below opens
      | Deferred (DRequiredArgument _ p) | Deferred (DOptionalArgumentMarked _ p) =>
          captured b opens p /\ sync b below opens
      | _ => sync b below opens
      end
  end.

(** The end sequence of a marked environment. *)
Definition is_end_sequence (t : Tok) : bool :=
  match t with
  | Deferred (DMatchNext _ _ (CbEndEnvironment _ (Some _))) => true
  | _ => false
  end.

Fixpoint cells_of (stk : list Tok) : list nat :=
  match stk with
  | [] => []
  | Deferred (DMatchNext c _ _) :: below => c :: cells_of below
  | _ :: below => cells_of below
  end.

(** The counters of the sequences in progress are distinct, and between 1
    and 3. *)
Definition heap_ok (stk : list Tok) (hp : Heap) : Prop :=
  NoDup (cells_of stk) /\
  forall c, In c (cells_of stk) ->
    c < List.length (cells hp) /\ 1 <= nth c (cells hp) 0 <= 3.

(** Once a closed mark has [o] as its parent, every mark closed from then
    on starts at or after the start of [o]. *)
Definition children_ok (opens : list OpenMark) (mks : list Mark) : Prop :=
  forall o l1 m l2,
    In o opens -> mks = l1 ++ m :: l2 ->
    same_object (openParent m) (Some o) = true ->
    forall m2, In m2 (m :: l2) -> pos_le (o_from o) (from m2).

Definition uid_ok (opens : list OpenMark) (mks : list Mark) (hp : Heap) : Prop :=
  (forall o, In o opens -> uid o < next_uid hp) /\
  (forall m p, In m mks -> openParent m = Some p -> uid p < next_uid hp).

Definition good (b : Pos) (st : State) (hp : Heap) : Prop :=
  marks_ok b (marks st) /\
  Forall (good_open b) (openMarks st) /\
  sync b (stack st) (openMarks st) /\
  heap_ok (stack st) hp /\
  children_ok (openMarks st) (marks st) /\
  uid_ok (openMarks st) (marks st) hp.

(** What is left of [\end{name}] on the line after [i] tokens of the
    sequence. *)
Definition pending (i : nat) (e : EnvConfig) (s : list N) : Prop :=
  let name := regex_literal (env_name e) in
  match i with
  | 1 => exists t, s = js "{" ++ name ++ js "}" ++ t
  | 2 => exists t, s = name ++ js "}" ++ t
  | 3 => exists t, s = js "}" ++ t
  | _ => False
  end.

Definition no_end_sequence (stk : list Tok) : Prop :=
  existsb is_end_sequence stk = false.

(** While the end sequence of a marked environment is on the stack it is
    on top of it, the rest of the line is the rest of the sequence, and the
    position at which the mark's content ends bounds the marks closed so
    far. *)
Definition ending_ok (w : World) : Prop :=
  match stack (state w) with
  | Deferred (DMatchNext c sq (CbEndEnvironment e (Some p))) :: below =>
      sq = EndSeq /\
      pending (nth c (cells (heap w)) 0) e (rest (stream w)) /\
      Forall (fun m => pos_le (to m) p) (marks (state w)) /\
      no_end_sequence below
  | stk => no_end_sequence stk
  end.

(** The invariant between two calls of the editor. *)
Definition Inv (w : World) : Prop :=
  start (stream w) = pos (stream w) /\
  good (bound w) (state w) (heap w) /\
  ending_ok w.

(** During a call of [token] on line [L] that started at column [p0]. *)
Definition during (L : Z) (p0 : nat) (w : World) : Prop :=
  line (state w) = L /\ start (stream w) = p0 /\ p0 <= pos (stream w).

(** Before a matcher changes the state, the positions recorded are bounded
    by the start of the token; afterwards by the cursor. *)
Definition before_match (L : Z) (p0 : nat) (w : World) : Prop :=
  during L p0 w /\
  good (mkPos L p0) (state w) (heap w) /\
  no_end_sequence (stack (state w)).

Definition after_match (L : Z) (p0 : nat) (w : World) : Prop :=
  during L p0 w /\
  good (mkPos L (pos (stream w))) (state w) (heap w) /\
  no_end_sequence (stack (state w)).

(** After the function on top of the stack has run. *)
Definition call_post (L : Z) (p0 : nat) (w : World) : Prop :=
  during L p0 w /\
  good (mkPos L (pos (stream w))) (state w) (heap w) /\
  ending_ok w.

Definition matcher_ok (m : M (option Style)) : Prop :=
  forall L p0 w r w',
    before_match L p0 w -> m w = inr (r, w') ->
    after_match L p0 w' /\ (r = None -> before_match L p0 w').

(** A step that only moves the cursor forward. *)
Definition consumes (w w' : World) : Prop :=
  state w' = state w /\ heap w' = heap w /\
  start (stream w') = start (stream w) /\
  pos (stream w) <= pos (stream w').

(** What [_matchNext] needs of its callback. *)
Definition cb_ready (b : Pos) (opens : list OpenMark) (cb : Callback) : Prop :=
  match cb with
  | CbNoop | CbEndDocument => True
  | CbBeginEnvironment e mp =>
      In e all_environments /\
      match mp with
      | Some p => is_marked e = true /\ captured b opens p
      | None => is_marked e = false
      end
  | CbEndEnvironment e cp =>
      In e all_environments /\ cp = None /\ is_marked e = false
  end.

(** The number that the loop of [_matchItemCommand] ends with, in closed
    form: the successor of the number of the first mark that [find] meets,
    and 1 if it meets none. *)
Definition loop_number (mks : list Mark) (k : string) (parent : OpenMark) : jsnumber :=
  match
    find (fun m => String.eqb (kind m) k && same_object (openParent m) (Some parent))
         (rev (filter (fun m => negb (pos_line (from m) <? pos_line (o_from parent))%Z) mks))
  with
  | Some m => js_succ (cp_number (checkedProperties m))
  | None => JNum 1
  end.

(** The names of the environments of the tables. *)
Definition name_ok (name : list N) : bool :=
  match name with
  | c :: _ => negb (is_space c) && negb (c =? ch "%")%N
  | [] => false
  end && forallb (fun c => negb (one_of "{}" c)) name.

(** The editor's calls on the lines [ls], from a world at the end of a
    line: [blankLine] for an empty line, and otherwise [token] until the end
    of the line. *)
Fixpoint tokens_to_eol (fuel : nat) (w : World) : option World :=
  match rest (stream w) with
  | [] => Some w
  | _ :: _ =>
      match fuel with
      | O => None
      | S fuel' =>
          match _token w with
          | inr (_, w') => tokens_to_eol fuel' (advance w')
          | inl _ => None
          end
      end
  end.

Definition host_line (l : list N) (w : World) : option World :=
  match l with
  | [] =>
      match blankLine (state w) (heap w) with
      | inr (_, w') => Some (advance w')
      | inl _ => None
      end
  | _ :: _ =>
      tokens_to_eol (line_fuel l (state w)) (mkWorld (StringStream l) (state w) (heap w))
  end.

Fixpoint host_lines (ls : list (list N)) (w : World) : option World :=
  match ls with
  | [] => Some w
  | l :: ls' =>
      match rest (stream w) with
      | [] =>
          match host_line l w with
          | Some w' => host_lines ls' w'
          | None => None
          end
      | _ :: _ => None
      end
  end.

Definition host_document (ls : list string) : option World :=
  host_lines (map js ls) start_world.

(** C2 as the specification states it. *)
Definition ordered_as_stated (m : Mark) : Prop :=
  pos_lt (from m) (to m) /\ pos_le (from m) (contentFrom m) /\
  pos_le (contentFrom m) (contentTo m) /\ pos_le (contentTo m) (to m).

(** The part of it that holds: a mark made by [_matchCommand] has
    [contentTo] at its start and [contentFrom] at its end. *)
Definition ordered_mark (m : Mark) : Prop :=
  pos_lt (from m) (to m) /\ pos_le (from m) (contentFrom m) /\
  pos_le (contentTo m) (to m) /\
  (pos_le (contentFrom m) (contentTo m) \/
   (contentTo m = from m /\ contentFrom m = to m)).

(** The kind of an item in a list whose mark is [parent]. *)
Definition item_kind (parent : OpenMark) : string :=
  if String.eqb (o_kind parent) "enumerate" then "enumerate-item" else "item".

(** The world that the editor has reached after the lines [ls]. *)
Definition world_after (ls : list string) : World :=
  match host_document ls with Some w => w | None => start_world end.

Definition section_and_math : list string := ["\section{a}"; EmptyString; "$x$ and $y$"]%string.

Definition enumerate_item : list string := ["\begin{enumerate}"; "\item okok"]%string.

(** The editor at the start of the line [\item okok] after the line
    [\begin{enumerate}]. *)
Definition item_world : World :=
  mkWorld (StringStream (js "\item okok"))
          (state (world_after ["\begin{enumerate}"%string]))
          (heap (world_after ["\begin{enumerate}"%string])).

Definition enumerate_environment : EnvConfig :=
  mkEnv "enumerate" TkListContent (Some "enumerate"%string) true true.


(** ** The numbers of the items *)

(** [m] keeps the property [I] of the world when it returns. *)
Definition maintains {A} (I : World -> Prop) (m : M A) : Prop :=
  forall w a w', I w -> m w = inr (a, w') -> I w'.

(** The kinds of the marks of [_matchItemCommand]. *)
Definition item_kind_name (k : string) : bool :=
  (String.eqb k "item" || String.eqb k "enumerate-item")%bool.

(** The closed mark of an item has a number, which is at least 1. *)
Definition numbered (m : Mark) : Prop :=
  item_kind_name (kind m) = true ->
  exists n, cp_number (checkedProperties m) = Some (JNum n) /\ 1 <= n.

(** The marks that the functions on the stack are going to open are not
    marks of items. *)
Definition plain_environment (e : EnvConfig) : bool :=
  match env_kind e with Some k => negb (item_kind_name k) | None => true end.

Definition plain_callback (cb : Callback) : bool :=
  match cb with
  | CbBeginEnvironment e _ => plain_environment e
  | _ => true
  end.

Definition plain_deferred (d : DeferredCall) : bool :=
  match d with
  | DMatchNext _ _ cb => plain_callback cb
  | DRequiredArgument k _ | DOptionalArgumentMarked k _ => negb (item_kind_name k)
  | DOptionalArgument => true
  end.

Definition plain_tok (t : Tok) : bool :=
  match t with Deferred d => plain_deferred d | _ => true end.

Definition plain_open (o : OpenMark) : bool := negb (item_kind_name (o_kind o)).

(** Between two matchers every item is numbered, and no mark of an item is
    open or about to be opened. *)
Definition numbered_ok (w : World) : Prop :=
  Forall numbered (marks (state w)) /\
  forallb plain_open (openMarks (state w)) = true /\
  forallb plain_tok (stack (state w)) = true.

(** The item before the new one as the specification words it (C6): the
    most recent closed mark of kind [k] and parent [parent] among the closed
    marks that do not start on a line before [parent]. *)
Definition previous_item (mks : list Mark) (k : string) (parent : OpenMark) : option Mark :=
  find (fun m => String.eqb (kind m) k && same_object (openParent m) (Some parent))%bool
       (rev (filter (fun m => negb (pos_line (from m) <? pos_line (o_from parent))%Z) mks)).

(** An [itemize] between two items of an [enumerate]. *)
Definition nested_items : list string :=
  ["\begin{enumerate}"; "\item a"; "\begin{itemize}"; "\item x"; "\end{itemize}";
   "\item b"]%string.

(** The editor at the start of the last line of [nested_items]. *)
Definition second_item_world : World :=
  mkWorld (StringStream (js "\item b"))
          (state (world_after (firstn 5 nested_items)))
          (heap (world_after (firstn 5 nested_items))).

(** ** Further properties *)

(** The functions on the stack that have a mark open: the function of
    [_matchAndMark], the function of an environment that has a mark kind,
    and the end sequence of such an environment. *)
Definition owns_mark (t : Tok) : bool :=
  match t with
  | MarkBody _ _ _ _ => true
  | EnvironmentBody e => is_marked e
  | Deferred (DMatchNext _ _ (CbEndEnvironment _ (Some _))) => true
  | _ => false
  end.

(** The positions recorded in a closed mark are in order and not after
    [b]. *)
Definition mark_within (b : Pos) (m : Mark) : Prop :=
  pos_lt (from m) (contentFrom m) /\ pos_le (contentFrom m) (to m) /\
  pos_le (from m) (contentTo m) /\ pos_le (contentTo m) (to m) /\
  pos_le (to m) b.

(** The positions recorded in an open mark are in order and not after
    [b]. *)
Definition open_mark_within (b : Pos) (o : OpenMark) : Prop :=
  pos_lt (o_from o) (o_contentFrom o) /\ pos_le (o_contentFrom o) b.

Definition unchanged (w w' : World) : Prop :=
  stack (state w') = stack (state w) /\
  openMarks (state w') = openMarks (state w) /\
  marks (state w') = marks (state w) /\
  heap w' = heap w.

Definition after_end_document : World :=
  mkWorld (StringStream (js "\section{x} $y$"))
          (state (world_after ["\end{document}"%string]))
          (heap (world_after ["\end{document}"%string])).

Definition in_verbatim : World :=
  mkWorld (StringStream (js "\section{x} $y$"))
          (state (world_after ["\begin{verbatim}"%string]))
          (heap (world_after ["\begin{verbatim}"%string])).

Definition nested_marks : list string :=
  ["\begin{figure}"; "\caption{a $x"]%string.

(** The line counter of a world at which the editor is on line [L]: at
    the start of a line that is not empty the counter is one behind. *)
Definition line_at (L : Z) (w : World) : Prop :=
  match rest (stream w), pos (stream w) with
  | _ :: _, O => line (state w) = (L - 1)%Z
  | _, _ => line (state w) = L
  end.

(** A step that consumes characters of the line and does nothing else to
    the stream, and leaves the line counter alone. *)
Definition forward (w w' : World) : Prop :=
  (exists k, stream w' = consume (stream w) k) /\
  line (state w') = line (state w).

(** Whether a call of [token] from [w] to [w'] counts a new line: it
    begins at the start of a line, and does not end at the start of a line
    that is not finished. *)
Definition line_started (w w' : World) : bool :=
  Nat.eqb (pos (stream w)) 0 &&
  negb (Nat.eqb (pos (stream w')) 0 &&
        negb (match rest (stream w') with [] => true | _ :: _ => false end)).

Definition comment_line : World :=
  mkWorld (StringStream (js "  % note")) (mkState [] 0 [] []) empty_heap.

(** [m] returns, whatever the world. *)
Definition returns {A} (m : M A) : Prop :=
  forall w, exists a w', m w = inr (a, w').

(** The callback that closes the mark of an environment needs an open
    mark. *)
Definition closes_mark (cb : Callback) : bool :=
  match cb with
  | CbEndEnvironment e (Some _) => is_marked e
  | _ => false
  end.

(** ** Progress *)

(** What is left to do on the line: each character can be followed by two
    calls that consume nothing. *)
Definition measure (w : World) : nat :=
  3 * List.length (rest (stream w)) + List.length (stack (state w)).

(** A pattern that matches at least one character. *)
Definition positive (p : Pattern) : Prop :=
  forall s n, p s = Some n -> 0 < n /\ s <> [].

(** The function of [_matchAndMark] on the stack closes its mark at a
    closing string that is not empty. *)
Definition closer_ok (t : Tok) : Prop :=
  match t with
  | MarkBody close _ _ _ => close <> []
  | _ => True
  end.

(** The end of [m] is on the line of [w], after the cursor of [w]. *)
Definition ahead (w : World) (m : Mark) : Prop :=
  pos_line (to m) = line (state w) /\ pos (stream w) < pos_ch (to m).

(** At most one mark has been closed, and it ends after the cursor of [w]. *)
Definition closed_ahead (w w' : World) : Prop :=
  marks (state w') = marks (state w) \/
  exists m, marks (state w') = marks (state w) ++ [m] /\ ahead w m.

(** A step that leaves the stack, the stream, the closed marks and the
    line counter alone, and one that consumes a character at least, pushes
    two functions at most and closes one mark at most. *)
Definition still (w w' : World) : Prop :=
  stack (state w') = stack (state w) /\ stream w' = stream w /\
  marks (state w') = marks (state w) /\ line (state w') = line (state w).

Definition eats (w w' : World) : Prop :=
  List.length (rest (stream w')) < List.length (rest (stream w)) /\
  (exists l, stack (state w') = l ++ stack (state w) /\ List.length l <= 2 /\
             Forall closer_ok l) /\
  line (state w') = line (state w) /\
  closed_ahead w w'.

(** A matcher that returns a style exactly when it consumes. *)
Definition strict (m : M (option Style)) : Prop :=
  forall w r w', m w = inr (r, w') ->
    match r with
    | Some _ => eats w w'
    | None => still w w'
    end.

(** A matcher that consumes whenever there is something left. *)
Definition tokenizes (m : M (option Style)) : Prop :=
  forall w r w', m w = inr (r, w') ->
    match rest (stream w) with
    | _ :: _ => eats w w'
    | [] => still w w'
    end.

(** A call has not lengthened the rest of the line; on a line that is not
    finished it has made [measure] smaller, and at the end of a line it has
    not lengthened the stack. *)
Definition advances (w w' : World) : Prop :=
  List.length (rest (stream w')) <= List.length (rest (stream w)) /\
  match rest (stream w) with
  | [] => List.length (stack (state w')) <= List.length (stack (state w))
  | _ :: _ => measure w' < measure w
  end.

(** The editor at the start of the line [\includegraphics{a}] after the
    line [\begin{figure}]. *)
Definition graphics_line : World :=
  mkWorld (StringStream (js "\includegraphics{a}"))
          (state (world_after ["\begin{figure}"%string]))
          (heap (world_after ["\begin{figure}"%string])).

(** What a call does to the closed marks: it leaves the line counter alone,
    closes one mark at most, after the cursor, and leaves on the stack only
    functions of [_matchAndMark] with a closing string. *)
Definition closes (w w' : World) : Prop :=
  line (state w') = line (state w) /\
  closed_ahead w w' /\
  (Forall closer_ok (stack (state w)) -> Forall closer_ok (stack (state w'))).

Fixpoint strictly_ascending (l : list Pos) : Prop :=
  match l with
  | [] => True
  | p :: l' => (forall q, In q l' -> pos_lt p q) /\ strictly_ascending l'
  end.

(** [w1] is [w] after characters have been consumed, open marks abandoned
    and functions popped. *)
Definition later (w w1 : World) : Prop :=
  line (state w1) = line (state w) /\ marks (state w1) = marks (state w) /\
  pos (stream w) <= pos (stream w1) /\
  exists j, stack (state w1) = skipn j (stack (state w)).


Definition figure_environment : EnvConfig :=
  mkEnv "figure" TkFigureContent (Some "figure"%string) true false.

(** The editor at the start of the line [\end{figure} x] after the line
    [\begin{figure}], and the mark that [\begin{figure}] has opened. *)
Definition figure_end : World :=
  mkWorld (StringStream (js "\end{figure} x"))
          (state (world_after ["\begin{figure}"%string]))
          (heap (world_after ["\begin{figure}"%string])).

Definition figure_mark : OpenMark :=
  mkOpenMark 0 "figure" (mkPos 0 0) (mkPos 0 14) (Some 0%Z).

(** * Properties *)

(** ** Reasoning about the monad *)

Lemma bind_inr {A B} (m : M A) (f : A -> M B) w b w' :
  bind m f w = inr (b, w') ->
  exists a w1, m w = inr (a, w1) /\ f a w1 = inr (b, w').
Proof.
  unfold bind. destruct (m w) as [e | [a w1]]; [discriminate |].
  intros H. exists a, w1. split; [reflexivity | exact H].
Qed.

Lemma ret_inr {A} (a b : A) w w' : ret a w = inr (b, w') -> a = b /\ w = w'.
Proof. unfold ret. intros H. inversion H. split; reflexivity. Qed.

(** One step of symbolic execution of a hypothesis [m w = inr (a, w')]. *)
Ltac mstep :=
  match goal with
  | H : ret _ _ = inr _ |- _ => apply ret_inr in H; destruct H; subst
  | H : throw _ _ = inr _ |- _ => discriminate H
  | H : inl _ = inr _ |- _ => discriminate H
  | H : inr _ = inr _ |- _ => inversion H; subst; clear H
  | H : get_stream _ = inr _ |- _ => unfold get_stream in H
  | H : get_state _ = inr _ |- _ => unfold get_state in H
  | H : set_stream _ _ = inr _ |- _ => unfold set_stream in H
  | H : set_state _ _ = inr _ |- _ => unfold set_state in H
  | H : new_cell _ _ = inr _ |- _ => unfold new_cell in H; cbv zeta in H
  | H : read_cell _ _ = inr _ |- _ => unfold read_cell in H
  | H : write_cell _ _ _ = inr _ |- _ => unfold write_cell in H; cbv zeta in H
  | H : fresh_uid _ = inr _ |- _ => unfold fresh_uid in H; cbv zeta in H
  | H : (match _ :: _ with [] => _ | _ :: _ => _ end) _ = inr _ |- _ => cbv beta iota in H
  | H : (match [] with [] => _ | _ :: _ => _ end) _ = inr _ |- _ => cbv beta iota in H
  | H : (match Some _ with Some _ => _ | None => _ end) _ = inr _ |- _ => cbv beta iota in H
  | H : (match None with Some _ => _ | None => _ end) _ = inr _ |- _ => cbv beta iota in H
  | H : (if true then _ else _) _ = inr _ |- _ => cbv iota in H
  | H : (if false then _ else _) _ = inr _ |- _ => cbv iota in H
  | H : bind _ _ _ = inr _ |- _ =>
      let a := fresh "a" in let w1 := fresh "w" in let H1 := fresh "E" in
      apply bind_inr in H; destruct H as (a & w1 & H1 & H)
  | H : (if ?b then _ else _) _ = inr _ |- _ => destruct b eqn:?
  | H : (match ?x with Some _ => _ | None => _ end) _ = inr _ |- _ => destruct x eqn:?
  | H : (match ?x with inl _ => _ | inr _ => _ end) _ = inr _ |- _ => destruct x eqn:?
  | H : (match ?x with [] => _ | _ :: _ => _ end) _ = inr _ |- _ => destruct x eqn:?
  | H : (let (_, _) := ?x in _) _ = inr _ |- _ => destruct x eqn:?
  end.

Ltac mrun := repeat mstep.

Lemma respects_inr {R A} (m : M A) w a w' :
  respects R m -> m w = inr (a, w') -> R w w'.
Proof. intros H E. specialize (H w). rewrite E in H. exact H. Qed.

Lemma respects_inl {R A} (m : M A) w e :
  respects R m -> m w = inl e -> e = TypeError.
Proof. intros H E. specialize (H w). rewrite E in H. exact H. Qed.

Lemma respects_intro {R A} (m : M A) :
  (forall w e, m w = inl e -> e = TypeError) ->
  (forall w a w', m w = inr (a, w') -> R w w') -> respects R m.
Proof.
  intros He Hr w. destruct (m w) as [e | [a w']] eqn:E; [eapply He | eapply Hr]; eauto.
Qed.

Lemma respects_ret {R A} (a : A) : preorder R -> respects R (ret a).
Proof. intros P w. simpl. apply P. Qed.

Lemma respects_throw {R A} : respects R (@throw A TypeError).
Proof. intros w. reflexivity. Qed.

Lemma respects_bind {R A B} (m : M A) (f : A -> M B) :
  preorder R ->
  respects R m -> (forall a, respects R (f a)) -> respects R (bind m f).
Proof.
  intros P Hm Hf w. unfold bind. specialize (Hm w).
  destruct (m w) as [e | [a w1]]; [exact Hm |].
  specialize (Hf a w1). destruct (f a w1) as [e | [b w2]]; [exact Hf |].
  destruct P as [_ T]. eapply T; eassumption.
Qed.

Lemma respects_orElse {R} (a b : M (option Style)) :
  preorder R -> respects R a -> respects R b -> respects R (a ||| b).
Proof.
  intros P Ha Hb. unfold orElse. apply respects_bind; [exact P | exact Ha |].
  intros [s |]; [apply respects_ret; exact P | exact Hb].
Qed.

Lemma respects_get_stream {R} : preorder R -> respects R get_stream.
Proof. intros P w. simpl. apply P. Qed.

Lemma respects_get_state {R} : preorder R -> respects R get_state.
Proof. intros P w. simpl. apply P. Qed.

Lemma respects_read_cell {R} c : preorder R -> respects R (read_cell c).
Proof. intros P w. simpl. apply P. Qed.

(** Compositional proof of [respects R m]; [solver] closes the side
    conditions and the calls of functions already dealt with. *)
Ltac respects_with solver :=
  repeat (intros;
    match goal with
    | |- respects _ (bind _ _) => apply respects_bind; [solve [solver] | |]
    | |- respects _ (ret _) => apply respects_ret; solve [solver]
    | |- respects _ (throw TypeError) => apply respects_throw
    | |- respects _ (_ ||| _) => apply respects_orElse; [solve [solver] | |]
    | |- respects _ get_stream => apply respects_get_stream; solve [solver]
    | |- respects _ get_state => apply respects_get_state; solve [solver]
    | |- respects _ (read_cell _) => apply respects_read_cell; solve [solver]
    | |- respects _ (if ?b then _ else _) => destruct b
    | |- respects _ (match ?x with Some _ => _ | None => _ end) => destruct x
    | |- respects _ (match ?x with inl _ => _ | inr _ => _ end) => destruct x
    | |- respects _ (match ?x with [] => _ | _ :: _ => _ end) => destruct x
    | |- respects _ (let (_, _) := ?x in _) => destruct x
    | |- respects _ _ => solve [solver]
    end).

Ltac prim_unfold :=
  unfold set_stack, set_openMarks, set_marks, set_line, bind, get_state,
    get_stream, set_state, set_stream, new_cell, read_cell, write_cell,
    fresh_uid, ret; simpl.


Lemma any_world_preorder : preorder any_world.
Proof. split; intros; exact I. Qed.

Lemma respects_impl {A} (R R' : World -> World -> Prop) (m : M A) :
  (forall w w', R w w' -> R' w w') -> respects R m -> respects R' m.
Proof.
  intros HR H w. specialize (H w). destruct (m w) as [e | [a w']]; [exact H | auto].
Qed.

Lemma respects_any_world {A} R (m : M A) : respects R m -> respects any_world m.
Proof. apply respects_impl. intros; exact I. Qed.

Lemma bind_inl {A B} (m : M A) (f : A -> M B) w e :
  bind m f w = inl e ->
  m w = inl e \/ exists a w1, m w = inr (a, w1) /\ f a w1 = inl e.
Proof.
  unfold bind. destruct (m w) as [e' | [a w1]]; intros H.
  - left. inversion H. reflexivity.
  - right. exists a, w1. split; [reflexivity | exact H].
Qed.

Lemma item_number_error older k l e : item_number older k l = inl e -> e = TypeError.
Proof.
  induction older as [| m older IH]; simpl; [discriminate |].
  destruct l as [o |]; [| intros H; inversion H; reflexivity].
  destruct (pos_line (from m) <? pos_line (o_from o))%Z; [discriminate |].
  destruct (String.eqb (kind m) k); [| exact IH].
  destruct (negb _); [exact IH | discriminate].
Qed.

(** [blankLine] is [_token] on the empty stream, with the style dropped. *)
Lemma blankLine_inr st h r w' :
  blankLine st h = inr (r, w') ->
  r = None /\ exists r0, _token (mkWorld (StringStream []) st h) = inr (r0, w').
Proof.
  unfold blankLine. destruct (_token _) as [e | [r0 w0]]; [discriminate |].
  intros H. inversion H; subst. split; [reflexivity | exists r0; reflexivity].
Qed.

Lemma blankLine_inl st h e :
  blankLine st h = inl e -> _token (mkWorld (StringStream []) st h) = inl e.
Proof.
  unfold blankLine. destruct (_token _) as [e0 | [r0 w0]]; [| discriminate].
  intros H. inversion H. reflexivity.
Qed.

Lemma blankLine_of_token st h r0 w' :
  _token (mkWorld (StringStream []) st h) = inr (r0, w') -> blankLine st h = inr (None, w').
Proof. unfold blankLine. intros ->. reflexivity. Qed.

(** ** What every matcher does to the stack and to the closed marks *)


Lemma grows_preorder : preorder grows.
Proof.
  split.
  - intros w. split; [exists [] | exists []]; [reflexivity | symmetry; apply app_nil_r].
  - intros a b c [[l1 S1] [n1 M1]] [[l2 S2] [n2 M2]]. split.
    + exists (l2 ++ l1). rewrite S2, S1. apply app_assoc.
    + exists (n1 ++ n2). rewrite M2, M1. symmetry. apply app_assoc.
Qed.

Lemma grows_same w w' :
  stack (state w') = stack (state w) -> marks (state w') = marks (state w) ->
  grows w w'.
Proof.
  intros S Mk. split; [exists [] | exists []]; rewrite ?S, ?Mk;
    [reflexivity | symmetry; apply app_nil_r].
Qed.

Create HintDb grows_db.
#[local] Hint Resolve grows_preorder : grows_db.

Ltac grows_auto := respects_with ltac:(auto with grows_db).

(** Primitives that leave the stack and the marks alone. *)
Ltac grows_prim :=
  intros w; prim_unfold; apply grows_same; reflexivity.

Lemma grows_set_stream s : respects grows (set_stream s).
Proof. grows_prim. Qed.

Lemma grows_new_cell v : respects grows (new_cell v).
Proof. grows_prim. Qed.

Lemma grows_write_cell c v : respects grows (write_cell c v).
Proof. grows_prim. Qed.

Lemma grows_fresh_uid : respects grows fresh_uid.
Proof. grows_prim. Qed.

Lemma grows_set_openMarks f : respects grows (set_openMarks f).
Proof. unfold set_openMarks. grows_prim. Qed.

Lemma grows_push t : respects grows (_push t).
Proof.
  intros w. unfold _push. prim_unfold. split; simpl.
  - exists [t]. reflexivity.
  - exists []. symmetry. apply app_nil_r.
Qed.

#[local] Hint Resolve grows_set_stream grows_new_cell grows_write_cell
  grows_fresh_uid grows_set_openMarks grows_push : grows_db.

Lemma grows_sol : respects grows sol.
Proof. unfold sol. grows_auto. Qed.

Lemma grows_eol : respects grows eol.
Proof. unfold eol. grows_auto. Qed.

Lemma grows_stream_match p c : respects grows (stream_match p c).
Proof. unfold stream_match. grows_auto. Qed.

Lemma grows_stream_next : respects grows stream_next.
Proof. unfold stream_next. grows_auto. Qed.

Lemma grows_stream_skipToEnd : respects grows stream_skipToEnd.
Proof. unfold stream_skipToEnd. grows_auto. Qed.

Lemma grows_stream_skipTo c : respects grows (stream_skipTo c).
Proof. unfold stream_skipTo. grows_auto. Qed.

#[local] Hint Resolve grows_sol grows_eol grows_stream_match grows_stream_next
  grows_stream_skipToEnd grows_stream_skipTo : grows_db.

Lemma grows_stream_eat c : respects grows (stream_eat c).
Proof. unfold stream_eat. grows_auto. Qed.

Lemma grows_startPos : respects grows _startPos.
Proof. unfold _startPos. grows_auto. Qed.

Lemma grows_currentPos : respects grows _currentPos.
Proof. unfold _currentPos. grows_auto. Qed.

Lemma grows_defer d : respects grows (_defer d).
Proof. unfold _defer. grows_auto. Qed.

#[local] Hint Resolve grows_stream_eat grows_startPos grows_currentPos grows_defer
  : grows_db.

Lemma grows_openMark k p : respects grows (_openMark k p).
Proof. unfold _openMark. grows_auto. Qed.

Lemma grows_set_openMarksCount n : respects grows (set_openMarksCount n).
Proof. unfold set_openMarksCount. grows_auto. Qed.

Lemma grows_abandonMark : respects grows _abandonMark.
Proof. unfold _abandonMark. grows_auto. Qed.

Lemma grows_matchBlankLine : respects grows _matchBlankLine.
Proof. unfold _matchBlankLine. grows_auto. Qed.

#[local] Hint Resolve grows_openMark grows_set_openMarksCount grows_abandonMark
  grows_matchBlankLine : grows_db.

Lemma closeMark_inr p w m w' :
  _closeMark p w = inr (m, w') ->
  stack (state w') = stack (state w) /\
  marks (state w') = marks (state w) ++ [m] /\
  openMarks (state w') = tl (openMarks (state w)) /\
  line (state w') = line (state w) /\
  stream w' = stream w /\ heap w' = heap w /\
  exists o, hd_error (openMarks (state w)) = Some o /\
    m = mkMark (o_kind o) (o_from o) (o_contentFrom o) p
               (mkPos (line (state w)) (start (stream w) + (pos (stream w) - start (stream w))))
               (hd_error (tl (openMarks (state w)))) no_properties.
Proof.
  unfold _closeMark, set_openMarks, set_marks, _currentPos. intros H. mrun.
  simpl. rewrite Heql. simpl. repeat split; try reflexivity.
  eexists. split; reflexivity.
Qed.

Lemma set_checkedProperties_inr f w u w' :
  set_checkedProperties f w = inr (u, w') ->
  stack (state w') = stack (state w) /\
  openMarks (state w') = openMarks (state w) /\
  line (state w') = line (state w) /\
  stream w' = stream w /\ heap w' = heap w /\
  forall l m, marks (state w) = l ++ [m] ->
    marks (state w') =
      l ++ [mkMark (kind m) (from m) (contentFrom m) (contentTo m) (to m)
                   (openParent m) (f m)].
Proof.
  unfold set_checkedProperties, set_marks. intros H. mrun. simpl.
  repeat split; try reflexivity.
  intros l m E. rewrite E, rev_unit, rev_involutive. reflexivity.
Qed.

Lemma closeMark_inl p w e : _closeMark p w = inl e -> e = TypeError.
Proof.
  unfold _closeMark. prim_unfold. destruct (openMarks (state w)); simpl; intros H;
    inversion H; reflexivity.
Qed.

Lemma grows_closeMark p : respects grows (_closeMark p).
Proof.
  apply respects_intro; [apply closeMark_inl |].
  intros w m w' H. apply closeMark_inr in H. destruct H as (S & Mk & _).
  split; [exists []; rewrite S; reflexivity | exists [m]; exact Mk].
Qed.

Lemma any_set_checkedProperties f : respects any_world (set_checkedProperties f).
Proof. intros w. unfold set_checkedProperties. prim_unfold. exact I. Qed.

#[local] Hint Resolve grows_closeMark : grows_db.

(** [_closeMark] followed by the assignments to the new mark's
    [checkedProperties]. *)
Lemma grows_close_and_set {A} p (g : Mark -> M A) f :
  (forall m, respects grows (g m)) ->
  respects grows (m <- _closeMark p ;; x <- g m ;; set_checkedProperties (f m x)).
Proof.
  intros Hg. apply respects_intro.
  - intros w e H. eapply (respects_inl (R := any_world) w); [| exact H]. clear H.
    respects_with ltac:(eauto using any_world_preorder, respects_any_world,
                          grows_closeMark, any_set_checkedProperties).
  - intros w u w' H.
    apply bind_inr in H. destruct H as (m & w1 & H1 & H).
    apply bind_inr in H. destruct H as (x & w2 & H2 & H3).
    apply closeMark_inr in H1. destruct H1 as (S1 & M1 & _).
    destruct (respects_inr _ (Hg _) H2) as [[l S2] [n M2]].
    apply set_checkedProperties_inr in H3. destruct H3 as (S3 & _ & _ & _ & _ & M3).
    split.
    + exists l. rewrite S3, S2, S1. reflexivity.
    + rewrite M1 in M2.
      destruct n as [| y n _] using rev_ind.
      * rewrite app_nil_r in M2. rewrite (M3 _ _ M2). eexists. reflexivity.
      * rewrite app_assoc in M2. rewrite (M3 _ _ M2).
        rewrite <- !app_assoc. eexists. reflexivity.
Qed.

Lemma grows_run_callback cb : respects grows (run_callback cb).
Proof.
  destruct cb as [| e p | e p |]; simpl.
  - grows_auto.
  - grows_auto.
  - destruct (env_kind e); [| grows_auto]. destruct p; [| grows_auto].
    apply (grows_close_and_set p (fun _ => get_state)
             (fun closedMark st m =>
                let c := checkedProperties m in
                mkChecked (cp_kind c) (cp_number c)
                  (Some (Z.of_nat (List.length (openMarks st))))
                  (Some (pos_line (from closedMark)))
                  (Some (pos_line (to closedMark))))).
    grows_auto.
  - grows_auto.
Qed.

#[local] Hint Resolve grows_run_callback : grows_db.

Lemma grows_matchNext c sq cb : respects grows (_matchNext c sq cb).
Proof. unfold _matchNext. grows_auto. Qed.

#[local] Hint Resolve grows_matchNext : grows_db.

Lemma grows_matchSequence sq cb : respects grows (_matchSequence sq cb).
Proof. unfold _matchSequence. grows_auto. Qed.

#[local] Hint Resolve grows_matchSequence : grows_db.

Lemma grows_matchAndMark k p o os c cs ab im :
  respects grows (_matchAndMark k p o os c cs ab im).
Proof. unfold _matchAndMark. grows_auto. Qed.

Lemma grows_matchArgument o os c cs im : respects grows (_matchArgument o os c cs im).
Proof. unfold _matchArgument. grows_auto. Qed.

Lemma grows_matchGroup im : respects grows (_matchGroup im).
Proof. unfold _matchGroup. grows_auto. Qed.

Lemma grows_matchLineComment : respects grows _matchLineComment.
Proof. unfold _matchLineComment. grows_auto. Qed.

Lemma grows_matchTitleCommand : respects grows _matchTitleCommand.
Proof. unfold _matchTitleCommand. grows_auto. Qed.

Lemma grows_matchCommandWithArgument c : respects grows (_matchCommandWithArgument c).
Proof. unfold _matchCommandWithArgument. grows_auto. Qed.

#[local] Hint Resolve grows_matchAndMark grows_matchArgument grows_matchGroup
  grows_matchLineComment grows_matchTitleCommand grows_matchCommandWithArgument
  : grows_db.

Lemma grows_matchBibCommand : respects grows _matchBibCommand.
Proof. unfold _matchBibCommand, _bibCommands. simpl. grows_auto. Qed.

Lemma grows_matchItemCommand : respects grows _matchItemCommand.
Proof.
  unfold _matchItemCommand. apply respects_bind; [auto with grows_db | auto with grows_db |].
  intros s. apply respects_bind; [auto with grows_db | grows_auto |].
  intros [|]; [| grows_auto].
  apply respects_bind; [auto with grows_db | grows_auto |]. intros st.
  cbv zeta.
  apply respects_bind; [auto with grows_db | grows_auto |]. intros sp.
  apply respects_bind; [auto with grows_db | grows_auto |]. intros o.
  apply respects_bind; [auto with grows_db | grows_auto |]. intros cur.
  apply respects_intro.
  - intros w e H. eapply (respects_inl (R := any_world) w); [| exact H]. clear H.
    apply respects_bind;
      [apply any_world_preorder |
       apply respects_any_world with (R := grows); apply grows_closeMark |].
    intros m. apply respects_bind;
      [apply any_world_preorder | apply respects_get_state, any_world_preorder |].
    intros st'. destruct (item_number _ _ _) as [e' | n] eqn:E.
    + apply item_number_error in E. subst e'. apply respects_throw.
    + respects_with ltac:(eauto using any_world_preorder, any_set_checkedProperties).
  - intros w r w' H. mrun.
    match goal with
    | H : _closeMark _ _ = inr _ |- _ =>
        apply closeMark_inr in H; destruct H as (S & Mk & _)
    end.
    match goal with
    | H : set_checkedProperties _ _ = inr _ |- _ =>
        apply set_checkedProperties_inr in H;
        destruct H as (S' & _ & _ & _ & _ & Mk')
    end.
    split.
    + exists []. rewrite S', S. reflexivity.
    + rewrite (Mk' _ _ Mk). eexists. reflexivity.
Qed.

Lemma grows_matchVerbCommand : respects grows _matchVerbCommand.
Proof. unfold _matchVerbCommand. grows_auto. Qed.

Lemma grows_matchVerbatimEnvironment : respects grows _matchVerbatimEnvironment.
Proof. unfold _matchVerbatimEnvironment. grows_auto. Qed.

Lemma grows_matchCommentEnvironment : respects grows _matchCommentEnvironment.
Proof. unfold _matchCommentEnvironment. grows_auto. Qed.

#[local] Hint Resolve grows_matchBibCommand grows_matchItemCommand
  grows_matchVerbCommand grows_matchVerbatimEnvironment
  grows_matchCommentEnvironment : grows_db.

Lemma grows_begin_environment e : respects grows (begin_environment e).
Proof. unfold begin_environment, _matchBeginEnvironmentSequence. grows_auto. Qed.

#[local] Hint Resolve grows_begin_environment : grows_db.

Lemma grows_matchEnvironments envs : respects grows (_matchEnvironments envs).
Proof.
  unfold _matchEnvironments. induction envs as [| e envs IH]; simpl; grows_auto.
Qed.

Lemma grows_matchCommand p k : respects grows (_matchCommand p k).
Proof. unfold _matchCommand. grows_auto. Qed.

Lemma grows_matchOtherEnvironmentBeginOrEnd : respects grows _matchOtherEnvironmentBeginOrEnd.
Proof.
  unfold _matchOtherEnvironmentBeginOrEnd, _matchBeginEnvironmentSequence,
    _matchEndEnvironmentSequence. grows_auto.
Qed.

Lemma grows_matchOtherCommand : respects grows _matchOtherCommand.
Proof. unfold _matchOtherCommand. grows_auto. Qed.

#[local] Hint Resolve grows_matchEnvironments grows_matchCommand
  grows_matchOtherEnvironmentBeginOrEnd grows_matchOtherCommand : grows_db.

Lemma grows_matchSectioningCommand : respects grows _matchSectioningCommand.
Proof. unfold _matchSectioningCommand. grows_auto. Qed.

Lemma grows_matchDollarDollarMath : respects grows _matchDollarDollarMath.
Proof. unfold _matchDollarDollarMath. grows_auto. Qed.

Lemma grows_matchDollarMath : respects grows _matchDollarMath.
Proof. unfold _matchDollarMath. grows_auto. Qed.

Lemma grows_matchBracketMath : respects grows _matchBracketMath.
Proof. unfold _matchBracketMath. grows_auto. Qed.

Lemma grows_matchParenMath : respects grows _matchParenMath.
Proof. unfold _matchParenMath. grows_auto. Qed.

Lemma grows_matchEndDocument : respects grows _matchEndDocument.
Proof. unfold _matchEndDocument, _matchEndEnvironmentSequence. grows_auto. Qed.

Lemma grows_matchOther : respects grows _matchOther.
Proof. unfold _matchOther. grows_auto. Qed.

Lemma grows_matchOtherMath : respects grows _matchOtherMath.
Proof. unfold _matchOtherMath. grows_auto. Qed.

#[local] Hint Resolve grows_matchSectioningCommand grows_matchDollarDollarMath
  grows_matchDollarMath grows_matchBracketMath grows_matchParenMath
  grows_matchEndDocument grows_matchOther grows_matchOtherMath : grows_db.

Lemma grows_matchMath : respects grows _matchMath.
Proof. unfold _matchMath. grows_auto. Qed.

Lemma grows_matchText : respects grows _matchText.
Proof. unfold _matchText. grows_auto. Qed.

#[local] Hint Resolve grows_matchMath grows_matchText : grows_db.

Lemma grows_matchIncludeGraphics : respects grows _matchIncludeGraphics.
Proof. unfold _matchIncludeGraphics. grows_auto. Qed.

#[local] Hint Resolve grows_matchIncludeGraphics : grows_db.

Lemma grows_matchTikZ : respects grows _matchTikZ.
Proof. unfold _matchTikZ. grows_auto. Qed.

Lemma grows_matchFigureContent : respects grows _matchFigureContent.
Proof. unfold _matchFigureContent. grows_auto. Qed.

Lemma grows_matchListContent : respects grows _matchListContent.
Proof. unfold _matchListContent. grows_auto. Qed.

Lemma grows_topLevel : respects grows _topLevel.
Proof. unfold _topLevel. grows_auto. Qed.

#[local] Hint Resolve grows_matchTikZ grows_matchFigureContent
  grows_matchListContent grows_topLevel : grows_db.

Lemma grows_inner_mode im : respects grows (inner_mode im).
Proof. destruct im; simpl; auto with grows_db. Qed.

Lemma grows_env_tokenizer t : respects grows (env_tokenizer t).
Proof. destruct t; simpl; auto with grows_db. Qed.

Lemma grows_deferred_call d : respects grows (deferred_call d).
Proof.
  destruct d; simpl; unfold _matchAndMarkRequiredArgument,
    _matchAndMarkOptionalArgument, _matchOptionalArgument; auto with grows_db.
Qed.

Lemma grows_lookahead_any ab : respects grows (lookahead_any ab).
Proof. induction ab; simpl; grows_auto. Qed.

#[local] Hint Resolve grows_inner_mode grows_env_tokenizer grows_deferred_call
  grows_lookahead_any : grows_db.


Lemma keeps_preorder : preorder keeps.
Proof.
  split.
  - intros w. split; [reflexivity | exists []; symmetry; apply app_nil_r].
  - intros a b c [S1 [n1 M1]] [S2 [n2 M2]]. split.
    + rewrite S2, S1. reflexivity.
    + exists (n1 ++ n2). rewrite M2, M1. symmetry. apply app_assoc.
Qed.

Lemma keeps_same w w' :
  stack (state w') = stack (state w) -> marks (state w') = marks (state w) ->
  keeps w w'.
Proof.
  intros S Mk. split; [exact S | exists []; rewrite Mk; symmetry; apply app_nil_r].
Qed.

Create HintDb keeps_db.
#[local] Hint Resolve keeps_preorder : keeps_db.

Ltac keeps_auto := respects_with ltac:(auto with keeps_db).
Ltac keeps_prim := intros w; prim_unfold; apply keeps_same; reflexivity.

Lemma keeps_set_stream s : respects keeps (set_stream s).
Proof. keeps_prim. Qed.

Lemma keeps_set_openMarks f : respects keeps (set_openMarks f).
Proof. unfold set_openMarks. keeps_prim. Qed.

#[local] Hint Resolve keeps_set_stream keeps_set_openMarks : keeps_db.

Lemma keeps_sol : respects keeps sol.
Proof. unfold sol. keeps_auto. Qed.

Lemma keeps_eol : respects keeps eol.
Proof. unfold eol. keeps_auto. Qed.

Lemma keeps_stream_match p c : respects keeps (stream_match p c).
Proof. unfold stream_match. keeps_auto. Qed.

Lemma keeps_stream_skipToEnd : respects keeps stream_skipToEnd.
Proof. unfold stream_skipToEnd. keeps_auto. Qed.

Lemma keeps_stream_skipTo c : respects keeps (stream_skipTo c).
Proof. unfold stream_skipTo. keeps_auto. Qed.

Lemma keeps_startPos : respects keeps _startPos.
Proof. unfold _startPos. keeps_auto. Qed.

#[local] Hint Resolve keeps_sol keeps_eol keeps_stream_match keeps_stream_skipToEnd
  keeps_stream_skipTo keeps_startPos : keeps_db.

Lemma keeps_stream_eat c : respects keeps (stream_eat c).
Proof. unfold stream_eat. keeps_auto. Qed.

Lemma keeps_matchBlankLine : respects keeps _matchBlankLine.
Proof. unfold _matchBlankLine. keeps_auto. Qed.

Lemma keeps_abandonMark : respects keeps _abandonMark.
Proof. unfold _abandonMark. keeps_auto. Qed.

Lemma keeps_lookahead_any ab : respects keeps (lookahead_any ab).
Proof. induction ab; simpl; keeps_auto. Qed.

Lemma keeps_closeMark p : respects keeps (_closeMark p).
Proof.
  apply respects_intro; [apply closeMark_inl |].
  intros w m w' H. apply closeMark_inr in H. destruct H as (S & Mk & _).
  split; [exact S | exists [m]; exact Mk].
Qed.

Lemma keeps_matchLineComment : respects keeps _matchLineComment.
Proof. unfold _matchLineComment. keeps_auto. Qed.

Lemma keeps_set_line f : respects keeps (set_line f).
Proof. unfold set_line. keeps_prim. Qed.

#[local] Hint Resolve keeps_stream_eat keeps_matchBlankLine keeps_abandonMark
  keeps_lookahead_any keeps_closeMark keeps_matchLineComment keeps_set_line
  : keeps_db.

Lemma pop_inr w u w' :
  _pop w = inr (u, w') ->
  stack (state w') = tl (stack (state w)) /\
  marks (state w') = marks (state w) /\
  openMarks (state w') = openMarks (state w) /\
  line (state w') = line (state w) /\
  stream w' = stream w /\ heap w' = heap w.
Proof.
  unfold _pop, set_stack. intros H. mrun. simpl. repeat split; reflexivity.
Qed.

(** Replace the executions in the context by what they do to the stack and
    to the marks. *)
Ltac summarize :=
  repeat match goal with
  | H : _pop ?w = inr (_, ?w') |- _ =>
      apply pop_inr in H; destruct H as (? & ? & _)
  | H : ?m ?w = inr (?a, ?w') |- _ =>
      let K := fresh "K" in
      assert (K : keeps w w')
        by (apply (fun (p : respects keeps m) => respects_inr w p H); auto with keeps_db);
      clear H
  | H : ?m ?w = inr (?a, ?w') |- _ =>
      let K := fresh "K" in
      assert (K : grows w w')
        by (apply (fun (p : respects grows m) => respects_inr w p H); auto with grows_db);
      clear H
  end.


Lemma grows_matchBeginEnvironmentSequence cb :
  respects grows (_matchBeginEnvironmentSequence cb).
Proof. apply grows_matchSequence. Qed.

Lemma grows_matchEndEnvironmentSequence cb :
  respects grows (_matchEndEnvironmentSequence cb).
Proof. apply grows_matchSequence. Qed.

#[local] Hint Resolve grows_matchBeginEnvironmentSequence
  grows_matchEndEnvironmentSequence : grows_db.

(** ** What a call does to the stack *)


Lemma anchored_tl t below :
  anchored (t :: below) -> t <> TopLevel -> anchored below.
Proof.
  intros [l E] Ht. destruct l as [| x l]; simpl in E.
  - inversion E. contradiction.
  - inversion E. exists l. reflexivity.
Qed.

Lemma anchored_app l stk : anchored stk -> anchored (l ++ stk).
Proof. intros [l0 E]. exists (l ++ l0). rewrite E. apply app_assoc. Qed.


Ltac stack_eq :=
  repeat match goal with
  | H : stack (state ?w) = _ |- context [stack (state ?w)] => rewrite H
  end; simpl; try reflexivity.

Ltac finish_call :=
  unfold keeps, grows, call_result in *;
  repeat match goal with
  | H : _ /\ _ |- _ => destruct H
  | H : exists _, _ |- _ => destruct H
  end;
  split;
  [ stack_eq; eauto using anchored_app, anchored_tl
  | repeat match goal with
    | H : marks (state ?w) = _ |- context [marks (state ?w)] => rewrite H
    end;
    rewrite <- ?app_assoc; eexists; reflexivity ].

Lemma run_tokenizer_result t below k w r w' :
  stack (state w) = t :: below -> anchored (t :: below) ->
  (forall w1 r1 w2, stack (state w1) = below -> t <> TopLevel ->
     k w1 = inr (r1, w2) -> call_result w1 w2) ->
  run_tokenizer t (_pop ;; k) w = inr (r, w') -> call_result w w'.
Proof.
  intros S A Hk H.
  assert (A' : t <> TopLevel -> anchored below) by (apply anchored_tl; exact A).
  destruct t; unfold run_tokenizer in H; mrun; summarize;
    try (eapply Hk in H; [| unfold keeps in *; 
           repeat match goal with H : _ /\ _ |- _ => destruct H end; stack_eq
         | discriminate ]);
    try specialize (A' ltac:(discriminate));
    finish_call.
Qed.

Lemma call_top_result stk : forall fault w r w',
  stack (state w) = stk -> anchored stk ->
  call_top fault stk w = inr (r, w') -> call_result w w'.
Proof.
  induction stk as [| t below IH]; intros fault w r w' S A H; simpl in H.
  - discriminate.
  - eapply run_tokenizer_result; [exact S | exact A | | exact H].
    intros w1 r1 w2 S1 Ht H1. eapply IH; [exact S1 | | exact H1].
    eapply anchored_tl; eassumption.
Qed.

(** [_token] as a whole. *)
Lemma token_result w r w' :
  anchored (stack (state w)) -> _token w = inr (r, w') -> call_result w w'.
Proof.
  intros A H. unfold _token, _startNewLine in H. mrun; summarize;
    try match goal with
    | H : call_top _ _ _ = inr _ |- _ =>
        eapply call_top_result in H;
          [| reflexivity
           | unfold keeps in *;
             repeat match goal with H : _ /\ _ |- _ => destruct H end;
             stack_eq; assumption ]
    end;
    unfold keeps, call_result in *;
    repeat match goal with
    | H : _ /\ _ |- _ => destruct H
    | H : exists _, _ |- _ => destruct H
    end;
    (split;
     [ stack_eq; assumption
     | repeat match goal with
       | H : marks (state ?w) = _ |- context [marks (state ?w)] => rewrite H
       end; rewrite <- ?app_assoc; eexists; reflexivity ]).
Qed.

(** Failures. *)
Lemma any_pop : respects any_world _pop.
Proof. intros w. unfold _pop. prim_unfold. exact I. Qed.

Ltac any_solver :=
  first [ exact any_world_preorder | assumption | apply any_pop
        | (apply respects_any_world with (R := grows); solve [auto with grows_db])
        | (apply respects_any_world with (R := keeps); solve [auto with keeps_db]) ].

Lemma any_run_tokenizer t k :
  respects any_world k -> respects any_world (run_tokenizer t k).
Proof. intros Hk. destruct t; simpl; respects_with any_solver. Qed.

Lemma any_call_top stk : respects any_world (call_top TypeError stk).
Proof.
  induction stk as [| t below IH]; simpl.
  - apply respects_throw.
  - apply any_run_tokenizer. respects_with any_solver.
Qed.

Lemma call_top_EmptyStack fault stk w :
  call_top fault stk w = inl EmptyStack -> stk = [].
Proof.
  destruct stk as [| t below]; [reflexivity |]. simpl. intros H. exfalso.
  apply (respects_inl (R := any_world) w) in H; [discriminate |].
  apply any_run_tokenizer. respects_with ltac:(first [apply any_call_top | any_solver]).
Qed.

Ltac inl_step :=
  match goal with
  | H : bind ?m ?f ?w = inl EmptyStack |- _ =>
      let a := fresh "a" in let w1 := fresh "w" in let H1 := fresh "E" in
      apply bind_inl in H; destruct H as [H | (a & w1 & H1 & H)];
      [ exfalso; apply (respects_inl (R := any_world) w) in H;
        [discriminate | solve [respects_with any_solver] ] | ]
  end.

Lemma token_EmptyStack w : _token w = inl EmptyStack -> stack (state w) = [].
Proof.
  unfold _token, _startNewLine. intros H.
  inl_step. inl_step. inl_step.
  apply bind_inl in H. destruct H as [H | (r & w3 & H3 & H)].
  - destruct a1 as [s |]; [discriminate |].
    apply bind_inl in H. destruct H as [H | (st & w4 & H4 & H)]; [discriminate |].
    inversion H4; subst. apply call_top_EmptyStack in H.
    mrun; summarize; unfold keeps in *;
    repeat match goal with H : _ /\ _ |- _ => destruct H end;
    congruence.
  - exfalso. repeat inl_step. discriminate.
Qed.

(** ** The stack never empties *)

(** C7.  In every state reached from [startState] by calls of [token] and
    [blankLine], on any streams, the stack ends with the top-level
    tokenizer, which no call pops, and no call fails with 'empty stack'. *)
Theorem stack_never_empties st h :
  Called st h ->
  (exists above, stack st = above ++ [TopLevel]) /\
  (forall s, token s st h <> inl EmptyStack) /\
  blankLine st h <> inl EmptyStack.
Proof.
  intros C.
  assert (A : anchored (stack st)).
  { induction C as [| s st h r w' C IH H].
    - exists []. reflexivity.
    - apply token_result in H; [apply H | exact IH]. }
  split; [exact A |].
  assert (N : forall s, token s st h <> inl EmptyStack).
  { intros s H. apply token_EmptyStack in H. simpl in H.
    destruct A as [l E]. rewrite H in E. destruct l; discriminate. }
  split; [exact N |]. intros H. apply blankLine_inl in H.
  exact (N (StringStream []) H).
Qed.

Lemma stack_never_empties_witness :
  (exists above, stack startState = above ++ [TopLevel]) /\
  (forall s, token s startState empty_heap <> inl EmptyStack) /\
  blankLine startState empty_heap <> inl EmptyStack.
Proof. apply stack_never_empties. exact called_start. Defined.

(** ** The closed marks are append-only *)


Lemma marks_extended_preorder : preorder marks_extended.
Proof.
  split.
  - intros w. exists []. symmetry. apply app_nil_r.
  - intros a b c [n1 M1] [n2 M2]. exists (n1 ++ n2).
    rewrite M2, M1. symmetry. apply app_assoc.
Qed.

Lemma marks_extended_pop : respects marks_extended _pop.
Proof.
  intros w. unfold _pop. prim_unfold. exists []. simpl. symmetry. apply app_nil_r.
Qed.

Ltac marks_solver :=
  first [ exact marks_extended_preorder | assumption | apply marks_extended_pop
        | (apply respects_impl with (R := grows);
           [intros ? ? K; apply K | solve [auto with grows_db]])
        | (apply respects_impl with (R := keeps);
           [intros ? ? K; apply K | solve [auto with keeps_db]]) ].

Lemma marks_extended_run_tokenizer t k :
  respects marks_extended k -> respects marks_extended (run_tokenizer t k).
Proof. intros Hk. destruct t; simpl; respects_with marks_solver. Qed.

Lemma marks_extended_call_top stk : respects marks_extended (call_top TypeError stk).
Proof.
  induction stk as [| t below IH]; simpl.
  - apply respects_throw.
  - apply marks_extended_run_tokenizer. respects_with marks_solver.
Qed.

Lemma marks_extended_token w r w' :
  _token w = inr (r, w') -> marks_extended w w'.
Proof.
  intros H. unfold _token, _startNewLine in H. mrun;
    try match goal with
    | H : call_top _ ?stk _ = inr _ |- _ =>
        destruct stk as [| t below]; [discriminate H |]; simpl in H;
        apply (respects_inr (R := marks_extended)) in H;
        [| apply marks_extended_run_tokenizer;
           respects_with ltac:(first [apply marks_extended_call_top | marks_solver])]
    end;
    summarize; unfold keeps, marks_extended in *;
    repeat match goal with
    | H : _ /\ _ |- _ => destruct H
    | H : exists _, _ |- _ => destruct H
    end;
    repeat match goal with
    | H : marks (state ?w) = _ |- context [marks (state ?w)] => rewrite H
    end; rewrite <- ?app_assoc; eexists; reflexivity.
Qed.

(** C10.  Every call of [token] or [blankLine], in any state, leaves the
    closed marks it found as a prefix of the closed marks it leaves, and
    abandoning a mark removes the top of [openMarks] and nothing else. *)
Theorem marks_append_only :
  (forall s st h r w', token s st h = inr (r, w') ->
     exists new, marks (state w') = marks st ++ new) /\
  (forall st h r w', blankLine st h = inr (r, w') ->
     exists new, marks (state w') = marks st ++ new) /\
  (forall w, exists w', _abandonMark w = inr (tt, w') /\
     marks (state w') = marks (state w) /\
     openMarks (state w') = tl (openMarks (state w)) /\
     stack (state w') = stack (state w)).
Proof.
  split; [| split].
  - intros s st h r w' H. apply marks_extended_token in H. exact H.
  - intros st h r w' H. apply blankLine_inr in H. destruct H as (_ & r0 & H).
    apply marks_extended_token in H. exact H.
  - intros w. eexists. split; [reflexivity |]. simpl. repeat split.
Qed.

(** ** Blank lines *)


Lemma blankLine_unfold stk l os ms h :
  blankLine (mkState stk l os ms) h =
  match call_top EmptyStack stk (blank_world (mkState stk (l + 1) os ms) h) with
  | inl e => inl e
  | inr (r, w') =>
      match (s <- sol ;; e <- eol ;;
             (if s && negb e then set_line (fun l => (l - 1)%Z) else ret tt) ;;
             ret r) w'
      with
      | inl e => inl e
      | inr (_, w) => inr (None, w)
      end
  end.
Proof.
  unfold blankLine.
  change (_token (mkWorld (StringStream []) (mkState stk l os ms) h)) with
    (match call_top EmptyStack stk (blank_world (mkState stk (l + 1) os ms) h) with
     | inl e => inl e
     | inr (r, w') =>
         (s <- sol ;; e <- eol ;;
          (if s && negb e then set_line (fun l => (l - 1)%Z) else ret tt) ;;
          ret r) w'
     end).
  destruct (call_top EmptyStack stk (blank_world (mkState stk (l + 1) os ms) h))
    as [e | [r w']]; reflexivity.
Qed.

(** ** The beginning of an environment *)


(** ** The invariant *)

Arguments all_environments : simpl never.

Ltac pos_solve := unfold pos_le, pos_lt in *; simpl in *; lia.

Lemma pos_le_refl p : pos_le p p.
Proof. pos_solve. Qed.

Lemma pos_le_trans p q r : pos_le p q -> pos_le q r -> pos_le p r.
Proof. pos_solve. Qed.

Lemma pos_lt_le p q : pos_lt p q -> pos_le p q.
Proof. pos_solve. Qed.

Lemma pos_lt_le_trans p q r : pos_lt p q -> pos_le q r -> pos_lt p r.
Proof. pos_solve. Qed.

Lemma pos_le_lt_trans p q r : pos_le p q -> pos_lt q r -> pos_lt p r.
Proof. pos_solve. Qed.

Lemma pos_le_same_line L a b : a <= b -> pos_le (mkPos L a) (mkPos L b).
Proof. pos_solve. Qed.

Lemma ascending_snoc l x :
  ascending l -> (forall y, In y l -> pos_le y x) -> ascending (l ++ [x]).
Proof.
  induction l as [| a l IH]; simpl; intros A H.
  - split; [intros q [] | exact I].
  - destruct A as [A1 A2]. split.
    + intros q Hq. apply in_app_or in Hq. destruct Hq as [Hq | [<- | []]]; auto.
    + apply IH; auto.
Qed.

Lemma marks_ok_mono b b' mks : pos_le b b' -> marks_ok b mks -> marks_ok b' mks.
Proof.
  intros Hb (G & A1 & A2 & B). repeat split; try assumption.
  eapply Forall_impl; [| exact B]. intros m Hm. simpl in Hm. pos_solve.
Qed.

(** A mark closed now, whose content ends at or after [q], which bounds
    the marks closed before. *)
Lemma marks_ok_snoc b b' q mks m :
  marks_ok b mks -> Forall (fun m' => pos_le (to m') q) mks ->
  good_mark m -> pos_le q (contentTo m) -> pos_le (to m) b' -> pos_le b b' ->
  marks_ok b' (mks ++ [m]).
Proof.
  intros (G & A1 & A2 & B) Q Gm Hq Hto Hb.
  assert (Gm' := Gm). destruct Gm' as (_ & _ & _ & Hct & _).
  rewrite Forall_forall in Q, G, B.
  repeat split.
  - apply Forall_app. split; [apply Forall_forall; exact G | constructor; [exact Gm | constructor]].
  - rewrite map_app. simpl. apply ascending_snoc; [exact A1 |].
    intros y Hy. apply in_map_iff in Hy. destruct Hy as (m' & <- & Hm').
    specialize (Q _ Hm'). pos_solve.
  - rewrite map_app. simpl. apply ascending_snoc; [exact A2 |].
    intros y Hy. apply in_map_iff in Hy. destruct Hy as (m' & <- & Hm').
    specialize (Q _ Hm'). destruct (G _ Hm') as (_ & _ & _ & Hct' & _). pos_solve.
  - apply Forall_app. split.
    + apply Forall_forall. intros m' Hm'. specialize (B _ Hm'). pos_solve.
    + constructor; [exact Hto | constructor].
Qed.

Lemma good_open_mono b b' o : pos_le b b' -> good_open b o -> good_open b' o.
Proof. intros Hb [H1 H2]. split; [exact H1 | eapply pos_le_trans; eassumption]. Qed.

Lemma captured_mono b b' opens p : pos_le b b' -> captured b opens p -> captured b' opens p.
Proof. intros Hb [H1 H2]. split; [eapply pos_le_trans; eassumption | exact H2]. Qed.

Lemma sync_mono b b' stk : forall opens,
  pos_le b b' -> sync b stk opens -> sync b' stk opens.
Proof.
  induction stk as [| t below IH]; intros opens Hb H; [exact H |].
  destruct t as [| d | | | | | e |]; simpl in *; auto.
  - destruct d as [c sq cb | k p | k p |]; simpl in *;
      try (destruct H; split; eauto using captured_mono; fail); auto.
    destruct cb as [| e mp | e cp |]; simpl in *; auto.
    + destruct H as (He & Hm & Hs). repeat split; auto.
      destruct mp; [destruct Hm; split; eauto using captured_mono | exact Hm].
    + destruct H as (He & H). split; [exact He |].
      destruct cp as [p |].
      * destruct H as (Hm & o & os & -> & Ha & (H1 & H2) & Hs).
        split; [exact Hm |]. exists o, os. repeat split; eauto using pos_le_trans.
      * destruct H; split; auto.
  - destruct H as (o & os & -> & Ha & _ & Hs). exists o, os. repeat split; auto.
  - destruct H as (He & H). split; [exact He |].
    destruct (is_marked e); auto.
    destruct H as (o & os & -> & Ha & Hk & Hs). exists o, os. repeat split; auto.
Qed.

Lemma Forall_good_open_mono b b' opens :
  pos_le b b' -> Forall (good_open b) opens -> Forall (good_open b') opens.
Proof. intros Hb. apply Forall_impl. intros o. apply good_open_mono. exact Hb. Qed.

Lemma captured_at_bound b opens :
  Forall (good_open b) opens -> captured b opens b.
Proof.
  intros H. split; [apply pos_le_refl |]. rewrite Forall_forall in H.
  intros o Ho. destruct (H _ Ho). pos_solve.
Qed.

Ltac good_split := split; [| split; [| split; [| split; [| split]]]].

Lemma good_mono b b' st hp : pos_le b b' -> good b st hp -> good b' st hp.
Proof.
  intros Hb (Hm & Ho & Hs & Hh & Hc & Hu).
  good_split; eauto using marks_ok_mono, Forall_good_open_mono, sync_mono.
Qed.

Lemma heap_ok_tl t stk hp : heap_ok (t :: stk) hp -> heap_ok stk hp.
Proof.
  intros [N H]. destruct t as [| d | | | | | |]; try (split; assumption).
  destruct d; try (split; assumption). simpl in *. inversion N; subst.
  split; [assumption |]. intros c' Hc. apply H. right. exact Hc.
Qed.

Lemma children_ok_snoc os ms m :
  children_ok os ms -> (forall o, In o os -> pos_le (o_from o) (from m)) ->
  children_ok os (ms ++ [m]).
Proof.
  intros C H o l1 m1 l2 Ho E P m2 Hm2.
  destruct l2 as [| x l2 _] using rev_ind.
  - apply app_inj_tail in E. destruct E as [_ <-].
    destruct Hm2 as [<- | []]. apply H. exact Ho.
  - change (l1 ++ m1 :: l2 ++ [x]) with (l1 ++ (m1 :: l2) ++ [x]) in E.
    rewrite app_assoc in E. apply app_inj_tail in E. destruct E as [E <-].
    change (m1 :: l2 ++ [m]) with ((m1 :: l2) ++ [m]) in Hm2.
    apply in_app_or in Hm2. destruct Hm2 as [Hm2 | [<- | []]].
    + eapply C; eauto.
    + apply H. exact Ho.
Qed.

Lemma children_ok_tl o os ms : children_ok (o :: os) ms -> children_ok os ms.
Proof. intros C o' l1 m l2 Ho. apply C. right. exact Ho. Qed.

Lemma children_ok_open o os ms hp :
  uid_ok os ms hp -> uid o = next_uid hp ->
  children_ok os ms -> children_ok (o :: os) ms.
Proof.
  intros [_ U] Eu C o' l1 m l2 [<- | Ho] E P m2 Hm2.
  - exfalso. unfold same_object in P. destruct (openParent m) as [p |] eqn:Ep; [| discriminate].
    apply Nat.eqb_eq in P. assert (Hin : In m ms) by (rewrite E; apply in_elt).
    specialize (U _ _ Hin Ep). lia.
  - eapply C; eauto.
Qed.

Lemma uid_ok_open o os ms hp :
  uid o = next_uid hp -> uid_ok os ms hp ->
  uid_ok (o :: os) ms (mkHeap (cells hp) (S (next_uid hp))).
Proof.
  intros Eu [U1 U2]. split; simpl.
  - intros o' [<- | Ho]; [lia | specialize (U1 _ Ho); lia].
  - intros m p Hm Ep. specialize (U2 _ _ Hm Ep). lia.
Qed.

Lemma uid_ok_tl o os ms hp : uid_ok (o :: os) ms hp -> uid_ok os ms hp.
Proof. intros [U1 U2]. split; [intros o' Ho; apply U1; right; exact Ho | exact U2]. Qed.

Lemma uid_ok_snoc os ms m hp :
  uid_ok os ms hp -> openParent m = hd_error os -> uid_ok os (ms ++ [m]) hp.
Proof.
  intros [U1 U2] Ep. split; [exact U1 |].
  intros m' p Hm' Ep'. apply in_app_or in Hm'. destruct Hm' as [Hm' | [<- | []]].
  - eapply U2; eauto.
  - rewrite Ep in Ep'. destruct os as [| o os]; [discriminate |]. inversion Ep'; subst.
    apply U1. left. reflexivity.
Qed.

Lemma uid_ok_heap os ms c u : uid_ok os ms (mkHeap c u) -> forall c', uid_ok os ms (mkHeap c' u).
Proof. intros U c'. exact U. Qed.

Lemma uid_ok_more os ms c u : uid_ok os ms (mkHeap c u) -> uid_ok os ms (mkHeap c (S u)).
Proof.
  intros [U1 U2]. split; simpl in *.
  - intros o Ho. specialize (U1 _ Ho). lia.
  - intros m p Hm Ep. specialize (U2 _ _ Hm Ep). lia.
Qed.

Lemma no_end_sequence_cons t stk :
  is_end_sequence t = false -> no_end_sequence stk -> no_end_sequence (t :: stk).
Proof. unfold no_end_sequence. simpl. intros -> H. exact H. Qed.

Lemma no_end_sequence_tl t stk : no_end_sequence (t :: stk) -> no_end_sequence stk.
Proof. unfold no_end_sequence. simpl. intros H. apply orb_false_elim in H. apply H. Qed.

(** [consume] *)
Lemma during_consume L p0 w n st hp :
  during L p0 w -> line st = L ->
  during L p0 (mkWorld (consume (stream w) n) st hp).
Proof. intros (H1 & H2 & H3) E. repeat split; simpl; [exact E | exact H2 | lia]. Qed.

Ltac inv_split :=
  unfold after_match, before_match, during, good, captured in *;
  repeat match goal with
  | H : _ /\ _ |- _ => destruct H
  end;
  simpl in *.

Lemma heap_ok_same stk stk' hp hp' :
  cells_of stk' = cells_of stk -> cells hp' = cells hp ->
  heap_ok stk hp -> heap_ok stk' hp'.
Proof. unfold heap_ok. intros -> ->. auto. Qed.

Lemma sync_owns b below opens o (P : OpenMark -> Prop) :
  above opens o -> P o -> sync b below opens ->
  exists o' os, o :: opens = o' :: os /\ above os o' /\ P o' /\ sync b below os.
Proof. intros A HP S. exists o, opens. repeat split; assumption. Qed.

Lemma above_from opens o p :
  (forall o', In o' opens -> pos_le (o_from o') p) -> o_from o = p -> above opens o.
Proof. intros H E o' Ho'. rewrite E. apply H. exact Ho'. Qed.

Ltac inv_solve :=
  first
    [ assumption
    | reflexivity
    | lia
    | discriminate
    | solve [pos_solve]
    | solve [eapply marks_ok_mono; [| eassumption]; pos_solve]
    | solve [eapply Forall_good_open_mono; [| eassumption]; pos_solve]
    | solve [eapply sync_mono; [| eassumption]; pos_solve]
    | solve [unfold captured; split;
             [ pos_solve
             | intros ? Hi;
               match goal with
               | H : Forall (good_open _) ?os |- _ =>
                   destruct (proj1 (Forall_forall _ _) H _ Hi); pos_solve
               end ]]
    | solve [eapply pos_le_trans; [eassumption |]; pos_solve]
    | solve [intros; eapply pos_le_trans; [eapply pos_lt_le; eapply proj1;
               eapply (proj1 (Forall_forall _ _)); eassumption |]; pos_solve]
    | solve [intros;
             match goal with
             | H : Forall (good_open _) ?os, Hi : In ?o ?os |- _ =>
                 destruct (proj1 (Forall_forall _ _) H _ Hi); pos_solve
             end]
    | solve [eapply heap_ok_same; [| | eassumption]; reflexivity]
    | solve [constructor;
             [split; pos_solve
             | eapply Forall_good_open_mono; [| eassumption]; pos_solve]]
    | solve [apply sync_owns;
             [ eapply above_from; [eassumption | reflexivity]
             | try exact I; try (split; pos_solve); try reflexivity; try assumption
             | eapply sync_mono; [| eassumption]; pos_solve ]]
    | solve [eapply children_ok_open; [eassumption | reflexivity | assumption]]
    | solve [apply uid_ok_open; [reflexivity | assumption]]
    | solve [apply uid_ok_more; assumption]
    | solve [eapply heap_ok_tl; eassumption]
    | solve [apply no_end_sequence_cons; [reflexivity | assumption]]
    | solve [eapply no_end_sequence_tl; eassumption]
    | solve [eauto using children_ok_tl, uid_ok_tl] ].

Ltac inv_auto :=
  inv_split; subst;
  repeat match goal with
  | |- _ /\ _ => split
  | |- _ -> _ => intro
  end;
  try inv_solve.

Ltac munfold :=
  unfold stream_eat in *;
  unfold stream_match, stream_next, stream_skipToEnd, stream_skipTo,
    sol, eol, _startPos, _currentPos, _defer in *;
  unfold _push, _pop, _abandonMark in *;
  unfold set_stack, set_openMarks, set_marks, set_line in *.

Lemma matchCommandWithArgument_ok c : matcher_ok (_matchCommandWithArgument c).
Proof.
  intros L p0 w r w' B H. unfold _matchCommandWithArgument in H. munfold.
  mrun; inv_auto.
Qed.

Lemma matchTitleCommand_ok : matcher_ok _matchTitleCommand.
Proof.
  intros L p0 w r w' B H. unfold _matchTitleCommand in H. munfold.
  mrun; inv_auto.
Qed.

Lemma matchIncludeGraphics_ok : matcher_ok _matchIncludeGraphics.
Proof.
  intros L p0 w r w' B H. unfold _matchIncludeGraphics in H. munfold.
  mrun; inv_auto.
Qed.

Lemma matchGroup_ok im : matcher_ok (_matchGroup im).
Proof.
  intros L p0 w r w' B H. unfold _matchGroup in H. munfold.
  mrun; inv_auto.
Qed.

Lemma matchArgument_ok o os c cs im : matcher_ok (_matchArgument o os c cs im).
Proof.
  intros L p0 w r w' B H. unfold _matchArgument in H. munfold.
  mrun; inv_auto.
Qed.

Lemma matchVerbCommand_ok : matcher_ok _matchVerbCommand.
Proof.
  intros L p0 w r w' B H. unfold _matchVerbCommand in H. munfold.
  mrun; inv_auto.
Qed.

(** Matchers that only move the cursor. *)
Lemma consumes_preorder : preorder consumes.
Proof.
  split.
  - intros w. repeat split. lia.
  - intros a b c (S1 & H1 & T1 & P1) (S2 & H2 & T2 & P2).
    repeat split; try congruence. lia.
Qed.

Create HintDb consumes_db.
#[local] Hint Resolve consumes_preorder : consumes_db.

Ltac consumes_auto := respects_with ltac:(auto with consumes_db).

Lemma consumes_consume n : respects consumes (s <- get_stream ;; set_stream (consume s n)).
Proof. intros w. prim_unfold. repeat split. simpl. lia. Qed.

Lemma consumes_stream_match p c : respects consumes (stream_match p c).
Proof.
  intros w. unfold stream_match. prim_unfold.
  destruct (p (rest (stream w))); [destruct c |]; simpl; repeat split; simpl; lia.
Qed.

Lemma consumes_stream_next : respects consumes stream_next.
Proof.
  intros w. unfold stream_next. prim_unfold.
  destruct (rest (stream w)); simpl; repeat split; simpl; lia.
Qed.

Lemma consumes_stream_skipToEnd : respects consumes stream_skipToEnd.
Proof. intros w. unfold stream_skipToEnd. prim_unfold. repeat split; simpl; lia. Qed.

Lemma consumes_stream_skipTo c : respects consumes (stream_skipTo c).
Proof.
  intros w. unfold stream_skipTo. prim_unfold.
  destruct (index_of c (rest (stream w))); simpl; repeat split; simpl; lia.
Qed.

Lemma consumes_sol : respects consumes sol.
Proof. intros w. unfold sol. prim_unfold. repeat split. lia. Qed.

Lemma consumes_eol : respects consumes eol.
Proof. intros w. unfold eol. prim_unfold. repeat split. lia. Qed.

#[local] Hint Resolve consumes_stream_match consumes_stream_next
  consumes_stream_skipToEnd consumes_stream_skipTo consumes_sol consumes_eol
  : consumes_db.

Lemma consumes_matchBlankLine : respects consumes _matchBlankLine.
Proof. unfold _matchBlankLine. consumes_auto. Qed.

Lemma consumes_lookahead_any ab : respects consumes (lookahead_any ab).
Proof. induction ab; simpl; consumes_auto. Qed.

Lemma consumes_matchLineComment : respects consumes _matchLineComment.
Proof. unfold _matchLineComment. consumes_auto. Qed.

Lemma consumes_matchOtherCommand : respects consumes _matchOtherCommand.
Proof. unfold _matchOtherCommand. consumes_auto. Qed.

Lemma consumes_matchOther : respects consumes _matchOther.
Proof. unfold _matchOther. consumes_auto. Qed.

Lemma consumes_matchOtherMath : respects consumes _matchOtherMath.
Proof. unfold _matchOtherMath. consumes_auto. Qed.

Lemma consumes_matchVerbatimEnvironment : respects consumes _matchVerbatimEnvironment.
Proof. unfold _matchVerbatimEnvironment. consumes_auto. Qed.

Lemma consumes_matchCommentEnvironment : respects consumes _matchCommentEnvironment.
Proof. unfold _matchCommentEnvironment. consumes_auto. Qed.

#[local] Hint Resolve consumes_matchBlankLine consumes_lookahead_any
  consumes_matchLineComment consumes_matchOtherCommand consumes_matchOther
  consumes_matchOtherMath consumes_matchVerbatimEnvironment
  consumes_matchCommentEnvironment : consumes_db.

Lemma before_match_consumes L p0 w w' :
  consumes w w' -> before_match L p0 w -> before_match L p0 w'.
Proof.
  intros (S & H & T & P) B. unfold before_match, during in *.
  rewrite S, H, T. intuition lia.
Qed.

Lemma before_after L p0 w : before_match L p0 w -> after_match L p0 w.
Proof.
  intros (D & G & N). split; [exact D |]. split; [| exact N].
  eapply good_mono; [| exact G]. destruct D as (_ & _ & D). pos_solve.
Qed.

Lemma consumes_matcher_ok m : respects consumes m -> matcher_ok m.
Proof.
  intros R L p0 w r w' B H. apply (respects_inr _ R) in H.
  pose proof (@before_match_consumes L p0 w w' H B) as B'.
  split; [apply before_after; exact B' | intros _; exact B'].
Qed.

Lemma lit_length p : forall s n, lit p s = Some n -> n = List.length p.
Proof.
  induction p as [| c p IH]; intros s n H; simpl in H.
  - inversion H. reflexivity.
  - destruct s as [| d s]; [discriminate |].
    destruct (c =? d)%N; [| discriminate].
    destruct (lit p s) as [m |] eqn:E; [| discriminate].
    inversion H. simpl. f_equal. eapply IH. exact E.
Qed.

Lemma above_captured b opens p o :
  captured b opens p -> o_from o = p -> above opens o.
Proof. intros [_ H] E o' Ho'. rewrite E. apply H. exact Ho'. Qed.

(** [_matchAndMark] opens its mark at a position that is either the start
    of the token or one captured earlier. *)
Lemma matchAndMark_ok k p o os c cs ab im L p0 w r w' :
  before_match L p0 w -> o <> [] ->
  captured (mkPos L p0) (openMarks (state w)) p ->
  _matchAndMark k p o os c cs ab im w = inr (r, w') ->
  after_match L p0 w' /\ (r = None -> before_match L p0 w').
Proof.
  intros B No C H. unfold _matchAndMark, _openMark in H. munfold.
  assert (0 < List.length o) by (destruct o; [contradiction | simpl; lia]).
  mrun;
    try match goal with H : lit _ _ = Some _ |- _ => apply lit_length in H; subst end;
    inv_auto.
Qed.

Ltac proj_simpl :=
  cbn [stream state heap stack line openMarks marks pos start rest cells next_uid
       consume tl hd_error] in *.

Ltac mrun' := repeat (mstep; proj_simpl).

Lemma marks_ok_close b b' mks m :
  marks_ok b mks -> good_mark m -> pos_le b (contentTo m) ->
  pos_le (to m) b' -> pos_le b b' -> marks_ok b' (mks ++ [m]).
Proof.
  intros H. eapply marks_ok_snoc; [exact H |]. apply H.
Qed.

Lemma children_ok_close o os ms m :
  children_ok (o :: os) ms -> above os o -> from m = o_from o ->
  children_ok os (ms ++ [m]).
Proof.
  intros C A E. apply children_ok_snoc; [eapply children_ok_tl; exact C |].
  rewrite E. exact A.
Qed.

Lemma children_ok_here b os ms m :
  children_ok os ms -> Forall (good_open b) os -> pos_le b (from m) ->
  children_ok os (ms ++ [m]).
Proof.
  intros C G H. apply children_ok_snoc; [exact C |].
  rewrite Forall_forall in G. intros o Ho. destruct (G _ Ho). pos_solve.
Qed.

Lemma uid_ok_snoc_more os ms m hp :
  uid_ok os ms hp -> openParent m = hd_error os ->
  uid_ok os (ms ++ [m]) (mkHeap (cells hp) (S (next_uid hp))).
Proof.
  intros U E. eapply uid_ok_snoc in U; [| exact E]. destruct U as [U1 U2].
  split; simpl.
  - intros o Ho. specialize (U1 _ Ho). lia.
  - intros m' p Hm Ep. specialize (U2 _ _ Hm Ep). lia.
Qed.

Lemma seq_pos (a b : Pattern) s n :
  (forall s n, a s = Some n -> 0 < n) -> (a ;;; b) s = Some n -> 0 < n.
Proof.
  intros Ha. unfold andThen. destruct (a s) as [k |] eqn:E; [| intros; discriminate].
  destruct (b (skipn k s)); [| intros; discriminate]. intros H. inversion H.
  specialize (Ha _ _ E). lia.
Qed.

Lemma lit_pos p s n : p <> [] -> lit p s = Some n -> 0 < n.
Proof. intros Hp H. apply lit_length in H. destruct p; [contradiction | simpl in H; lia]. Qed.

Lemma re_maketitle_pos s n : re_maketitle s = Some n -> 0 < n.
Proof. apply seq_pos. intros s' n'. apply lit_pos. discriminate. Qed.

Lemma re_item_pos s n : re_item s = Some n -> 0 < n.
Proof. apply seq_pos. intros s' n'. apply lit_pos. discriminate. Qed.

Ltac good_mark_solve :=
  unfold good_mark; simpl;
  repeat match goal with |- _ /\ _ => split end;
  try solve [pos_solve];
  first [ solve [left; pos_solve] | solve [right; split; reflexivity] ].

Ltac inv_solve2 :=
  first
    [ inv_solve
    | solve [eapply marks_ok_close;
             [eassumption | good_mark_solve | pos_solve | pos_solve | pos_solve]]
    | solve [eapply children_ok_here; [eassumption | eassumption | pos_solve]]
    | solve [eapply children_ok_close; [eassumption | assumption | reflexivity]]
    | solve [apply uid_ok_snoc_more; [assumption | reflexivity]]
    | solve [apply uid_ok_snoc; [eauto using uid_ok_tl | reflexivity]] ].

Ltac inv_prep :=
  inv_split; subst;
  repeat match goal with
  | H : Forall _ (_ :: _) |- _ => inversion H; subst; clear H
  | H : good_open _ _ |- _ => destruct H
  end.

Ltac inv_auto2 :=
  inv_prep;
  repeat match goal with
  | |- _ /\ _ => split
  | |- _ -> _ => intro
  end;
  try inv_solve2.

Lemma matchCommand_ok p k :
  (forall s n, p s = Some n -> 0 < n) -> matcher_ok (_matchCommand p k).
Proof.
  intros Hp L p0 w r w' B H. unfold _matchCommand, _openMark, _closeMark in H. munfold.
  mrun'; try match goal with H : p _ = Some _ |- _ => apply Hp in H end; inv_auto2.
Qed.

Lemma set_last_snoc (ms : list Mark) (m : Mark) (g : Mark -> Mark) :
  match rev (ms ++ [m]) with
  | m' :: r => rev r ++ [g m']
  | [] => []
  end = ms ++ [g m].
Proof. rewrite rev_unit, rev_involutive. reflexivity. Qed.

Lemma matchItemCommand_ok : matcher_ok _matchItemCommand.
Proof.
  intros L p0 w r w' B H.
  unfold _matchItemCommand, _openMark, _closeMark, set_checkedProperties in H. munfold.
  mrun'; try match goal with H : re_item _ = Some _ |- _ => apply re_item_pos in H end;
  rewrite ?set_last_snoc; inv_auto2.
Qed.

(** The counters. *)
Lemma length_set_nth c v l : List.length (set_nth c v l) = List.length l.
Proof.
  revert c. induction l as [| x l IH]; intros [| c]; simpl; try reflexivity.
  f_equal. apply IH.
Qed.

Lemma nth_set_nth_eq c v l : c < List.length l -> nth c (set_nth c v l) 0 = v.
Proof.
  revert c. induction l as [| x l IH]; intros [| c]; simpl; intros H; try lia.
  apply IH. lia.
Qed.

Lemma nth_set_nth_neq c c' v l : c <> c' -> nth c' (set_nth c v l) 0 = nth c' l 0.
Proof.
  revert c c'. induction l as [| x l IH]; intros [| c] [| c']; simpl; intros H;
    try reflexivity; try contradiction.
  apply IH. lia.
Qed.

Lemma heap_ok_new_cell stk hp v u :
  heap_ok stk hp -> heap_ok stk (mkHeap (cells hp ++ [v]) u).
Proof.
  intros [N H]. split; [exact N |]. intros c Hc. destruct (H _ Hc) as [H1 H2]. simpl.
  rewrite length_app. simpl. rewrite app_nth1 by exact H1. split; [lia | exact H2].
Qed.

Lemma heap_ok_fresh stk hp : heap_ok stk hp -> ~ In (List.length (cells hp)) (cells_of stk).
Proof. intros [_ H] Hc. destruct (H _ Hc). lia. Qed.

Lemma heap_ok_write stk stk' hp c v u :
  cells_of stk' = cells_of stk ->
  heap_ok stk hp -> ~ In c (cells_of stk) ->
  heap_ok stk' (mkHeap (set_nth c v (cells hp)) u).
Proof.
  intros E [N H] Hc. split; rewrite E; [exact N |]. intros c' Hc'.
  destruct (H _ Hc') as [H1 H2]. simpl. rewrite length_set_nth.
  rewrite nth_set_nth_neq; [split; assumption |]. intros ->. contradiction.
Qed.

Lemma heap_ok_defer stk hp c v u sq cb :
  heap_ok stk hp -> ~ In c (cells_of stk) -> c < List.length (cells hp) ->
  1 <= v <= 3 ->
  heap_ok (Deferred (DMatchNext c sq cb) :: stk) (mkHeap (set_nth c v (cells hp)) u).
Proof.
  intros [N H] Hc Hl Hv. split; simpl.
  - constructor; assumption.
  - intros c' [<- | Hc'].
    + rewrite length_set_nth, nth_set_nth_eq by exact Hl. split; [exact Hl | exact Hv].
    + destruct (H _ Hc') as [H1 H2]. rewrite length_set_nth.
      rewrite nth_set_nth_neq; [split; assumption |]. intros ->. contradiction.
Qed.

Lemma heap_ok_popped c sq cb stk hp :
  heap_ok (Deferred (DMatchNext c sq cb) :: stk) hp ->
  ~ In c (cells_of stk) /\ c < List.length (cells hp) /\ 1 <= nth c (cells hp) 0 <= 3.
Proof.
  intros [N H]. simpl in *. inversion N; subst. split; [assumption |].
  apply H. left. reflexivity.
Qed.

Lemma plus_pos f s n : plus f s = Some n -> 0 < n.
Proof. unfold plus. destruct (span f s); intros H; inversion H. lia. Qed.

Lemma sequence_pattern_pos sq i s n :
  i <= 3 -> sequence_pattern sq i s = Some n -> 0 < n.
Proof.
  intros Hi. destruct i as [| [| [| [| i]]]]; unfold sequence_pattern; try lia.
  - destruct sq; apply seq_pos; intros s' n'; apply lit_pos; discriminate.
  - apply lit_pos. discriminate.
  - apply plus_pos.
  - apply lit_pos. discriminate.
Qed.

Ltac inv_solve3 :=
  first
    [ inv_solve2
    | solve [split; [pos_solve | assumption]]
    | solve [eapply heap_ok_defer; [eassumption | assumption | assumption | lia]]
    | solve [eapply heap_ok_write; [| eassumption | assumption]; reflexivity]
    | solve [eapply heap_ok_new_cell; eassumption] ].

Ltac inv_auto3 :=
  inv_prep;
  unfold is_marked in *;
  repeat match goal with
  | H : env_kind ?e = _ |- _ => rewrite H in *
  end;
  try discriminate; try congruence;
  repeat match goal with
  | |- _ /\ _ => split
  | |- _ -> _ => intro
  end;
  try discriminate;
  try inv_solve3.

Lemma matchNext_ok c sq cb L p0 w r w' :
  before_match L p0 w ->
  c < List.length (cells (heap w)) ->
  ~ In c (cells_of (stack (state w))) ->
  nth c (cells (heap w)) 0 <= 3 ->
  cb_ready (mkPos L p0) (openMarks (state w)) cb ->
  _matchNext c sq cb w = inr (r, w') ->
  after_match L p0 w' /\ (r = None -> before_match L p0 w').
Proof.
  intros B Hl Hc Hi R H.
  unfold _matchNext, run_callback, _openMark, set_openMarksCount in H. munfold.
  destruct cb as [| e [p |] | e [p |] |]; cbn [cb_ready] in R;
    mrun';
    try match goal with
        | H : sequence_pattern _ _ _ = Some _ |- _ =>
            apply sequence_pattern_pos in H; [| assumption]
        end;
    try match goal with
        | H : (_ <? 4) = true |- _ => apply Nat.ltb_lt in H
        | H : (_ <? 4) = false |- _ => apply Nat.ltb_ge in H
        end;
    try match goal with
        | |- context [sequence_token ?i] =>
            destruct i as [| [| [| [| ?]]]]; try lia; cbn [sequence_token]
        end;
    inv_auto3.
Qed.

Lemma matchSequence_ok sq cb L p0 w r w' :
  before_match L p0 w ->
  cb_ready (mkPos L p0) (openMarks (state w)) cb ->
  _matchSequence sq cb w = inr (r, w') ->
  after_match L p0 w' /\ (r = None -> before_match L p0 w').
Proof.
  intros B R H. unfold _matchSequence in H. mrun'.
  eapply matchNext_ok in H; [exact H | | | | | exact R]; simpl.
  - inv_auto3.
  - rewrite length_app. simpl. lia.
  - apply heap_ok_fresh. apply B.
  - rewrite nth_middle. lia.
Qed.

Lemma orElse_ok a b : matcher_ok a -> matcher_ok b -> matcher_ok (a ||| b).
Proof.
  intros Ha Hb L p0 w r w' B H. unfold orElse in H. mrun'.
  - eapply Ha in E; [| exact B]. destruct E as [A _]. split; [exact A | discriminate].
  - eapply Ha in E; [| exact B]. destruct E as [_ B']. eapply Hb; [apply B'; reflexivity | exact H].
Qed.

Lemma begin_environment_ok e : In e all_environments -> matcher_ok (begin_environment e).
Proof.
  intros He L p0 w r w' B H.
  unfold begin_environment, _matchBeginEnvironmentSequence in H. munfold.
  destruct (env_kind e) as [k |] eqn:Ek; mrun';
    (eapply matchSequence_ok in H; [exact H | exact B |]);
    cbn [cb_ready]; unfold is_marked; rewrite Ek;
    (split; [exact He |]); [| reflexivity].
  split; [reflexivity |]. destruct B as ((<- & <- & _) & G & _).
  apply captured_at_bound. apply G.
Qed.

Lemma matchEnvironments_ok envs :
  (forall e, In e envs -> In e all_environments) -> matcher_ok (_matchEnvironments envs).
Proof.
  unfold _matchEnvironments. induction envs as [| e envs IH]; intros He; simpl.
  - apply consumes_matcher_ok. consumes_auto.
  - intros L p0 w r w' B H. munfold. mrun'; try discriminate.
    + eapply begin_environment_ok; [| exact B | exact H]. apply He. left. reflexivity.
    + eapply IH; [| exact B | exact H]. intros e' He'. apply He. right. exact He'.
Qed.

Lemma matchOtherEnvironmentBeginOrEnd_ok : matcher_ok _matchOtherEnvironmentBeginOrEnd.
Proof.
  intros L p0 w r w' B H.
  unfold _matchOtherEnvironmentBeginOrEnd, _matchBeginEnvironmentSequence,
    _matchEndEnvironmentSequence in H. munfold.
  mrun'; try discriminate;
    try (eapply matchSequence_ok in H; [exact H | exact B | exact I]).
  split; [apply before_after; exact B | intros _; exact B].
Qed.

Lemma matchEndDocument_ok : matcher_ok _matchEndDocument.
Proof.
  intros L p0 w r w' B H.
  unfold _matchEndDocument, _matchEndEnvironmentSequence in H. munfold.
  mrun'; try discriminate;
    try (eapply matchSequence_ok in H; [exact H | exact B | exact I]).
  split; [apply before_after; exact B | intros _; exact B].
Qed.

Ltac opener_ok :=
  intros L p0 w r w' B H; munfold; mrun';
  eapply matchAndMark_ok in H;
    [ exact H | exact B | discriminate
    | destruct B as ((<- & <- & _) & G & _); apply captured_at_bound; apply G ].

Lemma matchDollarDollarMath_ok : matcher_ok _matchDollarDollarMath.
Proof. unfold _matchDollarDollarMath. opener_ok. Qed.

Lemma matchDollarMath_ok : matcher_ok _matchDollarMath.
Proof. unfold _matchDollarMath. opener_ok. Qed.

Lemma matchBracketMath_ok : matcher_ok _matchBracketMath.
Proof. unfold _matchBracketMath. opener_ok. Qed.

Lemma matchParenMath_ok : matcher_ok _matchParenMath.
Proof. unfold _matchParenMath. opener_ok. Qed.

Lemma table_in_all t :
  In t [_FIGURE_ENVIRONMENTS; _LIST_ENVIROMENTS; _MATH_ENVIRONMENTS;
        _IGNORED_ENVIRONMENTS; _TIKZ_ENVIRONMENTS; _TOP_LEVEL_ENVIRONMENTS] ->
  forall e, In e t -> In e all_environments.
Proof.
  intros Ht e He. unfold all_environments.
  repeat (destruct Ht as [<- | Ht]; [repeat (apply in_or_app; (left; exact He) || right); exact He |]).
  destruct Ht.
Qed.

Create HintDb matcher_db.
#[local] Hint Resolve matchCommandWithArgument_ok matchTitleCommand_ok
  matchIncludeGraphics_ok matchGroup_ok matchArgument_ok matchVerbCommand_ok
  matchItemCommand_ok matchOtherEnvironmentBeginOrEnd_ok matchEndDocument_ok
  matchDollarDollarMath_ok matchDollarMath_ok matchBracketMath_ok
  matchParenMath_ok : matcher_db.

Ltac matcher_auto :=
  repeat first
    [ apply orElse_ok
    | solve [auto with matcher_db]
    | solve [apply consumes_matcher_ok; auto with consumes_db]
    | solve [apply matchEnvironments_ok; apply table_in_all; simpl; tauto]
    | solve [apply matchCommand_ok; apply re_maketitle_pos] ].

Lemma matchBibCommand_ok : matcher_ok _matchBibCommand.
Proof.
  unfold _matchBibCommand, _bibCommands. cbn [fold_right]. matcher_auto.
Qed.

Lemma matchSectioningCommand_ok : matcher_ok _matchSectioningCommand.
Proof. unfold _matchSectioningCommand. matcher_auto. Qed.

#[local] Hint Resolve matchBibCommand_ok matchSectioningCommand_ok : matcher_db.

Lemma matchMath_ok : matcher_ok _matchMath.
Proof. unfold _matchMath. matcher_auto. Qed.

Lemma matchText_ok : matcher_ok _matchText.
Proof. unfold _matchText. matcher_auto. Qed.

#[local] Hint Resolve matchMath_ok matchText_ok : matcher_db.

Lemma matchTikZ_ok : matcher_ok _matchTikZ.
Proof. unfold _matchTikZ. matcher_auto. Qed.

Lemma matchFigureContent_ok : matcher_ok _matchFigureContent.
Proof. unfold _matchFigureContent. matcher_auto. Qed.

Lemma matchListContent_ok : matcher_ok _matchListContent.
Proof. unfold _matchListContent. matcher_auto. Qed.

Lemma topLevel_ok : matcher_ok _topLevel.
Proof. unfold _topLevel. matcher_auto. Qed.

#[local] Hint Resolve matchTikZ_ok matchFigureContent_ok matchListContent_ok
  topLevel_ok : matcher_db.

Lemma inner_mode_ok im : matcher_ok (inner_mode im).
Proof. destruct im; simpl; auto with matcher_db. Qed.

Lemma env_tokenizer_ok t : matcher_ok (env_tokenizer t).
Proof. destruct t; simpl; matcher_auto. Qed.

(** ** What a call does to the invariant *)

Lemma no_end_ending w : no_end_sequence (stack (state w)) -> ending_ok w.
Proof.
  unfold ending_ok, no_end_sequence. destruct (stack (state w)) as [| t below]; [auto |].
  destruct t as [| d | | | | | |]; auto.
  destruct d as [c sq cb | | |]; auto.
  destruct cb as [| | e cp |]; auto.
  destruct cp; auto. simpl. discriminate.
Qed.

Lemma after_call L p0 w : after_match L p0 w -> call_post L p0 w.
Proof.
  intros (D & G & N). split; [exact D |]. split; [exact G |]. apply no_end_ending. exact N.
Qed.

Lemma before_call L p0 w : before_match L p0 w -> call_post L p0 w.
Proof. intros B. apply after_call, before_after, B. Qed.

Ltac make_explicit w :=
  let s := fresh "s" in let stk := fresh "stk" in let l := fresh "l" in
  let os := fresh "os" in let ms := fresh "ms" in let hp := fresh "hp" in
  destruct w as [s [stk l os ms] hp]; cbn [stream state heap stack line openMarks marks] in *.

Lemma stream_match_same p w : exists b, stream_match p false w = inr (b, w).
Proof.
  unfold stream_match, bind, get_stream, ret. destruct w as [s st hp]; simpl.
  destruct (p (rest s)); eexists; reflexivity.
Qed.

Lemma lookahead_any_same ab w b w' : lookahead_any ab w = inr (b, w') -> w' = w.
Proof.
  induction ab as [| a others IH]; simpl; intros H.
  - inversion H. reflexivity.
  - destruct (stream_match_same (lit a) w) as [m E].
    unfold bind in H. rewrite E in H. destruct m.
    + inversion H. reflexivity.
    + apply IH, H.
Qed.

Ltac consumes_step :=
  match goal with
  | H : lookahead_any ?ab ?w = inr (_, ?w1) |- _ =>
      apply lookahead_any_same in H; subst w1
  end.

Ltac rewrite_states :=
  repeat match goal with
  | Es : state ?w = _ |- _ => rewrite Es in *
  | Eh : heap ?w = _ |- _ => rewrite Eh in *
  end.

Ltac mrun'' := repeat (first [consumes_step | mstep]; proj_simpl; rewrite_states; proj_simpl).

Ltac inv_prep' :=
  inv_split; subst;
  repeat (match goal with
          | H : exists _, _ |- _ => destruct H
          | H : _ /\ _ |- _ => destruct H
          | H : Forall _ (_ :: _) |- _ => inversion H; subst; clear H
          | H : good_open _ _ |- _ => destruct H
          | H : _ :: _ = _ :: _ |- _ => inversion H; clear H
          end; subst; proj_simpl).

Ltac inv_auto4 :=
  inv_prep';
  unfold is_marked in *;
  repeat match goal with
  | H : env_kind ?e = _ |- _ => rewrite H in *
  end;
  try discriminate; try congruence;
  repeat match goal with
  | |- _ /\ _ => split
  | |- _ -> _ => intro
  end;
  try discriminate;
  try inv_solve3;
  try solve [unfold captured in *;
             repeat match goal with H : _ /\ _ |- _ => destruct H end; auto].

Ltac call_post_explicit :=
  unfold call_post;
  split; [| split; [| apply no_end_ending; cbn [stack state]]];
  inv_auto4.

Ltac call_matcher lem :=
  match goal with
  | H : _ ?W = inr (_, ?w') |- call_post _ _ ?w' =>
      eapply lem in H; [apply after_call; apply H | inv_auto4]
  end.

Lemma run_tokenizer_ok t below k L p0 w r w' :
  stack (state w) = t :: below -> before_match L p0 w ->
  (forall w1 r1 w2, stack (state w1) = below -> before_match L p0 w1 ->
     k w1 = inr (r1, w2) -> call_post L p0 w2) ->
  (forall e, t = EnvironmentBody e -> is_marked e = true ->
     forall n w1, endPattern e (rest (stream w)) = Some n ->
     w1 = mkWorld (stream w) (mkState below (line (state w)) (openMarks (state w)) (marks (state w))) (heap w) ->
     _matchSequence EndSeq (CbEndEnvironment e (Some (mkPos L p0))) w1 = inr (r, w') ->
     call_post L p0 w') ->
  run_tokenizer t (_pop ;; k) w = inr (r, w') -> call_post L p0 w'.
Proof.
  intros S B Hk Hend H. make_explicit w. subst stk.
  destruct t as [| d | close cs ab im | close cs im | im | v | e |];
    cbn [run_tokenizer] in H.
  - call_matcher topLevel_ok.
  - clear Hend Hk. munfold.
    destruct d as [c sq cb | kd p | kd p |]; cbn [deferred_call] in H.
    + mrun''.
      assert (Hp : heap_ok (Deferred (DMatchNext c sq cb) :: below) hp) by apply B.
      apply heap_ok_popped in Hp. destruct Hp as (Hn & Hl & Hv).
      assert (R : cb_ready (mkPos L p0) os cb).
      { destruct B as (_ & (_ & _ & Sy & _) & N).
        cbn [sync state stack openMarks] in Sy, N.
        destruct cb as [| e mp | e [p |] |]; cbn [cb_ready]; auto.
        - destruct Sy as (I & Hm & _). split; assumption.
        - unfold no_end_sequence in N. simpl in N. discriminate.
        - destruct Sy as (I & Hm & _). auto. }
      eapply matchNext_ok in H;
        [apply after_call; apply H | | exact Hl | exact Hn | cbn [heap]; lia | exact R].
      destruct cb as [| e mp | e [p |] |]; inv_auto4.
    + unfold _matchAndMarkRequiredArgument in H. mrun''.
      eapply matchAndMark_ok in H; [apply after_call; apply H | | discriminate |]; inv_auto4.
    + unfold _matchAndMarkOptionalArgument in H. mrun''.
      eapply matchAndMark_ok in H; [apply after_call; apply H | | discriminate |]; inv_auto4.
    + unfold _matchOptionalArgument in H. mrun''.
      eapply matchArgument_ok in H; [apply after_call; apply H |]; inv_auto4.
  - clear Hend. unfold _matchBlankLine, _closeMark in H. munfold. mrun''.
    all: try solve [call_post_explicit].
    all: try solve [call_matcher inner_mode_ok].
    all: try solve [eapply Hk in H; [exact H | reflexivity | inv_auto4]].
  - clear Hend. unfold _matchBlankLine in H. munfold. mrun''.
    all: try solve [call_post_explicit].
    all: try solve [call_matcher inner_mode_ok].
  - clear Hend. munfold. mrun''.
    all: try solve [call_post_explicit].
    all: try solve [call_matcher inner_mode_ok].
  - clear Hend. unfold stream_skipTo, stream_skipToEnd in H. munfold. mrun''.
    all: try solve [call_post_explicit].
  - change (match env_kind e with Some _ => true | None => false end)
      with (is_marked e) in H.
    assert (B0 := B).
    unfold before_match, good in B. cbn [sync state stack openMarks] in B.
    destruct (is_marked e) eqn:Em.
    + unfold _matchBlankLine, _abandonMark, _matchEndEnvironmentSequence, _startPos in H.
      munfold. mrun''.
      all: try solve [call_post_explicit].
      all: try solve [eapply env_tokenizer_ok in H; [apply after_call; apply H | exact B0]].
      all: try solve [eapply Hk in H; [exact H | reflexivity | inv_auto4]].
      all: try solve [destruct (proj1 B) as (D1 & D2 & _);
                      cbn [line state stream start] in D1, D2; subst;
                      eapply Hend; [reflexivity | exact Em | eassumption | reflexivity | exact H]].
    + clear Hend.
      unfold _matchBlankLine, _abandonMark, _matchEndEnvironmentSequence, _startPos in H.
      munfold. mrun''.
      all: try solve [call_post_explicit].
      all: try solve [eapply env_tokenizer_ok in H; [apply after_call; apply H | exact B0]].
      all: try solve [eapply Hk in H; [exact H | reflexivity | inv_auto4]].
      all: try solve [eapply matchSequence_ok in H;
                      [apply after_call; apply H | inv_auto4 | cbn [cb_ready]; inv_auto4]].
  - clear Hend. unfold stream_skipToEnd in H. munfold. mrun''.
    all: try solve [call_post_explicit].
Qed.

(** ** The end of a marked environment *)

Lemma andThen_inv (a b : Pattern) s n :
  (a ;;; b) s = Some n ->
  exists k m, a s = Some k /\ b (skipn k s) = Some m /\ n = k + m.
Proof.
  unfold andThen. destruct (a s) as [k |]; [| discriminate].
  destruct (b (skipn k s)) as [m |] eqn:E; [| discriminate].
  intros H. inversion H. exists k, m. repeat split; [exact E].
Qed.

Lemma lit_inv p : forall s n, lit p s = Some n -> s = p ++ skipn n s.
Proof.
  induction p as [| c p IH]; intros s n H; simpl in H.
  - inversion H. reflexivity.
  - destruct s as [| d s']; [discriminate |].
    destruct (N.eqb_spec c d); [| discriminate].
    destruct (lit p s') as [k |] eqn:E; [| discriminate].
    inversion H. subst. simpl. f_equal. apply IH. exact E.
Qed.

Lemma endPattern_inv e s n :
  endPattern e s = Some n ->
  exists k, re_end s = Some k /\ 0 < k /\ pending 1 e (skipn k s).
Proof.
  unfold endPattern. intros H.
  apply andThen_inv in H. destruct H as (k & m & Hk & H & _).
  exists k. split; [exact Hk |]. split.
  { revert Hk. apply seq_pos. intros s' n'. apply lit_pos. discriminate. }
  apply andThen_inv in H. destruct H as (k1 & m1 & H1 & H & _).
  apply andThen_inv in H. destruct H as (k2 & m2 & H2 & H3 & _).
  apply lit_inv in H1, H2, H3. simpl.
  exists (skipn m2 (skipn k2 (skipn k1 (skipn k s)))).
  rewrite H1 at 1. simpl. f_equal. rewrite H2 at 1. f_equal. rewrite H3 at 1. reflexivity.
Qed.

Lemma end_sequence_start e below L p0 s l os ms hp n r w' :
  before_match L p0 (mkWorld s (mkState (EnvironmentBody e :: below) l os ms) hp) ->
  is_marked e = true ->
  endPattern e (rest s) = Some n ->
  _matchSequence EndSeq (CbEndEnvironment e (Some (mkPos L p0)))
    (mkWorld s (mkState below l os ms) hp) = inr (r, w') ->
  call_post L p0 w'.
Proof.
  intros B Em Hn H.
  apply endPattern_inv in Hn. destruct Hn as (k & Hk & Kpos & P).
  unfold before_match, good in B. cbn [sync state stack openMarks] in B. rewrite Em in B.
  unfold _matchSequence, _matchNext, new_cell, read_cell, write_cell, _defer in H. munfold.
  unfold bind at 1 2 in H. cbn [heap cells stream state] in H.
  rewrite nth_middle in H. cbn [sequence_pattern Nat.add Nat.ltb Nat.leb] in H.
  mrun'.
  all: try congruence.
  assert (n0 = k) by congruence. subst n0. clear Hk H.
  destruct B as ((D1 & D2 & D3) & (Mk & Go & (Ie & o & os' & -> & Ab & _ & Sy) & Hp & Ch & Ui) & Ne).
  cbn [line state stream start pos] in D1, D2, D3. subst l.
  assert (Hb : pos_le (mkPos L p0) (mkPos L (pos a0 + k))) by pos_solve.
  assert (Hf : ~ In (List.length (cells hp)) (cells_of below)).
  { apply (@heap_ok_fresh (EnvironmentBody e :: below)). exact Hp. }
  split; [| split].
  - repeat split; simpl; [exact D2 | lia].
  - cbn [stream state heap pos consume]. good_split; cbn [marks openMarks stack sync].
    + eapply marks_ok_mono; eassumption.
    + eapply Forall_good_open_mono; eassumption.
    + split; [exact Ie |]. split; [exact Em |]. exists o, os'.
      inversion Go as [| ? ? [_ Go1] _]; subst.
      repeat split; try assumption. eapply sync_mono; eassumption.
    + apply (@heap_ok_defer below (mkHeap (cells hp ++ [0]) (next_uid hp))); try lia.
      * apply heap_ok_new_cell. eapply heap_ok_tl. exact Hp.
      * exact Hf.
      * simpl. rewrite length_app. simpl. lia.
    + exact Ch.
    + destruct hp. eapply uid_ok_heap. exact Ui.
  - unfold ending_ok. cbn [stack state heap cells stream rest consume].
    split; [reflexivity |]. split; [| split].
    + rewrite nth_set_nth_eq by (rewrite length_app; simpl; lia). exact P.
    + apply Mk.
    + eapply no_end_sequence_tl. exact Ne.
Qed.

Lemma call_top_ok : forall stk f L p0 w r w',
  stack (state w) = stk -> before_match L p0 w ->
  call_top f stk w = inr (r, w') -> call_post L p0 w'.
Proof.
  induction stk as [| t below IH]; intros f L p0 w r w' S B H; [discriminate |].
  cbn [call_top] in H. eapply run_tokenizer_ok; [exact S | exact B | | | exact H].
  - intros w1 r1 w2 S1 B1 H1. eapply IH; eassumption.
  - intros e -> Em n w1 Hn -> H1.
    destruct w as [s [stk l os ms] hp]. cbn [stream state heap stack line openMarks marks] in *.
    subst stk. eapply end_sequence_start; eassumption.
Qed.

Lemma names_ok e : In e all_environments -> name_ok (regex_literal (env_name e)) = true.
Proof.
  assert (H : forallb (fun e => name_ok (regex_literal (env_name e))) all_environments = true)
    by (vm_compute; reflexivity).
  rewrite forallb_forall in H. apply H.
Qed.

Lemma span_name f name t c :
  forallb f name = true -> f c = false -> span f (name ++ c :: t) = List.length name.
Proof.
  induction name as [| d name IH]; simpl; intros Hn Hc.
  - rewrite Hc. reflexivity.
  - apply andb_prop in Hn. destruct Hn as [-> Hn]. rewrite IH by assumption. reflexivity.
Qed.

Lemma name_not_comment name t :
  name_ok name = true -> re_line_comment (name ++ t) = None.
Proof.
  unfold name_ok. destruct name as [| c name]; [discriminate |]. intros H.
  apply andb_prop in H. destruct H as [H _]. apply andb_prop in H. destruct H as [H1 H2].
  unfold re_line_comment, andThen, star. cbn [app span].
  destruct (is_space c); [discriminate |]. cbn [skipn].
  change (js "%") with [ch "%"]. cbn [lit].
  rewrite N.eqb_sym. apply negb_true_iff in H2. rewrite H2. reflexivity.
Qed.

Lemma name_matches name :
  name_ok name = true ->
  0 < List.length name /\
  forall t, re_env_name (name ++ js "}" ++ t) = Some (List.length name).
Proof.
  unfold name_ok. intros H. apply andb_prop in H. destruct H as [H1 H2].
  assert (0 < List.length name) by (destruct name; [discriminate | simpl; lia]).
  split; [assumption |]. intros t.
  unfold re_env_name, plus. change (js "}" ++ t) with (ch "}" :: t).
  rewrite span_name; [| exact H2 | reflexivity].
  destruct (List.length name); [lia | reflexivity].
Qed.

Lemma ending_not_comment c e p below s l os ms hp :
  let w := mkWorld s (mkState (Deferred (DMatchNext c EndSeq (CbEndEnvironment e (Some p))) :: below)
                        l os ms) hp in
  In e all_environments -> ending_ok w -> _matchLineComment w = inr (None, w).
Proof.
  intros w Ie (_ & P & _). cbn [stream state heap stack cells rest w] in *.
  apply names_ok in Ie.
  assert (N : re_line_comment (rest s) = None).
  { destruct (nth c (cells hp) 0) as [| [| [| [| i]]]]; try contradiction;
      destruct P as [t ->].
    - reflexivity.
    - apply name_not_comment. exact Ie.
    - reflexivity. }
  unfold _matchLineComment, stream_match, bind, get_stream, ret, w. cbn [stream].
  rewrite N. reflexivity.
Qed.

Lemma pending_matches i e rs :
  In e all_environments -> pending i e rs ->
  exists n, sequence_pattern EndSeq i rs = Some n /\ 0 < n /\
            (i < 3 -> pending (S i) e (skipn n rs)).
Proof.
  intros Ie P. destruct (@name_matches _ (@names_ok e Ie)) as [Np Nm].
  destruct i as [| [| [| [| i]]]]; try contradiction; destruct P as [t ->].
  - exists 1. split; [reflexivity |]. split; [lia |]. intros _. exists t. reflexivity.
  - exists (List.length (regex_literal (env_name e))).
    split; [apply Nm |]. split; [exact Np |]. intros _. exists t.
    rewrite skipn_app, skipn_all, Nat.sub_diag. reflexivity.
  - exists 1. split; [reflexivity |]. split; [lia |]. intros C. lia.
Qed.

Lemma ending_step c e p below L p0 s os ms hp r w' :
  let stk := Deferred (DMatchNext c EndSeq (CbEndEnvironment e (Some p))) :: below in
  let w := mkWorld s (mkState stk L os ms) hp in
  during L p0 w -> good (mkPos L p0) (state w) (heap w) -> ending_ok w ->
  call_top EmptyStack stk w = inr (r, w') -> call_post L p0 w'.
Proof.
  intros stk w (_ & D2 & D3) (Mk & Go & Sy & Hp & Ch & Ui) (_ & P & Q & Ne) H.
  subst w stk. cbn [call_top] in H.
  cbn [stream state heap stack cells rest marks openMarks start pos] in *.
  cbn [sync] in Sy. destruct Sy as (Ie & Em & o & os' & -> & Ab & (Cp & Pb) & Sy).
  assert (Hb := heap_ok_tl Hp).
  apply heap_ok_popped in Hp. destruct Hp as (Hn & Hl & Hv).
  destruct (@pending_matches _ _ _ Ie P) as (n & Hpat & Npos & Next).
  destruct s as [ps ss rs]. destruct hp as [cs u].
  cbn [stream state heap stack cells rest marks openMarks start pos] in *.
  unfold is_marked in Em. destruct (env_kind e) as [k |] eqn:Ek; [clear Em | discriminate].
  unfold run_tokenizer, deferred_call, _matchNext, run_callback, _closeMark,
    set_checkedProperties in H.
  munfold.
  destruct (nth c cs 0) as [| [| [| [| i]]]] eqn:Hi; try contradiction; try lia;
    repeat (mstep; proj_simpl; rewrite ?Hi, ?Hpat, ?Ek in *;
            cbn [Nat.add Nat.ltb Nat.leb sequence_token] in * ).
  all: assert (Bb : pos_le (mkPos L p0) (mkPos L (ps + n))) by pos_solve.
  1, 2: split; [repeat split; simpl; lia |]; split;
    [ cbn [stream state heap pos consume]; good_split; cbn [marks openMarks stack sync];
      [ eapply marks_ok_mono; eassumption
      | eapply Forall_good_open_mono; eassumption
      | split; [exact Ie |]; split; [unfold is_marked; rewrite Ek; reflexivity |];
        exists o, os'; repeat split; try assumption;
        [eapply pos_le_trans; eassumption | eapply sync_mono; eassumption]
      | apply (@heap_ok_defer below (mkHeap cs u)); [exact Hb | exact Hn | exact Hl | lia]
      | exact Ch
      | eapply uid_ok_heap; exact Ui ]
    | unfold ending_ok; cbn [stack state heap cells stream rest consume];
      split; [reflexivity |]; split; [| split; [exact Q | exact Ne]];
      rewrite nth_set_nth_eq by exact Hl; apply Next; lia ].
  rewrite set_last_snoc.
  inversion Go as [| ? ? [Go1 Go2] Go']; subst.
  split; [repeat split; simpl; lia |]. split; [| apply no_end_ending; exact Ne].
  cbn [stream state heap pos consume]. good_split; cbn [marks openMarks stack].
  - eapply marks_ok_snoc with (q := p); [exact Mk | exact Q | | | | exact Bb]; simpl.
    + unfold good_mark; simpl. repeat split; try solve [pos_solve]; left; exact Cp.
    + apply pos_le_refl.
    + pos_solve.
  - eapply Forall_good_open_mono; eassumption.
  - eapply sync_mono; eassumption.
  - eapply (@heap_ok_write below below (mkHeap cs u)); [reflexivity | exact Hb | exact Hn].
  - eapply children_ok_close; [exact Ch | exact Ab | reflexivity].
  - eapply uid_ok_heap. apply uid_ok_snoc; [eapply uid_ok_tl; exact Ui | reflexivity].
Qed.

(** ** A call of [token] *)

Lemma ending_cases w :
  ending_ok w ->
  no_end_sequence (stack (state w)) \/
  exists c e p below,
    stack (state w) = Deferred (DMatchNext c EndSeq (CbEndEnvironment e (Some p))) :: below.
Proof.
  unfold ending_ok. destruct (stack (state w)) as [| t below]; [auto |].
  destruct t as [| d | | | | | |]; auto.
  destruct d as [c sq cb | | |]; auto.
  destruct cb as [| | e cp |]; auto.
  destruct cp as [p |]; auto.
  intros (-> & _). right. exists c, e, p, below. reflexivity.
Qed.

Lemma token_body L p0 w1 a w2 r w3 :
  during L p0 w1 -> good (mkPos L p0) (state w1) (heap w1) -> ending_ok w1 ->
  _matchLineComment w1 = inr (a, w2) ->
  match a with
  | Some r => ret (Some r)
  | None => st <- get_state ;; call_top EmptyStack (stack st)
  end w2 = inr (r, w3) ->
  call_post L p0 w3.
Proof.
  intros D G En E1 E2. destruct (@ending_cases _ En) as [Ne | (c & e & p & below & S)].
  - assert (B : before_match L p0 w1) by (split; [exact D | split; [exact G | exact Ne]]).
    apply (respects_inr _ consumes_matchLineComment) in E1.
    pose proof (@before_match_consumes L p0 w1 w2 E1 B) as B2.
    destruct a as [x |].
    + apply ret_inr in E2. destruct E2 as [_ <-]. apply before_call. exact B2.
    + apply bind_inr in E2. destruct E2 as (st & w4 & E3 & E2).
      unfold get_state in E3. inversion E3; subst. eapply call_top_ok; [reflexivity | exact B2 | exact E2].
  - destruct w1 as [s [stk l os ms] hp]. cbn [state stack] in S. subst stk.
    assert (Ie : In e all_environments).
    { destruct G as (_ & _ & Sy & _). cbn [sync state stack] in Sy. apply Sy. }
    rewrite (@ending_not_comment c e p below s l os ms hp Ie En) in E1.
    inversion E1; subst. apply bind_inr in E2. destruct E2 as (st & w4 & E3 & E2).
    unfold get_state in E3. inversion E3; subst. cbn [state stack] in E2.
    assert (l = L) by apply D. subst l.
    eapply ending_step; eassumption.
Qed.

Lemma token_frame w r w' :
  _token w = inr (r, w') ->
  exists L a w2 w3,
    L = (if Nat.eqb (pos (stream w)) 0 then (line (state w) + 1)%Z else line (state w)) /\
    _matchLineComment
      (mkWorld (stream w)
         (mkState (stack (state w)) L (openMarks (state w)) (marks (state w))) (heap w))
      = inr (a, w2) /\
    match a with
    | Some r => ret (Some r)
    | None => st <- get_state ;; call_top EmptyStack (stack st)
    end w2 = inr (r, w3) /\
    stream w' = stream w3 /\ heap w' = heap w3 /\
    stack (state w') = stack (state w3) /\
    openMarks (state w') = openMarks (state w3) /\
    marks (state w') = marks (state w3) /\
    line (state w') =
      (if Nat.eqb (pos (stream w3)) 0 &&
          negb (match rest (stream w3) with [] => true | _ => false end)
       then (line (state w3) - 1)%Z else line (state w3)).
Proof.
  intros H. unfold _token in H.
  apply bind_inr in H. destruct H as (s & w0 & E0 & H).
  unfold sol, bind, get_stream, ret in E0. inversion E0; subst s w0. clear E0.
  apply bind_inr in H. destruct H as (u & w1 & E0 & H).
  apply bind_inr in H. destruct H as (a & w2 & E1 & H).
  apply bind_inr in H. destruct H as (r' & w3 & E2 & H).
  exists (if Nat.eqb (pos (stream w)) 0 then (line (state w) + 1)%Z else line (state w)), a, w2, w3.
  split; [reflexivity |].
  assert (W1 : w1 = mkWorld (stream w)
         (mkState (stack (state w))
            (if Nat.eqb (pos (stream w)) 0 then (line (state w) + 1)%Z else line (state w))
            (openMarks (state w)) (marks (state w))) (heap w)).
  { destruct w as [s [stk l os ms] hp]. cbn [stream state heap stack line openMarks marks] in *.
    destruct (Nat.eqb (pos s) 0).
    - unfold _startNewLine, set_line, bind, get_state, set_state in E0. inversion E0. reflexivity.
    - unfold ret in E0. inversion E0. reflexivity. }
  subst w1. split; [exact E1 |].
  unfold sol, eol, set_line, bind, get_stream, get_state, set_state, ret in H.
  destruct (Nat.eqb (pos (stream w3)) 0 &&
            negb (match rest (stream w3) with [] => true | _ => false end)) eqn:X;
    inversion H; subst; cbn [stream state heap stack line openMarks marks];
    (split; [exact E2 |]); repeat split; reflexivity.
Qed.

Lemma good_eq b b' st st' hp :
  stack st' = stack st -> openMarks st' = openMarks st -> marks st' = marks st ->
  pos_le b b' -> good b st hp -> good b' st' hp.
Proof.
  intros E1 E2 E3 Hb G. apply good_mono with (b := b); [exact Hb |].
  unfold good. rewrite E1, E2, E3. exact G.
Qed.

Lemma ending_ok_eq w w' :
  stack (state w') = stack (state w) -> marks (state w') = marks (state w) ->
  heap w' = heap w -> rest (stream w') = rest (stream w) ->
  ending_ok w -> ending_ok w'.
Proof. unfold ending_ok. intros -> -> -> ->. auto. Qed.

(** A call of [token] by the editor keeps the invariant. *)
Lemma token_ok w r w' : Inv w -> _token w = inr (r, w') -> Inv (advance w').
Proof.
  intros (St & G & En) H.
  apply token_frame in H.
  destruct H as (L & a & w2 & w3 & EL & E1 & E2 & Es & Eh & Ek & Eo & Em & El).
  assert (C : call_post L (pos (stream w)) w3).
  { eapply token_body; [| | | exact E1 | exact E2].
    - repeat split; simpl; [exact St | lia].
    - eapply good_eq; [reflexivity | reflexivity | reflexivity | | exact G].
      unfold bound. subst L. destruct (pos (stream w)); simpl; apply pos_le_refl.
    - eapply ending_ok_eq; [| | | | exact En]; reflexivity. }
  destruct C as ((D1 & D2 & D3) & G3 & En3).
  split; [reflexivity |]. split.
  - cbn [advance state heap]. rewrite Eh.
    eapply good_eq; [exact Ek | exact Eo | exact Em | | exact G3].
    unfold bound. cbn [advance stream state next_token pos]. rewrite El, Es, D1.
    destruct (pos (stream w3)) as [| n]; simpl.
    + destruct (rest (stream w3)); simpl; pos_solve.
    + apply pos_le_refl.
  - eapply ending_ok_eq; [| | | | exact En3]; cbn [advance state heap stream next_token rest];
      congruence.
Qed.

(** ** The calls of the editor *)

Lemma ending_at_eol w :
  rest (stream w) = [] -> ending_ok w -> no_end_sequence (stack (state w)).
Proof.
  intros R En. destruct (@ending_cases _ En) as [Ne | (c & e & p & below & S)]; [exact Ne |].
  exfalso. unfold ending_ok in En. rewrite S, R in En. destruct En as (_ & P & _).
  destruct (nth c (cells (heap w)) 0) as [| [| [| [| i]]]]; try contradiction;
    destruct P as [t P].
  - discriminate P.
  - symmetry in P. apply app_eq_nil in P. destruct P as [_ P]. discriminate P.
  - discriminate P.
Qed.

Lemma bound_next_line w l :
  pos_le (bound w) (bound (mkWorld (StringStream l) (state w) (heap w))).
Proof. unfold bound. simpl. destruct (pos (stream w)); pos_solve. Qed.

Lemma next_line_ok w l :
  rest (stream w) = [] -> Inv w -> Inv (mkWorld (StringStream l) (state w) (heap w)).
Proof.
  intros R (St & G & En). split; [reflexivity |]. split.
  - eapply good_mono; [apply bound_next_line | exact G].
  - apply no_end_ending. exact (@ending_at_eol w R En).
Qed.

Lemma start_ok : Inv start_world.
Proof.
  split; [reflexivity |]. split; [| reflexivity].
  unfold good, start_world, startState, empty_heap. simpl.
  repeat split; try constructor; try (intros; contradiction).
Qed.

Lemma host_step_ok w w' : Inv w -> host_step w w' -> Inv w'.
Proof.
  intros I H. destruct H as [w r w' R H | w r w' R H | w l R Hl].
  - eapply token_ok; eassumption.
  - apply blankLine_inr in H. destruct H as (_ & r0 & H).
    eapply token_ok; [| exact H]. apply next_line_ok; assumption.
  - apply next_line_ok; assumption.
Qed.

Lemma reachable_ok w : Reachable w -> Inv w.
Proof.
  induction 1 as [| w w' _ IH H]; [exact start_ok | eapply host_step_ok; eassumption].
Qed.

(** ** The editor's calls, run *)

Lemma tokens_to_eol_reachable fuel : forall w w',
  Reachable w -> tokens_to_eol fuel w = Some w' -> Reachable w'.
Proof.
  induction fuel as [| fuel IH]; intros w w' R H; simpl in H.
  - destruct (rest (stream w)); [inversion H; subst; exact R | discriminate].
  - destruct (rest (stream w)) eqn:E; [inversion H; subst; exact R |].
    destruct (_token w) as [e | [r w1]] eqn:T; [discriminate |].
    eapply IH; [| exact H]. eapply reach_step; [exact R |].
    eapply step_token; [rewrite E; discriminate | exact T].
Qed.

Lemma host_lines_reachable ls : forall w w',
  Reachable w -> host_lines ls w = Some w' -> Reachable w'.
Proof.
  induction ls as [| l ls IH]; intros w w' R H; simpl in H.
  - inversion H; subst. exact R.
  - destruct (rest (stream w)) eqn:E; [| discriminate].
    destruct (host_line l w) as [w1 |] eqn:E1; [| discriminate].
    eapply IH; [| exact H]. clear H. unfold host_line in E1.
    destruct l as [| c l].
    + destruct (blankLine (state w) (heap w)) as [e | [r w2]] eqn:B; [discriminate |].
      inversion E1; subst. eapply reach_step; [exact R |].
      eapply step_blank; [exact E | exact B].
    + eapply tokens_to_eol_reachable; [| exact E1].
      eapply reach_step; [exact R |]. apply step_line; [exact E | discriminate].
Qed.

Lemma host_document_reachable ls w : host_document ls = Some w -> Reachable w.
Proof. apply host_lines_reachable. exact reach_start. Qed.

Lemma marks_extended_host w w' :
  host_step w w' -> exists new, marks (state w') = marks (state w) ++ new.
Proof.
  intros H. destruct H as [w r w' R H | w r w' R H | w l R Hl].
  - apply marks_extended_token in H. exact H.
  - apply blankLine_inr in H. destruct H as (_ & r0 & H).
    apply marks_extended_token in H. exact H.
  - exists []. simpl. rewrite app_nil_r. reflexivity.
Qed.

(** ** The order of the closed marks *)

(** C8.  In every state that the editor reaches, each of its calls appends
    the marks it closes to [state.marks], and the [to] positions and the
    [contentTo] positions of [state.marks] are weakly ascending. *)
Theorem marks_in_closing_order w :
  Reachable w ->
  (forall w', host_step w w' -> exists new, marks (state w') = marks (state w) ++ new) /\
  ascending (map to (marks (state w))) /\
  ascending (map contentTo (marks (state w))).
Proof.
  intros R. split; [intros w'; apply marks_extended_host |].
  apply reachable_ok in R. destruct R as (_ & G & _). destruct G as (Mk & _).
  destruct Mk as (_ & A1 & A2 & _). split; assumption.
Qed.

Lemma good_ordered m : good_mark m -> ordered_mark m.
Proof.
  intros (H1 & H2 & H3 & H4 & H5). unfold ordered_mark.
  repeat split; try assumption; try pos_solve.
Qed.

Lemma marks_in_closing_order_witness :
  Reachable (world_after section_and_math) /\
  List.length (marks (state (world_after section_and_math))) = 3 /\
  (forall w', host_step (world_after section_and_math) w' ->
     exists new, marks (state w') = marks (state (world_after section_and_math)) ++ new) /\
  ascending (map to (marks (state (world_after section_and_math)))) /\
  ascending (map contentTo (marks (state (world_after section_and_math)))).
Proof.
  assert (R : Reachable (world_after section_and_math)).
  { apply host_document_reachable with (ls := section_and_math). vm_compute. reflexivity. }
  split; [exact R |]. split; [vm_compute; reflexivity |].
  apply marks_in_closing_order. exact R.
Defined.

(** C2.  The line [\maketitle] leaves one closed mark, whose [contentFrom],
    column 10, is after its [contentTo], column 0: [_matchCommand] closes
    the mark with the position at which it opened it. *)
Theorem maketitle_inner_range_reversed :
  exists w m,
    host_document ["\maketitle"%string] = Some w /\ Reachable w /\
    marks (state w) = [m] /\
    outline m = ("maketitle"%string, mkPos 0 0, mkPos 0 10, mkPos 0 0, mkPos 0 10) /\
    pos_lt (contentTo m) (contentFrom m) /\
    ~ ordered_as_stated m.
Proof.
  eexists. eexists. split; [vm_compute; reflexivity |].
  split; [apply host_document_reachable with (ls := ["\maketitle"%string]); vm_compute; reflexivity |].
  split; [reflexivity |]. split; [reflexivity |].
  split; [right; simpl; lia |].
  intros (_ & _ & H & _). unfold pos_le in H. simpl in H. lia.
Qed.

(** Apart from that, the ranges of every closed mark are ordered in every
    state that the editor reaches: [from < to], [from <= contentFrom] and
    [contentTo <= to], and [contentFrom <= contentTo] unless the mark was
    made by [_matchCommand], which gives it [contentTo = from] and
    [contentFrom = to]. *)
Lemma closed_marks_ordered w :
  Reachable w -> Forall ordered_mark (marks (state w)).
Proof.
  intros R. apply reachable_ok in R. destruct R as (_ & G & _). destruct G as (Mk & _).
  destruct Mk as (Gm & _). eapply Forall_impl; [| exact Gm]. intros m. apply good_ordered.
Qed.


(** ** The number of an item *)

Lemma item_number_spec P k : forall mks,
  (forall l1 m l2, mks = l1 ++ m :: l2 ->
     same_object (openParent m) (Some P) = true ->
     forall m2, In m2 (m :: l2) -> pos_le (o_from P) (from m2)) ->
  item_number (rev mks) k (Some P) = inr (loop_number mks k P).
Proof.
  induction mks as [| x l IH] using rev_ind; intros C; [reflexivity |].
  assert (Cl : forall l1 m l2, l = l1 ++ m :: l2 ->
     same_object (openParent m) (Some P) = true ->
     forall m2, In m2 (m :: l2) -> pos_le (o_from P) (from m2)).
  { intros l1 m l2 E Hm m2 Hm2. apply (C l1 m (l2 ++ [x])); [| exact Hm |].
    - rewrite E, <- app_assoc. reflexivity.
    - change (m :: l2 ++ [x]) with ((m :: l2) ++ [x]). apply in_or_app. left. exact Hm2. }
  specialize (IH Cl).
  unfold loop_number in *. rewrite rev_unit, filter_app. cbn [item_number filter].
  destruct (pos_line (from x) <? pos_line (o_from P))%Z eqn:B; cbn [negb].
  - rewrite app_nil_r.
    destruct (find _ (rev (filter _ l))) as [m |] eqn:F; [| reflexivity].
    exfalso. apply find_some in F. destruct F as [Hin Hm].
    apply andb_prop in Hm. destruct Hm as [_ Hm].
    apply in_rev in Hin. apply filter_In in Hin. destruct Hin as [Hin _].
    apply in_split in Hin. destruct Hin as (l1 & l2 & ->).
    assert (Hx : pos_le (o_from P) (from x)).
    { apply (C l1 m (l2 ++ [x])); [rewrite <- app_assoc; reflexivity | exact Hm |].
      right. apply in_or_app. right. left. reflexivity. }
    apply Z.ltb_lt in B. unfold pos_le in Hx. lia.
  - rewrite rev_unit. cbn [find].
    destruct (String.eqb (kind x) k); cbn [andb]; [| exact IH].
    destruct (same_object (openParent x) (Some P)); cbn [negb]; [reflexivity | exact IH].
Qed.

Lemma list_env_marked e :
  In e all_environments -> tokenizer e = TkListContent -> is_marked e = true.
Proof.
  assert (H : forallb (fun e => match tokenizer e with
                                | TkListContent => is_marked e
                                | _ => true
                                end) all_environments = true) by (vm_compute; reflexivity).
  rewrite forallb_forall in H. intros Ie T. specialize (H e Ie). rewrite T in H. exact H.
Qed.

Lemma re_item_line rs n :
  re_item rs = Some n ->
  exists t, rs = js "\item" ++ t /\ 0 < n.
Proof.
  intros H. assert (Hn := re_item_pos _ H).
  unfold re_item in H. apply andThen_inv in H. destruct H as (k & m & H & _).
  apply lit_inv in H. exists (skipn k rs). split; assumption.
Qed.

Lemma item_token e below l P os ms hp rs n N :
  tokenizer e = TkListContent ->
  re_item rs = Some n ->
  item_number (rev ms) (item_kind P) (Some P) = inr N ->
  exists w' m,
    _token (mkWorld (mkStream 0 0 rs)
              (mkState (EnvironmentBody e :: below) l (P :: os) ms) hp) = inr (Some tag, w') /\
    marks (state w') = ms ++ [m] /\
    openMarks (state w') = P :: os /\
    kind m = item_kind P /\
    openParent m = Some P /\
    cp_kind (checkedProperties m) = Some (item_kind P) /\
    cp_number (checkedProperties m) = Some N.
Proof.
  intros T Hi HN.
  destruct (re_item_line _ Hi) as (t & E & Npos).
  assert (Hc : re_line_comment rs = None) by (rewrite E; reflexivity).
  assert (Hb : re_blank rs = None) by (rewrite E; reflexivity).
  assert (He : endPattern e rs = None) by (rewrite E; reflexivity).
  assert (Hr : match rs with [] => true | _ :: _ => false end = false) by (rewrite E; reflexivity).
  clear E. unfold item_kind in *.
  destruct n as [| n']; [lia |].
  eexists. eexists. split.
  - unfold _token, _matchLineComment, _startNewLine. munfold.
    unfold bind, ret, get_stream, get_state, set_state, set_stream.
    cbn [stream state heap stack line openMarks marks pos start rest Nat.eqb].
    rewrite Hc.
    cbn [call_top run_tokenizer stream state heap stack line openMarks marks pos start rest].
    rewrite T. cbn [env_tokenizer].
    unfold _matchListContent, orElse, _matchItemCommand, _matchBlankLine, _openMark, _closeMark,
      set_checkedProperties.
    munfold.
    unfold bind, ret, get_stream, get_state, set_state, set_stream, fresh_uid.
    destruct (allowBlankLines e);
      repeat (progress
        (cbn [negb stream state heap stack line openMarks marks pos start rest Nat.eqb hd_error
              tl consume cells next_uid o_kind o_from o_contentFrom];
         rewrite ?Hr, ?Hb, ?He, ?Hi, ?HN, ?set_last_snoc));
      cbn [Nat.add Nat.eqb andb stream pos];
      reflexivity.
  - cbn [state marks openMarks kind openParent checkedProperties cp_kind cp_number].
    repeat split.
Qed.

(** ** The closed and the open marks *)

Lemma sync_length b : forall stk opens,
  sync b stk opens -> List.length opens = List.length (filter owns_mark stk).
Proof.
  induction stk as [| t below IH]; intros opens S; [simpl in S; subst; reflexivity |].
  destruct t as [| d | | | | | e |]; cbn [sync] in S; cbn [filter owns_mark]; auto.
  - destruct d as [c sq cb | k p | k p |]; try (apply IH; apply S).
    destruct cb as [| e mp | e cp |]; try (apply IH; apply S).
    destruct cp as [p |].
    + destruct S as (_ & _ & o & os & -> & _ & _ & S). simpl. f_equal. apply IH. exact S.
    + apply IH. apply S.
  - destruct S as (o & os & -> & _ & _ & S). simpl. f_equal. apply IH. exact S.
  - destruct S as (_ & S). destruct (is_marked e).
    + destruct S as (o & os & -> & _ & _ & S). simpl. f_equal. apply IH. exact S.
    + apply IH. exact S.
Qed.

Lemma sync_nested b : forall stk opens,
  sync b stk opens -> ascending (map o_from (rev opens)).
Proof.
  assert (Own : forall opens o, above opens o ->
            ascending (map o_from (rev opens)) ->
            ascending (map o_from (rev (o :: opens)))).
  { intros opens o A H. simpl. rewrite map_app. simpl. apply ascending_snoc; [exact H |].
    intros y Hy. apply in_map_iff in Hy. destruct Hy as (o' & <- & Ho').
    apply A. apply in_rev. exact Ho'. }
  induction stk as [| t below IH]; intros opens S; [simpl in S; subst; exact I |].
  destruct t as [| d | | | | | e |]; cbn [sync] in S; auto.
  - destruct d as [c sq cb | k p | k p |]; try (apply IH; apply S).
    destruct cb as [| e mp | e cp |]; try (apply IH; apply S).
    destruct cp as [p |].
    + destruct S as (_ & _ & o & os & -> & A & _ & S). apply Own; [exact A | apply IH; exact S].
    + apply IH. apply S.
  - destruct S as (o & os & -> & A & _ & S). apply Own; [exact A | apply IH; exact S].
  - destruct S as (_ & S). destruct (is_marked e).
    + destruct S as (o & os & -> & A & _ & S). apply Own; [exact A | apply IH; exact S].
    + apply IH. exact S.
Qed.

(** X1.  In every state that the editor reaches, every closed mark begins
    strictly before its content, its content lies within it, and it ends at
    or before the cursor. *)
Theorem closed_marks_within_cursor w :
  Reachable w -> Forall (mark_within (bound w)) (marks (state w)).
Proof.
  intros R. apply reachable_ok in R. destruct R as (_ & G & _). destruct G as (Mk & _).
  destruct Mk as (Gm & _ & _ & B). rewrite Forall_forall in *.
  intros m Hm. specialize (Gm m Hm). specialize (B m Hm). cbv beta in B.
  destruct Gm as (H1 & H2 & H3 & H4 & _). repeat split; assumption.
Qed.

Lemma closed_marks_within_cursor_witness :
  Reachable (world_after section_and_math) /\
  List.length (marks (state (world_after section_and_math))) = 3 /\
  Forall (mark_within (bound (world_after section_and_math)))
         (marks (state (world_after section_and_math))).
Proof.
  assert (R : Reachable (world_after section_and_math)).
  { apply host_document_reachable with (ls := section_and_math). vm_compute. reflexivity. }
  split; [exact R |]. split; [vm_compute; reflexivity |].
  apply closed_marks_within_cursor. exact R.
Defined.

(** X2.  In every state that the editor reaches, every open mark begins strictly
    before its content, which begins at or before the cursor, and the open
    marks are nested: from the oldest to the innermost their starts are
    weakly ascending. *)
Theorem open_marks_nested w :
  Reachable w ->
  Forall (open_mark_within (bound w)) (openMarks (state w)) /\
  ascending (map o_from (rev (openMarks (state w)))).
Proof.
  intros R. apply reachable_ok in R. destruct R as (_ & G & _).
  destruct G as (_ & Go & Sy & _). split; [exact Go |].
  eapply sync_nested. exact Sy.
Qed.

Lemma open_marks_nested_witness :
  Reachable (world_after nested_marks) /\
  map o_kind (openMarks (state (world_after nested_marks))) =
    ["inline-math"; "caption"; "figure"]%string /\
  Forall (open_mark_within (bound (world_after nested_marks)))
         (openMarks (state (world_after nested_marks))) /\
  ascending (map o_from (rev (openMarks (state (world_after nested_marks))))).
Proof.
  assert (R : Reachable (world_after nested_marks)).
  { apply host_document_reachable with (ls := nested_marks). vm_compute. reflexivity. }
  split; [exact R |]. split; [vm_compute; reflexivity |].
  apply open_marks_nested. exact R.
Defined.

(** X3.  In every state that the editor reaches there are as many open marks as
    functions on the stack that have a mark open; in particular no mark is
    open when only the top-level function is on the stack. *)
Theorem open_marks_have_owners w :
  Reachable w ->
  List.length (openMarks (state w)) = List.length (filter owns_mark (stack (state w))) /\
  (stack (state w) = [TopLevel] -> openMarks (state w) = []).
Proof.
  intros R. apply reachable_ok in R. destruct R as (_ & G & _).
  destruct G as (_ & _ & Sy & _). apply sync_length in Sy. split; [exact Sy |].
  intros E. rewrite E in Sy. simpl in Sy. destruct (openMarks (state w)); [reflexivity | discriminate].
Qed.

Lemma open_marks_have_owners_witness :
  Reachable (world_after nested_marks) /\
  List.length (stack (state (world_after nested_marks))) = 4 /\
  List.length (openMarks (state (world_after nested_marks))) =
    List.length (filter owns_mark (stack (state (world_after nested_marks)))) /\
  (stack (state (world_after nested_marks)) = [TopLevel] ->
   openMarks (state (world_after nested_marks)) = []).
Proof.
  assert (R : Reachable (world_after nested_marks)).
  { apply host_document_reachable with (ls := nested_marks). vm_compute. reflexivity. }
  split; [exact R |]. split; [vm_compute; reflexivity |].
  apply open_marks_have_owners. exact R.
Defined.

(** ** Comments, verbatim text and the end of the document *)

Ltac token_eval :=
  unfold _token, _matchLineComment, _startNewLine; munfold;
  unfold bind, ret, get_stream, get_state, set_state, set_stream;
  cbn [stream state heap stack line openMarks marks pos start rest].

Lemma skip_all (s : Stream) : rest (consume s (List.length (rest s))) = [].
Proof. simpl. apply skipn_all. Qed.

Lemma comment_token w n :
  re_line_comment (rest (stream w)) = Some n ->
  exists w',
    _token w = inr (Some comment, w') /\
    unchanged w w' /\ rest (stream w') = [] /\
    pos (stream w) < pos (stream w').
Proof.
  intros H. destruct w as [[ps ss rs] [stk l os ms] hp].
  cbn [stream rest] in H.
  assert (Hn : 0 < n).
  { unfold re_line_comment in H. apply andThen_inv in H. destruct H as (k & m & _ & H & ->).
    apply lit_pos in H; [lia | discriminate]. }
  destruct (ps =? 0) eqn:E; (eexists; split;
    [ token_eval; rewrite E;
      cbn [stream state heap stack line openMarks marks pos start rest];
      rewrite H;
      cbn [stream state heap stack line openMarks marks pos start rest consume];
      (replace (ps + n + List.length (skipn n rs) =? 0) with false
         by (symmetry; apply Nat.eqb_neq; lia));
      cbn [andb]; reflexivity |]).
  all: cbn [stream state heap stack line openMarks marks pos start rest].
  all: cbn [consume stream pos rest start]; (split; [repeat split |]); (split; [| lia]).
  all: apply skipn_all2; rewrite length_skipn; lia.
Qed.

(** X4.  A line comment is found before the stack is looked at: whatever the
    state, also with an empty stack, [token] at [\s*%] returns [comment],
    consumes the rest of the line and leaves the stack, the marks and the
    heap as they are. *)
Theorem line_comment_first w n :
  re_line_comment (rest (stream w)) = Some n ->
  exists w',
    _token w = inr (Some comment, w') /\
    unchanged w w' /\ rest (stream w') = [] /\
    pos (stream w) < pos (stream w').
Proof. apply comment_token. Qed.

Lemma line_comment_first_witness :
  re_line_comment (rest (stream comment_line)) = Some 3 /\
  exists w',
    _token comment_line = inr (Some comment, w') /\
    unchanged comment_line w' /\ rest (stream w') = [] /\
    pos (stream comment_line) < pos (stream w').
Proof.
  split; [vm_compute; reflexivity |].
  apply (@line_comment_first comment_line 3). vm_compute. reflexivity.
Defined.

(** [_token] returns when the line comment and the function on top of the
    stack do; afterwards it only adjusts the line counter. *)
Lemma token_returns w a w2 r w3 :
  _matchLineComment
    (mkWorld (stream w)
       (mkState (stack (state w))
          (if Nat.eqb (pos (stream w)) 0 then (line (state w) + 1)%Z else line (state w))
          (openMarks (state w)) (marks (state w))) (heap w)) = inr (a, w2) ->
  match a with
  | Some r => ret (Some r)
  | None => st <- get_state ;; call_top EmptyStack (stack st)
  end w2 = inr (r, w3) ->
  exists w',
    _token w = inr (r, w') /\
    stream w' = stream w3 /\ heap w' = heap w3 /\
    stack (state w') = stack (state w3) /\
    openMarks (state w') = openMarks (state w3) /\
    marks (state w') = marks (state w3).
Proof.
  intros E1 E2. destruct w as [s [stk l os ms] hp].
  cbn [stream state heap stack line openMarks marks] in *.
  unfold _token, _startNewLine. munfold.
  unfold bind at 1. unfold bind at 1. unfold get_stream, ret at 1.
  cbn [stream state heap stack line openMarks marks].
  assert (W : (if Nat.eqb (pos s) 0
               then st <- get_state ;;
                    set_state (mkState (stack st) (line st + 1) (openMarks st) (marks st))
               else ret tt) (mkWorld s (mkState stk l os ms) hp) =
              inr (tt, mkWorld s (mkState stk (if Nat.eqb (pos s) 0 then (l + 1)%Z else l) os ms) hp)).
  { destruct (Nat.eqb (pos s) 0); reflexivity. }
  unfold bind at 1. rewrite W. unfold bind at 1. rewrite E1.
  unfold bind at 1. rewrite E2.
  unfold bind, get_stream, get_state, set_state, ret.
  destruct (Nat.eqb (pos (stream w3)) 0 &&
            negb match rest (stream w3) with [] => true | _ :: _ => false end);
    eexists; (split; [reflexivity |]); cbn [stream state heap stack line openMarks marks];
    repeat split; reflexivity.
Qed.

Lemma matchLineComment_none w :
  re_line_comment (rest (stream w)) = None -> _matchLineComment w = inr (None, w).
Proof.
  intros H. unfold _matchLineComment, stream_match, bind, get_stream, ret.
  rewrite H. reflexivity.
Qed.

(** X5.  Once [\end{document}] has been read, its function stays on top of the
    stack: every call of [token] returns [comment], consumes the rest of the
    line, and leaves the stack, the marks and the heap as they are. *)
Theorem after_end_document_absorbs w below :
  stack (state w) = AfterEndDocument :: below ->
  exists w',
    _token w = inr (Some comment, w') /\
    unchanged w w' /\ rest (stream w') = [].
Proof.
  intros S. destruct (re_line_comment (rest (stream w))) as [n |] eqn:C.
  - destruct (@comment_token w _ C) as (w' & H & U & R & _). exists w'. auto.
  - destruct w as [s [stk l os ms] hp]. cbn [stream state heap stack] in *. subst stk.
    edestruct (@token_returns (mkWorld s (mkState (AfterEndDocument :: below) l os ms) hp))
      as (w' & H & Hs & Hh & Hk & Ho & Hm).
    + apply matchLineComment_none. exact C.
    + cbn [stream state heap stack line openMarks marks].
      unfold bind, get_state. cbn [state stack call_top run_tokenizer].
      unfold stream_skipToEnd, bind, get_stream, set_stream, ret. reflexivity.
    + exists w'. split; [exact H |]. unfold unchanged.
      cbn [stream state heap stack line openMarks marks] in *.
      rewrite Hs, Hh, Hk, Ho, Hm. split; [repeat split |]. apply skipn_all.
Qed.

Lemma after_end_document_absorbs_witness :
  stack (state after_end_document) = [AfterEndDocument; TopLevel] /\
  exists w',
    _token after_end_document = inr (Some comment, w') /\
    unchanged after_end_document w' /\ rest (stream w') = [].
Proof.
  split; [vm_compute; reflexivity |].
  apply (@after_end_document_absorbs after_end_document [TopLevel]).
  vm_compute. reflexivity.
Defined.

Lemma ignored_environment_inert e :
  In e _IGNORED_ENVIRONMENTS ->
  allowBlankLines e = true /\
  (tokenizer e = TkVerbatim \/ tokenizer e = TkComment).
Proof.
  intros H. simpl in H.
  repeat (destruct H as [<- | H]; [split; [reflexivity | auto] |]). contradiction.
Qed.

Lemma verbatim_step (style : Style) s st hp :
  exists s',
    (m <- stream_match re_no_backslash true ;;
     (if m then ret tt else stream_next) ;;
     ret (Some style)) (mkWorld s st hp) = inr (Some style, mkWorld s' st hp) /\
    (rest s <> [] -> pos s < pos s').
Proof.
  unfold stream_match, stream_next, bind, get_stream, set_stream, ret.
  cbn [stream state heap].
  destruct (re_no_backslash (rest s)) as [n |] eqn:E; cbn [stream state heap].
  - eexists. split; [reflexivity |]. intros _. apply plus_pos in E. simpl. lia.
  - destruct (rest s) eqn:R; eexists; (split; [reflexivity |]).
    + intros C. contradiction.
    + intros _. simpl. lia.
Qed.

(** X6.  Inside [verbatim], [Verbatim], [lstlisting], [minted] and [comment],
    until [\end{name}] is at the cursor, [token] interprets nothing: it
    returns [string] or [comment], leaves the stack, the marks and the heap
    as they are, and moves the cursor when the line is not finished. *)
Theorem verbatim_is_inert w e below :
  stack (state w) = EnvironmentBody e :: below ->
  In e _IGNORED_ENVIRONMENTS ->
  endPattern e (rest (stream w)) = None ->
  exists r w',
    _token w = inr (Some r, w') /\
    (r = string_style \/ r = comment) /\
    unchanged w w' /\
    (rest (stream w) <> [] -> pos (stream w) < pos (stream w')).
Proof.
  intros S Ie He. destruct (re_line_comment (rest (stream w))) as [n |] eqn:C.
  - destruct (@comment_token w _ C) as (w' & H & U & _ & P). exists comment, w'. auto.
  - destruct (@ignored_environment_inert e Ie) as [Ab Tk].
    destruct w as [s [stk l os ms] hp]. cbn [stream state heap stack] in *. subst stk.
    set (L := if Nat.eqb (pos s) 0 then (l + 1)%Z else l).
    assert (Hr : exists r s',
               call_top EmptyStack (EnvironmentBody e :: below)
                 (mkWorld s (mkState (EnvironmentBody e :: below) L os ms) hp) =
               inr (Some r, mkWorld s' (mkState (EnvironmentBody e :: below) L os ms) hp) /\
               (r = string_style \/ r = comment) /\
               (rest s <> [] -> pos s < pos s')).
    { cbn [call_top run_tokenizer]. rewrite Ab. cbn [negb].
      unfold bind at 1. unfold ret at 1.
      unfold bind at 1. unfold stream_match at 1. unfold bind at 1. unfold get_stream at 1.
      cbn [stream state heap]. rewrite He. unfold ret at 1.
      destruct Tk as [-> | ->]; cbn [env_tokenizer].
      - destruct (@verbatim_step string_style s (mkState (EnvironmentBody e :: below) L os ms) hp)
          as (s' & E & P).
        exists string_style, s'. split; [exact E | auto].
      - destruct (@verbatim_step comment s (mkState (EnvironmentBody e :: below) L os ms) hp)
          as (s' & E & P).
        exists comment, s'. split; [exact E | auto]. }
    destruct Hr as (r & s' & E & Hr & P).
    edestruct (@token_returns (mkWorld s (mkState (EnvironmentBody e :: below) l os ms) hp))
      as (w' & H & Hs & Hh & Hk & Ho & Hm).
    + apply matchLineComment_none. exact C.
    + cbn [stream state heap stack line openMarks marks].
      unfold bind, get_state. cbn [state stack]. exact E.
    + exists r, w'. split; [exact H |]. split; [exact Hr |]. unfold unchanged.
      cbn [stream state heap stack line openMarks marks] in *.
      rewrite Hs, Hh, Hk, Ho, Hm. split; [repeat split | exact P].
Qed.

Lemma verbatim_is_inert_witness :
  stack (state in_verbatim) = [EnvironmentBody (ignored_environment "verbatim" TkVerbatim); TopLevel] /\
  exists r w',
    _token in_verbatim = inr (Some r, w') /\
    (r = string_style \/ r = comment) /\
    unchanged in_verbatim w' /\
    (rest (stream in_verbatim) <> [] -> pos (stream in_verbatim) < pos (stream w')).
Proof.
  split; [vm_compute; reflexivity |].
  apply (@verbatim_is_inert in_verbatim (ignored_environment "verbatim" TkVerbatim) [TopLevel]).
  - vm_compute. reflexivity.
  - left. reflexivity.
  - vm_compute. reflexivity.
Defined.

(** ** The stream only moves forward *)

Lemma consume_0 s : consume s 0 = s.
Proof. destruct s as [p st r]. unfold consume. simpl. rewrite Nat.add_0_r. reflexivity. Qed.

Lemma consume_consume s j k : consume (consume s j) k = consume s (j + k).
Proof.
  unfold consume. simpl. rewrite skipn_skipn, Nat.add_assoc.
  rewrite (Nat.add_comm k j). reflexivity.
Qed.

Lemma forward_preorder : preorder forward.
Proof.
  split.
  - intros w. split; [exists 0; symmetry; apply consume_0 | reflexivity].
  - intros a b c [[j S1] L1] [[k S2] L2]. split.
    + exists (j + k). rewrite S2, S1. apply consume_consume.
    + rewrite L2, L1. reflexivity.
Qed.

Lemma forward_same w w' :
  stream w' = stream w -> line (state w') = line (state w) -> forward w w'.
Proof. intros S L. split; [exists 0; rewrite S; symmetry; apply consume_0 | exact L]. Qed.

Lemma forward_consumed w w' k :
  stream w' = consume (stream w) k -> state w' = state w -> forward w w'.
Proof. intros S E. split; [exists k; exact S | rewrite E; reflexivity]. Qed.

Create HintDb forward_db.
#[local] Hint Resolve forward_preorder : forward_db.

Ltac forward_auto := respects_with ltac:(auto with forward_db).

Ltac forward_prim := intros w; prim_unfold; apply forward_same; reflexivity.

Lemma forward_set_stack f : respects forward (set_stack f).
Proof. forward_prim. Qed.

Lemma forward_set_openMarks f : respects forward (set_openMarks f).
Proof. forward_prim. Qed.

Lemma forward_set_marks f : respects forward (set_marks f).
Proof. forward_prim. Qed.

Lemma forward_new_cell v : respects forward (new_cell v).
Proof. forward_prim. Qed.

Lemma forward_write_cell c v : respects forward (write_cell c v).
Proof. forward_prim. Qed.

Lemma forward_fresh_uid : respects forward fresh_uid.
Proof. forward_prim. Qed.

Lemma forward_stream_match p c : respects forward (stream_match p c).
Proof.
  intros w. unfold stream_match. prim_unfold.
  destruct (p (rest (stream w))) as [n |]; [destruct c |]; simpl.
  - eapply forward_consumed; reflexivity.
  - apply forward_same; reflexivity.
  - apply forward_same; reflexivity.
Qed.

Lemma forward_stream_next : respects forward stream_next.
Proof.
  intros w. unfold stream_next. prim_unfold. destruct (rest (stream w)); simpl.
  - apply forward_same; reflexivity.
  - eapply forward_consumed; reflexivity.
Qed.

Lemma forward_stream_skipToEnd : respects forward stream_skipToEnd.
Proof. intros w. unfold stream_skipToEnd. prim_unfold. eapply forward_consumed; reflexivity. Qed.

Lemma forward_stream_skipTo c : respects forward (stream_skipTo c).
Proof.
  intros w. unfold stream_skipTo. prim_unfold. destruct (index_of c (rest (stream w))); simpl.
  - eapply forward_consumed; reflexivity.
  - apply forward_same; reflexivity.
Qed.

#[local] Hint Resolve forward_set_stack forward_set_openMarks forward_set_marks
  forward_new_cell forward_write_cell forward_fresh_uid forward_stream_match
  forward_stream_next forward_stream_skipToEnd forward_stream_skipTo : forward_db.
Lemma forward_sol : respects forward sol.
Proof. unfold sol. forward_auto. Qed.

Lemma forward_eol : respects forward eol.
Proof. unfold eol. forward_auto. Qed.

#[local] Hint Resolve forward_sol forward_eol : forward_db.

Lemma forward_stream_eat c : respects forward (stream_eat c).
Proof. unfold stream_eat. forward_auto. Qed.

Lemma forward_startPos : respects forward _startPos.
Proof. unfold _startPos. forward_auto. Qed.

Lemma forward_currentPos : respects forward _currentPos.
Proof. unfold _currentPos. forward_auto. Qed.

Lemma forward_defer d : respects forward (_defer d).
Proof. unfold _defer. forward_auto. Qed.

#[local] Hint Resolve forward_stream_eat forward_startPos forward_currentPos forward_defer : forward_db.

Lemma forward_openMark k p : respects forward (_openMark k p).
Proof. unfold _openMark. forward_auto. Qed.

Lemma forward_set_openMarksCount n : respects forward (set_openMarksCount n).
Proof. unfold set_openMarksCount. forward_auto. Qed.

Lemma forward_abandonMark : respects forward _abandonMark.
Proof. unfold _abandonMark. forward_auto. Qed.

Lemma forward_matchBlankLine : respects forward _matchBlankLine.
Proof. unfold _matchBlankLine. forward_auto. Qed.

#[local] Hint Resolve forward_openMark forward_set_openMarksCount forward_abandonMark forward_matchBlankLine : forward_db.

Lemma forward_closeMark p : respects forward (_closeMark p).
Proof. unfold _closeMark. forward_auto. Qed.

Lemma forward_set_checkedProperties f : respects forward (set_checkedProperties f).
Proof. unfold set_checkedProperties. forward_auto. Qed.

#[local] Hint Resolve forward_closeMark forward_set_checkedProperties : forward_db.

Lemma forward_run_callback cb : respects forward (run_callback cb).
Proof. destruct cb as [| e p | e p |]; simpl; forward_auto. Qed.

#[local] Hint Resolve forward_run_callback : forward_db.

Lemma forward_matchNext c sq cb : respects forward (_matchNext c sq cb).
Proof. unfold _matchNext. forward_auto. Qed.

#[local] Hint Resolve forward_matchNext : forward_db.

Lemma forward_matchSequence sq cb : respects forward (_matchSequence sq cb).
Proof. unfold _matchSequence. forward_auto. Qed.

#[local] Hint Resolve forward_matchSequence : forward_db.

Lemma forward_matchAndMark k p o os c cs ab im :
  respects forward (_matchAndMark k p o os c cs ab im).
Proof. unfold _matchAndMark. forward_auto. Qed.

Lemma forward_matchArgument o os c cs im : respects forward (_matchArgument o os c cs im).
Proof. unfold _matchArgument. forward_auto. Qed.

Lemma forward_matchGroup im : respects forward (_matchGroup im).
Proof. unfold _matchGroup. forward_auto. Qed.

Lemma forward_matchLineComment : respects forward _matchLineComment.
Proof. unfold _matchLineComment. forward_auto. Qed.

Lemma forward_matchTitleCommand : respects forward _matchTitleCommand.
Proof. unfold _matchTitleCommand. forward_auto. Qed.

Lemma forward_matchCommandWithArgument c : respects forward (_matchCommandWithArgument c).
Proof. unfold _matchCommandWithArgument. forward_auto. Qed.

#[local] Hint Resolve forward_matchAndMark forward_matchArgument forward_matchGroup forward_matchLineComment forward_matchTitleCommand forward_matchCommandWithArgument : forward_db.

Lemma forward_matchBibCommand : respects forward _matchBibCommand.
Proof. unfold _matchBibCommand, _bibCommands. simpl. forward_auto. Qed.

Lemma forward_matchItemCommand : respects forward _matchItemCommand.
Proof.
  unfold _matchItemCommand.
  repeat (intros;
    match goal with
    | |- respects _ (match item_number ?a ?b ?c with inl _ => _ | inr _ => _ end) =>
        let E := fresh "E" in
        destruct (item_number a b c) as [e' | n] eqn:E;
        [apply item_number_error in E; subst e'; apply respects_throw |]
    | |- respects _ (bind _ _) => apply respects_bind; [auto with forward_db | |]
    | |- respects _ (if ?b then _ else _) => destruct b
    | |- respects _ _ => cbv zeta; solve [auto with forward_db | forward_auto]
    end).
Qed.

Lemma forward_matchVerbCommand : respects forward _matchVerbCommand.
Proof.
  intros w. unfold _matchVerbCommand, _push. prim_unfold.
  destruct (re_verb (rest (stream w))) as [[n v] |]; simpl.
  - split; [exists n; reflexivity | reflexivity].
  - apply forward_same; reflexivity.
Qed.

Lemma forward_matchVerbatimEnvironment : respects forward _matchVerbatimEnvironment.
Proof. unfold _matchVerbatimEnvironment. forward_auto. Qed.

Lemma forward_matchCommentEnvironment : respects forward _matchCommentEnvironment.
Proof. unfold _matchCommentEnvironment. forward_auto. Qed.

#[local] Hint Resolve forward_matchBibCommand forward_matchItemCommand forward_matchVerbCommand forward_matchVerbatimEnvironment forward_matchCommentEnvironment : forward_db.

Lemma forward_begin_environment e : respects forward (begin_environment e).
Proof. unfold begin_environment, _matchBeginEnvironmentSequence. forward_auto. Qed.

#[local] Hint Resolve forward_begin_environment : forward_db.

Lemma forward_matchEnvironments envs : respects forward (_matchEnvironments envs).
Proof.
  unfold _matchEnvironments. induction envs as [| e envs IH]; simpl; forward_auto.
Qed.

Lemma forward_matchCommand p k : respects forward (_matchCommand p k).
Proof. unfold _matchCommand. forward_auto. Qed.

Lemma forward_matchOtherEnvironmentBeginOrEnd : respects forward _matchOtherEnvironmentBeginOrEnd.
Proof.
  unfold _matchOtherEnvironmentBeginOrEnd, _matchBeginEnvironmentSequence,
    _matchEndEnvironmentSequence. forward_auto.
Qed.

Lemma forward_matchOtherCommand : respects forward _matchOtherCommand.
Proof. unfold _matchOtherCommand. forward_auto. Qed.

#[local] Hint Resolve forward_matchEnvironments forward_matchCommand forward_matchOtherEnvironmentBeginOrEnd forward_matchOtherCommand : forward_db.

Lemma forward_matchSectioningCommand : respects forward _matchSectioningCommand.
Proof. unfold _matchSectioningCommand. forward_auto. Qed.

Lemma forward_matchDollarDollarMath : respects forward _matchDollarDollarMath.
Proof. unfold _matchDollarDollarMath. forward_auto. Qed.

Lemma forward_matchDollarMath : respects forward _matchDollarMath.
Proof. unfold _matchDollarMath. forward_auto. Qed.

Lemma forward_matchBracketMath : respects forward _matchBracketMath.
Proof. unfold _matchBracketMath. forward_auto. Qed.

Lemma forward_matchParenMath : respects forward _matchParenMath.
Proof. unfold _matchParenMath. forward_auto. Qed.

Lemma forward_matchEndDocument : respects forward _matchEndDocument.
Proof. unfold _matchEndDocument, _matchEndEnvironmentSequence. forward_auto. Qed.

Lemma forward_matchOther : respects forward _matchOther.
Proof. unfold _matchOther. forward_auto. Qed.

Lemma forward_matchOtherMath : respects forward _matchOtherMath.
Proof. unfold _matchOtherMath. forward_auto. Qed.

#[local] Hint Resolve forward_matchSectioningCommand forward_matchDollarDollarMath forward_matchDollarMath forward_matchBracketMath forward_matchParenMath forward_matchEndDocument forward_matchOther forward_matchOtherMath : forward_db.

Lemma forward_matchMath : respects forward _matchMath.
Proof. unfold _matchMath. forward_auto. Qed.

Lemma forward_matchText : respects forward _matchText.
Proof. unfold _matchText. forward_auto. Qed.

#[local] Hint Resolve forward_matchMath forward_matchText : forward_db.

Lemma forward_matchIncludeGraphics : respects forward _matchIncludeGraphics.
Proof. unfold _matchIncludeGraphics. forward_auto. Qed.

#[local] Hint Resolve forward_matchIncludeGraphics : forward_db.

Lemma forward_matchTikZ : respects forward _matchTikZ.
Proof. unfold _matchTikZ. forward_auto. Qed.

Lemma forward_matchFigureContent : respects forward _matchFigureContent.
Proof. unfold _matchFigureContent. forward_auto. Qed.

Lemma forward_matchListContent : respects forward _matchListContent.
Proof. unfold _matchListContent. forward_auto. Qed.

Lemma forward_topLevel : respects forward _topLevel.
Proof. unfold _topLevel. forward_auto. Qed.

#[local] Hint Resolve forward_matchTikZ forward_matchFigureContent forward_matchListContent forward_topLevel : forward_db.

Lemma forward_inner_mode im : respects forward (inner_mode im).
Proof. destruct im; simpl; auto with forward_db. Qed.

Lemma forward_env_tokenizer t : respects forward (env_tokenizer t).
Proof. destruct t; simpl; auto with forward_db. Qed.

Lemma forward_deferred_call d : respects forward (deferred_call d).
Proof.
  destruct d; simpl; unfold _matchAndMarkRequiredArgument,
    _matchAndMarkOptionalArgument, _matchOptionalArgument; auto with forward_db.
Qed.

Lemma forward_lookahead_any ab : respects forward (lookahead_any ab).
Proof. induction ab; simpl; forward_auto. Qed.

#[local] Hint Resolve forward_inner_mode forward_env_tokenizer forward_deferred_call forward_lookahead_any : forward_db.

Lemma forward_pop : respects forward _pop.
Proof. unfold _pop. auto with forward_db. Qed.

#[local] Hint Resolve forward_pop : forward_db.

Lemma forward_run_tokenizer t k :
  respects forward k -> respects forward (run_tokenizer t k).
Proof.
  intros Hk. destruct t; simpl; unfold _matchEndEnvironmentSequence; forward_auto.
Qed.

Lemma forward_call_top stk : forall fault, fault = TypeError \/ stk <> [] ->
  respects forward (call_top fault stk).
Proof.
  induction stk as [| t below IH]; intros fault Hf; simpl.
  - destruct Hf as [-> | C]; [apply respects_throw | contradiction].
  - apply forward_run_tokenizer. apply respects_bind; [auto with forward_db .. |].
    intros _. destruct below as [| t' below'].
    + apply respects_throw.
    + apply IH. right. discriminate.
Qed.

Lemma token_forward w r w' :
  _token w = inr (r, w') ->
  (exists k, stream w' = consume (stream w) k) /\
  line (state w') =
    (if line_started w w' then (line (state w) + 1)%Z else line (state w)).
Proof.
  intros H. apply token_frame in H.
  destruct H as (L & a & w2 & w3 & EL & E1 & E2 & Es & Eh & Ek & Eo & Em & El).
  apply (respects_inr _ forward_matchLineComment) in E1.
  destruct E1 as [[k1 S1] L1]. cbn [stream state line] in S1, L1.
  assert (F : forward w2 w3).
  { destruct a as [x |].
    - apply ret_inr in E2. destruct E2 as [_ <-]. apply forward_preorder.
    - apply bind_inr in E2. destruct E2 as (st & w4 & E3 & E2).
      unfold get_state in E3. inversion E3; subst st w4. clear E3.
      eapply respects_inr; [| exact E2].
      apply forward_call_top. right. intros C. rewrite C in E2. discriminate E2. }
  destruct F as [[k2 S2] L2].
  assert (S3 : stream w' = consume (stream w) (k1 + k2)).
  { rewrite Es, S2, S1. apply consume_consume. }
  split; [exists (k1 + k2); exact S3 |].
  assert (P3 : pos (stream w3) = pos (stream w) + (k1 + k2)).
  { rewrite <- Es, S3. reflexivity. }
  rewrite El, L2, L1. unfold line_started. rewrite Es. subst L.
  destruct (pos (stream w)) as [| p]; destruct (pos (stream w3)) as [| p3];
    destruct (rest (stream w3)); cbn [Nat.eqb andb negb]; lia.
Qed.

(** X7.  Whatever the state, a call of [token] that returns has consumed
    characters of the line and has done nothing else to the stream, and has
    added one to the line counter exactly if it began at the start of a
    line and did not leave the stream at the start of an unfinished line. *)
Theorem token_moves_forward w r w' :
  _token w = inr (r, w') ->
  (exists k, stream w' = consume (stream w) k) /\
  line (state w') =
    (if line_started w w' then (line (state w) + 1)%Z else line (state w)).
Proof. apply token_forward. Qed.

(** ** The line counter *)

Lemma token_line_at L w r w' :
  rest (stream w) <> [] -> line_at L w -> _token w = inr (r, w') ->
  line_at L (advance w').
Proof.
  intros Hr J H. apply token_forward in H. destruct H as [[k S] Hl].
  unfold line_at in *. cbn [advance stream state next_token rest pos].
  rewrite Hl. unfold line_started.
  assert (P : pos (stream w') = pos (stream w) + k) by (rewrite S; reflexivity).
  destruct (rest (stream w)) as [| c rs]; [contradiction |].
  destruct (pos (stream w)) as [| p]; destruct (pos (stream w')) as [| p'];
    destruct (rest (stream w')); cbn [Nat.eqb andb negb]; lia.
Qed.

Lemma tokens_to_eol_line L fuel : forall w w',
  line_at L w -> tokens_to_eol fuel w = Some w' ->
  line (state w') = L /\ rest (stream w') = [].
Proof.
  induction fuel as [| fuel IH]; intros w w' J H; simpl in H.
  - unfold line_at in J. destruct (rest (stream w)) eqn:E; [| discriminate].
    injection H as <-. split; [exact J | exact E].
  - destruct (rest (stream w)) eqn:E.
    + injection H as <-. unfold line_at in J. rewrite E in J. split; [exact J | exact E].
    + destruct (_token w) as [e | [r w1]] eqn:T; [discriminate |].
      apply (IH (advance w1)); [| exact H].
      eapply token_line_at; [rewrite E; discriminate | exact J | exact T].
Qed.

Lemma blank_line_counted st h r w' :
  blankLine st h = inr (r, w') ->
  line (state w') = (line st + 1)%Z /\ rest (stream w') = [].
Proof.
  intros H. apply blankLine_inr in H. destruct H as (_ & r0 & H). apply token_forward in H.
  destruct H as [[k S] Hl]. unfold line_started in Hl. rewrite S in *.
  cbn [stream state line consume StringStream rest pos] in *.
  rewrite skipn_nil in *. cbn [Nat.eqb andb negb] in Hl.
  rewrite andb_false_r in Hl. split; [exact Hl | reflexivity].
Qed.

Lemma host_lines_line ls : forall w w',
  rest (stream w) = [] -> host_lines ls w = Some w' ->
  line (state w') = (line (state w) + Z.of_nat (List.length ls))%Z /\
  rest (stream w') = [].
Proof.
  induction ls as [| l ls IH]; intros w w' E H; simpl in H.
  - inversion H; subst. split; [simpl; lia | exact E].
  - rewrite E in H.
    destruct (host_line l w) as [w1 |] eqn:E1; [| discriminate].
    assert (L1 : line (state w1) = (line (state w) + 1)%Z /\ rest (stream w1) = []).
    { unfold host_line in E1. destruct l as [| c l].
      - destruct (blankLine (state w) (heap w)) as [e | [r w2]] eqn:B; [discriminate |].
        inversion E1; subst. apply blank_line_counted in B. exact B.
      - eapply tokens_to_eol_line; [| exact E1]. unfold line_at. simpl. lia. }
    destruct L1 as [L1 R1]. destruct (IH w1 w' R1 H) as [L2 R2].
    split; [| exact R2]. rewrite L2, L1. cbn [List.length]. lia.
Qed.

(** ** A blank line only pops *)

Lemma skipn_tl {A} k (l : list A) : skipn k (tl l) = skipn (S k) l.
Proof. destruct l; [destruct k; reflexivity | reflexivity]. Qed.

Lemma call_top_blank_pops stk : forall fault l os ms h r w',
  heap_ok stk h ->
  call_top fault stk (blank_world (mkState stk l os ms) h) = inr (r, w') ->
  exists j k, w' = blank_world (mkState (skipn j stk) l (skipn k os) ms) h.
Proof.
  induction stk as [| t below IH]; intros fault l os ms h r w' Hp H.
  - discriminate H.
  - assert (Hb := heap_ok_tl Hp).
    assert (Rec : forall os' r' w'',
              call_top TypeError below (blank_world (mkState below l os' ms) h) = inr (r', w'') ->
              (os' = os \/ os' = tl os) ->
              exists j k, w'' = blank_world (mkState (skipn j (t :: below)) l (skipn k os) ms) h).
    { intros os' r' w'' H' Ho. destruct (IH _ _ _ _ _ _ _ Hb H') as (j & k & ->).
      exists (S j). destruct Ho as [-> | ->]; [exists k; reflexivity |].
      exists (S k). rewrite skipn_tl. reflexivity. }
    destruct t as [| d | close cs ab im | close cs im | im | v | e |].
    + exists 0, 0. simpl in H. inversion H. reflexivity.
    + destruct d as [c sq cb | kd p | kd p |].
      * apply heap_ok_popped in Hp. destruct Hp as (_ & _ & Hv).
        exists 1, 0. cbn [call_top run_tokenizer deferred_call] in H.
        unfold _matchNext, _pop, set_stack, read_cell, stream_match, blank_world in H.
        unfold bind, get_state, set_state, get_stream, ret in H.
        cbn [stream state heap stack line openMarks marks rest StringStream tl] in H.
        destruct (nth c (cells h) 0) as [| [| [| [| i]]]]; try lia;
          destruct sq; simpl in H; inversion H; reflexivity.
      * exists 1, 0. simpl in H. inversion H. reflexivity.
      * exists 1, 0. simpl in H. inversion H. reflexivity.
      * exists 1, 0. simpl in H. inversion H. reflexivity.
    + simpl in H. eapply Rec; [exact H | right; reflexivity].
    + exists 1, 0. simpl in H. inversion H. reflexivity.
    + exists 0, 0. destruct im; simpl in H; inversion H; reflexivity.
    + exists 0, 0. simpl in H. inversion H. reflexivity.
    + destruct e as [n tk k a s]. destruct a.
      * exists 0, 0. destruct tk; simpl in H; inversion H; reflexivity.
      * destruct k; simpl in H;
          (eapply Rec; [exact H | first [right; reflexivity | left; reflexivity]]).
    + exists 0, 0. simpl in H. inversion H. reflexivity.
Qed.

(** X9.  In every state that the editor reaches, a call of [blankLine] only
    pops: it leaves the closed marks and the heap as they are, adds one to
    the line counter, and leaves a suffix of the stack and a suffix of the
    open marks. *)
Theorem blank_line_only_pops w r w' :
  Reachable w ->
  blankLine (state w) (heap w) = inr (r, w') ->
  marks (state w') = marks (state w) /\
  heap w' = heap w /\
  line (state w') = (line (state w) + 1)%Z /\
  (exists j, stack (state w') = skipn j (stack (state w))) /\
  (exists k, openMarks (state w') = skipn k (openMarks (state w))).
Proof.
  intros R H. apply reachable_ok in R. destruct R as (_ & G & _).
  destruct G as (_ & _ & _ & Hp & _).
  destruct w as [s [stk l os ms] h]. cbn [state heap stack line openMarks marks] in *.
  rewrite blankLine_unfold in H.
  destruct (call_top EmptyStack stk (blank_world (mkState stk (l + 1) os ms) h))
    as [e | [r1 w1]] eqn:E; [discriminate |].
  apply call_top_blank_pops in E; [| exact Hp]. destruct E as (j & k & ->).
  simpl in H. inversion H; subst. simpl.
  split; [reflexivity |]. split; [reflexivity |]. split; [reflexivity |].
  split; [exists j | exists k]; reflexivity.
Qed.

(** ** No call fails *)

Lemma returns_ret {A} (a : A) : returns (ret a).
Proof. intros w. exists a, w. reflexivity. Qed.

Lemma returns_bind {A B} (m : M A) (f : A -> M B) :
  returns m -> (forall a, returns (f a)) -> returns (bind m f).
Proof.
  intros Hm Hf w. destruct (Hm w) as (a & w1 & E). destruct (Hf a w1) as (b & w2 & E2).
  exists b, w2. unfold bind. rewrite E. exact E2.
Qed.

Lemma returns_orElse (a b : M (option Style)) : returns a -> returns b -> returns (a ||| b).
Proof.
  intros Ha Hb. unfold orElse. apply returns_bind; [exact Ha |].
  intros [s |]; [apply returns_ret | exact Hb].
Qed.

Ltac returns_with solver :=
  repeat (intros;
    match goal with
    | |- returns (bind _ _) => apply returns_bind
    | |- returns (ret _) => apply returns_ret
    | |- returns (_ ||| _) => apply returns_orElse
    | |- returns (if ?b then _ else _) => destruct b
    | |- returns (match ?x with Some _ => _ | None => _ end) => destruct x
    | |- returns (match ?x with [] => _ | _ :: _ => _ end) => destruct x
    | |- returns (let (_, _) := ?x in _) => destruct x
    | |- returns _ => solve [solver]
    end).

Create HintDb returns_db.

Ltac returns_auto := returns_with ltac:(auto with returns_db).

Ltac returns_prim := intros w; prim_unfold; eexists; eexists; reflexivity.

Lemma returns_get_stream : returns get_stream.
Proof. returns_prim. Qed.

Lemma returns_get_state : returns get_state.
Proof. returns_prim. Qed.

Lemma returns_set_stream s : returns (set_stream s).
Proof. returns_prim. Qed.

Lemma returns_set_stack f : returns (set_stack f).
Proof. returns_prim. Qed.

Lemma returns_set_openMarks f : returns (set_openMarks f).
Proof. returns_prim. Qed.

Lemma returns_set_marks f : returns (set_marks f).
Proof. returns_prim. Qed.

Lemma returns_new_cell v : returns (new_cell v).
Proof. returns_prim. Qed.

Lemma returns_read_cell c : returns (read_cell c).
Proof. returns_prim. Qed.

Lemma returns_write_cell c v : returns (write_cell c v).
Proof. returns_prim. Qed.

Lemma returns_fresh_uid : returns fresh_uid.
Proof. returns_prim. Qed.

#[local] Hint Resolve returns_get_stream returns_get_state returns_set_stream
  returns_set_stack returns_set_openMarks returns_set_marks returns_new_cell
  returns_read_cell returns_write_cell returns_fresh_uid : returns_db.

Lemma returns_stream_match p c : returns (stream_match p c).
Proof. unfold stream_match. returns_auto. Qed.

Lemma returns_stream_next : returns stream_next.
Proof. unfold stream_next. returns_auto. Qed.

Lemma returns_stream_skipToEnd : returns stream_skipToEnd.
Proof. unfold stream_skipToEnd. returns_auto. Qed.

Lemma returns_stream_skipTo c : returns (stream_skipTo c).
Proof. unfold stream_skipTo. returns_auto. Qed.

Lemma returns_push t : returns (_push t).
Proof. unfold _push. returns_auto. Qed.

Lemma returns_pop : returns _pop.
Proof. unfold _pop. returns_auto. Qed.

#[local] Hint Resolve returns_stream_match returns_stream_next returns_stream_skipToEnd
  returns_stream_skipTo returns_push returns_pop : returns_db.

(** A sequence begins with its counter at zero, so that its first call
    never runs the callback. *)
Lemma returns_matchSequence sq cb : returns (_matchSequence sq cb).
Proof.
  intros w. unfold _matchSequence, _matchNext, new_cell, read_cell, write_cell, _defer, _push,
    set_stack, stream_match.
  unfold bind, get_stream, get_state, set_state, set_stream, ret.
  cbn [stream state heap cells]. rewrite nth_middle.
  destruct (sequence_pattern sq 0 (rest (stream w))); eexists; eexists; reflexivity.
Qed.

Lemma returns_matchCommand p k : returns (_matchCommand p k).
Proof.
  intros w. unfold _matchCommand, _openMark, _closeMark, _startPos, _currentPos,
    set_openMarks, set_marks, stream_match, fresh_uid.
  unfold bind, get_stream, get_state, set_state, set_stream, ret.
  cbn [stream state heap]. destruct (p (rest (stream w))); eexists; eexists; reflexivity.
Qed.

#[local] Hint Resolve returns_matchSequence returns_matchCommand : returns_db.
Lemma returns_sol : returns sol.
Proof. unfold sol. returns_auto. Qed.

Lemma returns_eol : returns eol.
Proof. unfold eol. returns_auto. Qed.

#[local] Hint Resolve returns_sol returns_eol : returns_db.

Lemma returns_stream_eat c : returns (stream_eat c).
Proof. unfold stream_eat. returns_auto. Qed.

Lemma returns_startPos : returns _startPos.
Proof. unfold _startPos. returns_auto. Qed.

Lemma returns_currentPos : returns _currentPos.
Proof. unfold _currentPos. returns_auto. Qed.

Lemma returns_defer d : returns (_defer d).
Proof. unfold _defer. returns_auto. Qed.

#[local] Hint Resolve returns_stream_eat returns_startPos returns_currentPos returns_defer : returns_db.

Lemma returns_openMark k p : returns (_openMark k p).
Proof. unfold _openMark. returns_auto. Qed.

Lemma returns_set_openMarksCount n : returns (set_openMarksCount n).
Proof. unfold set_openMarksCount. returns_auto. Qed.

Lemma returns_abandonMark : returns _abandonMark.
Proof. unfold _abandonMark. returns_auto. Qed.

Lemma returns_matchBlankLine : returns _matchBlankLine.
Proof. unfold _matchBlankLine. returns_auto. Qed.

#[local] Hint Resolve returns_openMark returns_set_openMarksCount returns_abandonMark returns_matchBlankLine : returns_db.

Lemma returns_matchAndMark k p o os c cs ab im :
  returns (_matchAndMark k p o os c cs ab im).
Proof. unfold _matchAndMark. returns_auto. Qed.

Lemma returns_matchArgument o os c cs im : returns (_matchArgument o os c cs im).
Proof. unfold _matchArgument. returns_auto. Qed.

Lemma returns_matchGroup im : returns (_matchGroup im).
Proof. unfold _matchGroup. returns_auto. Qed.

Lemma returns_matchLineComment : returns _matchLineComment.
Proof. unfold _matchLineComment. returns_auto. Qed.

Lemma returns_matchTitleCommand : returns _matchTitleCommand.
Proof. unfold _matchTitleCommand. returns_auto. Qed.

Lemma returns_matchCommandWithArgument c : returns (_matchCommandWithArgument c).
Proof. unfold _matchCommandWithArgument. returns_auto. Qed.

#[local] Hint Resolve returns_matchAndMark returns_matchArgument returns_matchGroup returns_matchLineComment returns_matchTitleCommand returns_matchCommandWithArgument : returns_db.

Lemma returns_matchBibCommand : returns _matchBibCommand.
Proof. unfold _matchBibCommand, _bibCommands. simpl. returns_auto. Qed.

Lemma returns_matchVerbCommand : returns _matchVerbCommand.
Proof. unfold _matchVerbCommand. returns_auto. Qed.

#[local] Hint Resolve returns_matchVerbCommand : returns_db.

Lemma returns_matchVerbatimEnvironment : returns _matchVerbatimEnvironment.
Proof. unfold _matchVerbatimEnvironment. returns_auto. Qed.

Lemma returns_matchCommentEnvironment : returns _matchCommentEnvironment.
Proof. unfold _matchCommentEnvironment. returns_auto. Qed.

#[local] Hint Resolve returns_matchBibCommand returns_matchVerbatimEnvironment returns_matchCommentEnvironment : returns_db.

Lemma returns_begin_environment e : returns (begin_environment e).
Proof. unfold begin_environment, _matchBeginEnvironmentSequence. returns_auto. Qed.

#[local] Hint Resolve returns_begin_environment : returns_db.

Lemma returns_matchEnvironments envs : returns (_matchEnvironments envs).
Proof.
  unfold _matchEnvironments. induction envs as [| e envs IH]; simpl; returns_auto.
Qed.

Lemma returns_matchOtherEnvironmentBeginOrEnd : returns _matchOtherEnvironmentBeginOrEnd.
Proof.
  unfold _matchOtherEnvironmentBeginOrEnd, _matchBeginEnvironmentSequence,
    _matchEndEnvironmentSequence. returns_auto.
Qed.

Lemma returns_matchOtherCommand : returns _matchOtherCommand.
Proof. unfold _matchOtherCommand. returns_auto. Qed.

#[local] Hint Resolve returns_matchEnvironments returns_matchOtherEnvironmentBeginOrEnd returns_matchOtherCommand : returns_db.

Lemma returns_matchSectioningCommand : returns _matchSectioningCommand.
Proof. unfold _matchSectioningCommand. returns_auto. Qed.

Lemma returns_matchDollarDollarMath : returns _matchDollarDollarMath.
Proof. unfold _matchDollarDollarMath. returns_auto. Qed.

Lemma returns_matchDollarMath : returns _matchDollarMath.
Proof. unfold _matchDollarMath. returns_auto. Qed.

Lemma returns_matchBracketMath : returns _matchBracketMath.
Proof. unfold _matchBracketMath. returns_auto. Qed.

Lemma returns_matchParenMath : returns _matchParenMath.
Proof. unfold _matchParenMath. returns_auto. Qed.

Lemma returns_matchEndDocument : returns _matchEndDocument.
Proof. unfold _matchEndDocument, _matchEndEnvironmentSequence. returns_auto. Qed.

Lemma returns_matchOther : returns _matchOther.
Proof. unfold _matchOther. returns_auto. Qed.

Lemma returns_matchOtherMath : returns _matchOtherMath.
Proof. unfold _matchOtherMath. returns_auto. Qed.

#[local] Hint Resolve returns_matchSectioningCommand returns_matchDollarDollarMath returns_matchDollarMath returns_matchBracketMath returns_matchParenMath returns_matchEndDocument returns_matchOther returns_matchOtherMath : returns_db.

Lemma returns_matchMath : returns _matchMath.
Proof. unfold _matchMath. returns_auto. Qed.

Lemma returns_matchText : returns _matchText.
Proof. unfold _matchText. returns_auto. Qed.

#[local] Hint Resolve returns_matchMath returns_matchText : returns_db.

Lemma returns_matchIncludeGraphics : returns _matchIncludeGraphics.
Proof. unfold _matchIncludeGraphics. returns_auto. Qed.

#[local] Hint Resolve returns_matchIncludeGraphics : returns_db.

Lemma returns_matchTikZ : returns _matchTikZ.
Proof. unfold _matchTikZ. returns_auto. Qed.

Lemma returns_matchFigureContent : returns _matchFigureContent.
Proof. unfold _matchFigureContent. returns_auto. Qed.

Lemma returns_topLevel : returns _topLevel.
Proof. unfold _topLevel. returns_auto. Qed.

#[local] Hint Resolve returns_matchTikZ returns_matchFigureContent returns_topLevel : returns_db.

Lemma returns_inner_mode im : returns (inner_mode im).
Proof. destruct im; simpl; auto with returns_db. Qed.

Lemma returns_lookahead_any ab : returns (lookahead_any ab).
Proof. induction ab; simpl; returns_auto. Qed.

#[local] Hint Resolve returns_inner_mode returns_lookahead_any : returns_db.

(** What can fail: closing a mark when none is open. *)
Lemma closeMark_returns p w :
  openMarks (state w) <> [] -> exists m w', _closeMark p w = inr (m, w').
Proof.
  intros H. unfold _closeMark, set_openMarks, set_marks, _currentPos.
  unfold bind, get_stream, get_state, set_state, ret.
  destruct (openMarks (state w)) as [| o os]; [contradiction |].
  eexists. eexists. reflexivity.
Qed.

Lemma item_number_returns older k l : exists n, item_number older k (Some l) = inr n.
Proof.
  induction older as [| m older IH]; simpl; [eexists; reflexivity |].
  destruct (pos_line (from m) <? pos_line (o_from l))%Z; [eexists; reflexivity |].
  destruct (String.eqb (kind m) k); [| exact IH].
  destruct (negb _); [exact IH | eexists; reflexivity].
Qed.

Lemma matchItemCommand_returns w :
  openMarks (state w) <> [] -> exists r w', _matchItemCommand w = inr (r, w').
Proof.
  intros H. destruct w as [s [stk l os ms] hp]. cbn [state openMarks] in H.
  destruct os as [| o os]; [contradiction |].
  unfold _matchItemCommand, _openMark, _closeMark, set_checkedProperties, sol, stream_match,
    _startPos, _currentPos, set_openMarks, set_marks, fresh_uid.
  unfold bind, get_stream, get_state, set_state, set_stream, ret.
  cbn [stream state heap stack line openMarks marks hd_error].
  destruct (pos s =? 0); cbn [stream state heap stack line openMarks marks];
    [| eexists; eexists; reflexivity].
  destruct (re_item (rest s)); cbn [stream state heap stack line openMarks marks hd_error tl];
    [| eexists; eexists; reflexivity].
  match goal with
  | |- context [item_number ?a ?b (Some o)] =>
      let x := fresh "x" in destruct (item_number_returns a b o) as [x ->]
  end.
  eexists. eexists. reflexivity.
Qed.

Lemma env_tokenizer_returns t w :
  (t = TkListContent -> openMarks (state w) <> []) ->
  exists r w', env_tokenizer t w = inr (r, w').
Proof.
  intros H. destruct t; cbn [env_tokenizer];
    try (apply returns_matchVerbatimEnvironment || apply returns_matchCommentEnvironment
         || apply returns_matchMath || apply returns_matchText
         || apply returns_matchFigureContent || apply returns_matchTikZ).
  unfold _matchListContent, orElse, bind.
  destruct (matchItemCommand_returns w (H eq_refl)) as (r & w1 & ->).
  destruct r as [x |]; [eexists; eexists; reflexivity | apply returns_matchText].
Qed.

Lemma returns_set_checkedProperties f : returns (set_checkedProperties f).
Proof. unfold set_checkedProperties. returns_auto. Qed.

Lemma run_callback_returns cb w :
  (closes_mark cb = true -> openMarks (state w) <> []) ->
  exists u w', run_callback cb w = inr (u, w').
Proof.
  intros H. destruct cb as [| e mp | e cp |].
  - apply returns_ret.
  - assert (R : returns (run_callback (CbBeginEnvironment e mp)))
      by (simpl; returns_auto).
    apply R.
  - cbn [run_callback closes_mark] in *. unfold is_marked in H.
    destruct (env_kind e) as [k |]; [| apply returns_ret].
    destruct cp as [p |]; [| apply returns_ret].
    destruct (closeMark_returns p w (H eq_refl)) as (m & w1 & E).
    unfold bind at 1. rewrite E.
    assert (R : forall f, returns (st <- get_state ;; set_checkedProperties (f st))).
    { intros f. apply returns_bind; [apply returns_get_state |].
      intros st. apply returns_set_checkedProperties. }
    apply (R (fun st m' =>
             let c := checkedProperties m' in
             mkChecked (cp_kind c) (cp_number c)
               (Some (Z.of_nat (List.length (openMarks st))))
               (Some (pos_line (from m))) (Some (pos_line (to m))))).
  - apply returns_push.
Qed.

Lemma matchNext_returns c sq cb w :
  (closes_mark cb = true -> openMarks (state w) <> []) ->
  exists r w', _matchNext c sq cb w = inr (r, w').
Proof.
  intros H. unfold _matchNext, read_cell, write_cell, stream_match.
  unfold bind at 1 2 3. unfold get_stream at 1. unfold ret at 1.
  cbn [stream state heap].
  destruct (sequence_pattern sq (nth c (cells (heap w)) 0) (rest (stream w))) as [n |];
    [| eexists; eexists; reflexivity].
  unfold bind, set_stream, ret. cbn [stream state heap].
  destruct (nth c (cells (heap w)) 0 + 1 <? 4).
  - eexists. eexists. reflexivity.
  - match goal with
    | |- context [run_callback cb ?W] =>
        destruct (run_callback_returns cb W H) as (u & w1 & ->)
    end.
    eexists. eexists. reflexivity.
Qed.

Lemma deferred_call_returns d w :
  (forall c sq cb, d = DMatchNext c sq cb -> closes_mark cb = true ->
     openMarks (state w) <> []) ->
  exists r w', deferred_call d w = inr (r, w').
Proof.
  intros H. destruct d as [c sq cb | k p | k p |]; cbn [deferred_call].
  - apply matchNext_returns. apply (H c sq cb eq_refl).
  - apply returns_matchAndMark.
  - apply returns_matchAndMark.
  - apply returns_matchArgument.
Qed.

Lemma returns_then {A B} (m : M A) (f : A -> M B) w :
  returns m ->
  (forall a w1, m w = inr (a, w1) -> exists b w2, f a w1 = inr (b, w2)) ->
  exists b w2, bind m f w = inr (b, w2).
Proof.
  intros Hm Hf. destruct (Hm w) as (a & w1 & E). destruct (Hf a w1 E) as (b & w2 & E2).
  exists b, w2. unfold bind. rewrite E. exact E2.
Qed.

Lemma same_state_step {A} (m : M A) w a w1 :
  respects consumes m -> m w = inr (a, w1) -> state w1 = state w.
Proof. intros R E. apply (respects_inr _ R) in E. apply E. Qed.

(** The function on top of the stack returns when the open marks are those
    of the functions on the stack, and what it resumes returns. *)
Lemma run_tokenizer_returns b t below K w :
  sync b (t :: below) (openMarks (state w)) ->
  (forall w1, sync b below (openMarks (state w1)) -> exists r w', K w1 = inr (r, w')) ->
  exists r w', run_tokenizer t K w = inr (r, w').
Proof.
  intros Sy HK.
  assert (Ab : forall w1 o os, openMarks (state w1) = o :: os -> sync b below os ->
            exists r w', (_abandonMark ;; K) w1 = inr (r, w')).
  { intros w1 o os E S. unfold _abandonMark, set_openMarks, bind, get_state, set_state.
    apply HK. cbn [state openMarks]. rewrite E. exact S. }
  destruct t as [| d | close cs ab im | close cs im | im | v | e |];
    cbn [run_tokenizer sync] in *.
  - apply returns_topLevel.
  - apply returns_then; [apply returns_pop |]. intros u w1 E.
    assert (Es : openMarks (state w1) = openMarks (state w)).
    { unfold _pop, set_stack, bind, get_state, set_state in E. inversion E. reflexivity. }
    apply deferred_call_returns. intros c sq cb -> Hc. rewrite Es.
    destruct cb as [| | e' [p |] |]; try discriminate Hc.
    destruct Sy as (_ & _ & o & os & -> & _). discriminate.
  - destruct Sy as (o & os & Eo & _ & _ & Sy).
    apply returns_then; [apply returns_matchBlankLine |]. intros bl w1 E1.
    apply (@same_state_step _ _ _ _ _ consumes_matchBlankLine) in E1.
    destruct bl; [eapply Ab; [rewrite E1; exact Eo | exact Sy] |].
    apply returns_then; [apply returns_lookahead_any |]. intros la w2 E2.
    apply (@same_state_step _ _ _ _ _ (consumes_lookahead_any ab)) in E2.
    destruct la; [eapply Ab; [rewrite E2, E1; exact Eo | exact Sy] |].
    apply returns_then; [apply returns_stream_match |]. intros c w3 E3.
    apply (@same_state_step _ _ _ _ _ (consumes_stream_match (lit close) true)) in E3.
    destruct c; [| apply returns_inner_mode].
    apply returns_then; [apply returns_startPos |]. intros sp w4 E4.
    assert (E4' : state w4 = state w3).
    { unfold _startPos, bind, get_stream, get_state, ret in E4. inversion E4. reflexivity. }
    destruct (closeMark_returns sp w4) as (m & w5 & E5).
    { rewrite E4', E3, E2, E1, Eo. discriminate. }
    unfold bind at 1. rewrite E5.
    assert (R : returns (_pop ;; ret (Some cs))) by returns_auto. apply R.
  - apply returns_then; [apply returns_matchBlankLine |]. intros bl w1 E1.
    destruct bl; [assert (R : returns (_pop ;; ret (@None Style))) by returns_auto; apply R |].
    apply returns_then; [apply returns_stream_match |]. intros c w3 E3.
    destruct c; [| apply returns_inner_mode].
    assert (R : returns (_pop ;; ret (Some cs))) by returns_auto. apply R.
  - apply returns_then; [apply returns_stream_eat |]. intros c w1 E1.
    destruct c; [| apply returns_inner_mode].
    assert (R : returns (_pop ;; ret (Some bracket))) by returns_auto. apply R.
  - assert (R : returns (run_tokenizer (VerbBody v) K)) by (simpl; returns_auto). apply R.
  - destruct Sy as (Ie & Sy).
    change (match env_kind e with Some _ => true | None => false end) with (is_marked e).
    apply returns_then.
    { destruct (negb (allowBlankLines e)); [apply returns_matchBlankLine | apply returns_ret]. }
    intros bl w1 E1.
    assert (E1' : state w1 = state w).
    { destruct (negb (allowBlankLines e)).
      - apply (@same_state_step _ _ _ _ _ consumes_matchBlankLine) in E1. exact E1.
      - apply ret_inr in E1. destruct E1 as [_ <-]. reflexivity. }
    destruct bl.
    + destruct (is_marked e).
      * destruct Sy as (o & os & Eo & _ & _ & Sy).
        eapply Ab; [rewrite E1'; exact Eo | exact Sy].
      * unfold bind at 1. unfold ret at 1. apply HK. rewrite E1'. exact Sy.
    + apply returns_then; [apply returns_stream_match |]. intros c w2 E2.
      apply (@same_state_step _ _ _ _ _ (consumes_stream_match (endPattern e) false)) in E2.
      destruct c.
      * assert (R : forall cb, returns (_pop ;; _matchEndEnvironmentSequence cb)).
        { intros cb. unfold _matchEndEnvironmentSequence. returns_auto. }
        destruct (is_marked e).
        -- apply returns_then; [returns_auto |]. intros cp w3 _. apply R.
        -- apply returns_then; [returns_auto |]. intros cp w3 _. apply R.
      * apply env_tokenizer_returns. intros T. rewrite E2, E1'.
        rewrite (list_env_marked Ie T) in Sy. destruct Sy as (o & os & -> & _). discriminate.
  - assert (R : returns (run_tokenizer AfterEndDocument K)) by (simpl; returns_auto). apply R.
Qed.

Lemma call_top_returns b : forall stk fault w,
  anchored stk -> sync b stk (openMarks (state w)) ->
  exists r w', call_top fault stk w = inr (r, w').
Proof.
  induction stk as [| t below IH]; intros fault w A Sy.
  - destruct A as [l E]. destruct l; discriminate E.
  - cbn [call_top]. destruct below as [| t' below'].
    + destruct A as [l E]. assert (t = TopLevel).
      { destruct l as [| x l]; [inversion E; reflexivity |].
        destruct l; discriminate E. }
      subst t. apply returns_topLevel.
    + apply (@run_tokenizer_returns b t (t' :: below')); [exact Sy |].
      intros w1 S1. apply returns_then; [apply returns_pop |]. intros u w2 E.
      assert (Es : openMarks (state w2) = openMarks (state w1)).
      { unfold _pop, set_stack, bind, get_state, set_state in E. inversion E. reflexivity. }
      apply IH; [| rewrite Es; exact S1].
      destruct A as [l E0]. destruct l as [| x l]; [discriminate E0 |].
      inversion E0. exists l. assumption.
Qed.

Lemma token_never_fails b w :
  anchored (stack (state w)) -> sync b (stack (state w)) (openMarks (state w)) ->
  exists r w', _token w = inr (r, w').
Proof.
  intros A Sy.
  set (w1 := mkWorld (stream w)
       (mkState (stack (state w))
          (if Nat.eqb (pos (stream w)) 0 then (line (state w) + 1)%Z else line (state w))
          (openMarks (state w)) (marks (state w))) (heap w)).
  destruct (returns_matchLineComment w1) as (a & w2 & E1).
  assert (Es : state w2 = state w1).
  { apply (@same_state_step _ _ _ _ _ consumes_matchLineComment) in E1. exact E1. }
  assert (E2 : exists r w3,
    match a with
    | Some r => ret (Some r)
    | None => st <- get_state ;; call_top EmptyStack (stack st)
    end w2 = inr (r, w3)).
  { destruct a as [x |]; [eexists; eexists; reflexivity |].
    unfold bind, get_state. apply (@call_top_returns b); rewrite Es; [exact A | exact Sy]. }
  destruct E2 as (r & w3 & E2).
  destruct (token_returns w E1 E2) as (w' & H & _). exists r, w'. exact H.
Qed.

Lemma reachable_anchored w : Reachable w -> anchored (stack (state w)).
Proof.
  induction 1 as [| w w' _ IH H]; [exists []; reflexivity |].
  destruct H as [w r w' R H | w r w' R H | w l R Hl].
  - apply token_result in H; [apply H | exact IH].
  - apply blankLine_inr in H. destruct H as (_ & r0 & H).
    apply token_result in H; [apply H | exact IH].
  - exact IH.
Qed.

(** X10.  In every state that the editor reaches, [token] returns on every
    stream, and [blankLine] returns: the mode throws no exception. *)
Theorem token_never_throws w :
  Reachable w ->
  (forall s, exists r w', token s (state w) (heap w) = inr (r, w')) /\
  (exists r w', blankLine (state w) (heap w) = inr (r, w')).
Proof.
  intros R. assert (A := reachable_anchored R).
  apply reachable_ok in R. destruct R as (_ & G & _). destruct G as (_ & _ & Sy & _).
  split; [intros s; eapply token_never_fails; [exact A | exact Sy] |].
  destruct (@token_never_fails _ (mkWorld (StringStream []) (state w) (heap w)) A Sy)
    as (r0 & w' & T).
  exists None, w'. eapply blankLine_of_token. exact T.
Qed.

Lemma token_never_throws_witness :
  Reachable (world_after nested_marks) /\
  (forall s, exists r w',
     token s (state (world_after nested_marks)) (heap (world_after nested_marks)) = inr (r, w')) /\
  (exists r w',
     blankLine (state (world_after nested_marks)) (heap (world_after nested_marks)) = inr (r, w')).
Proof.
  assert (R : Reachable (world_after nested_marks)).
  { apply host_document_reachable with (ls := nested_marks). vm_compute. reflexivity. }
  split; [exact R | apply token_never_throws; exact R].
Defined.

(** ** Every call makes progress *)

Lemma positive_lit p : p <> [] -> positive (lit p).
Proof.
  intros Hp s n H. split; [eapply lit_pos; eassumption |].
  intros ->. destruct p; [contradiction | discriminate H].
Qed.

Lemma positive_plus f : positive (plus f).
Proof.
  intros s n H. split; [eapply plus_pos; eassumption |].
  intros ->. discriminate H.
Qed.

Lemma positive_one f : positive (one f).
Proof.
  intros s n H. unfold one in H. destruct s as [| c s]; [discriminate |].
  destruct (f c); [| discriminate]. inversion H. split; [lia | discriminate].
Qed.

Lemma positive_seq_l (a b : Pattern) : positive a -> positive (a ;;; b).
Proof.
  intros Ha s n H. apply andThen_inv in H. destruct H as (k & m & H & _ & ->).
  apply Ha in H. destruct H. split; [lia | assumption].
Qed.

Lemma positive_seq_r (a b : Pattern) : positive b -> positive (a ;;; b).
Proof.
  intros Hb s n H. apply andThen_inv in H. destruct H as (k & m & _ & H & ->).
  apply Hb in H. destruct H as [H1 H2]. split; [lia |].
  intros ->. apply H2. destruct k; reflexivity.
Qed.

Lemma positive_alt (a b : Pattern) : positive a -> positive b -> positive (alt a b).
Proof.
  intros Ha Hb s n H. unfold alt in H. destruct (a s) as [k |] eqn:E.
  - inversion H; subst. apply Ha. exact E.
  - apply Hb. exact H.
Qed.

Create HintDb positive_db.
#[local] Hint Resolve positive_plus positive_one : positive_db.
#[local] Hint Extern 1 (positive (lit _)) => apply positive_lit; discriminate : positive_db.
#[local] Hint Extern 2 (positive (_ ;;; _)) => apply positive_seq_l : positive_db.
#[local] Hint Extern 3 (positive (_ ;;; _)) => apply positive_seq_r : positive_db.
#[local] Hint Extern 2 (positive (alt _ _)) => apply positive_alt : positive_db.

Ltac positive_auto := solve [unfold stream_eat; auto 8 with positive_db].

Lemma positive_re_title : positive re_title.
Proof. unfold re_title. positive_auto. Qed.
Lemma positive_matchPattern c : positive (matchPattern c).
Proof. unfold matchPattern. positive_auto. Qed.
Lemma positive_re_line_comment : positive re_line_comment.
Proof. unfold re_line_comment. positive_auto. Qed.
Lemma positive_re_command : positive re_command.
Proof. unfold re_command. positive_auto. Qed.
Lemma positive_re_item : positive re_item.
Proof. unfold re_item. positive_auto. Qed.
Lemma positive_re_maketitle : positive re_maketitle.
Proof. unfold re_maketitle. positive_auto. Qed.
Lemma positive_re_no_backslash : positive re_no_backslash.
Proof. unfold re_no_backslash. positive_auto. Qed.
Lemma positive_re_bracket : positive re_bracket.
Proof. unfold re_bracket. positive_auto. Qed.
Lemma positive_re_amp_tilde : positive re_amp_tilde.
Proof. unfold re_amp_tilde. positive_auto. Qed.
Lemma positive_re_plain : positive re_plain.
Proof. unfold re_plain. positive_auto. Qed.
Lemma positive_re_math_special : positive re_math_special.
Proof. unfold re_math_special. positive_auto. Qed.
Lemma positive_re_number : positive re_number.
Proof. unfold re_number. positive_auto. Qed.
Lemma positive_re_blank : positive re_blank.
Proof. unfold re_blank. positive_auto. Qed.
Lemma positive_re_begin : positive re_begin.
Proof. unfold re_begin. positive_auto. Qed.
Lemma positive_re_end : positive re_end.
Proof. unfold re_end. positive_auto. Qed.

Lemma positive_sequence_pattern sq i : i <= 3 -> positive (sequence_pattern sq i).
Proof.
  intros Hi. destruct i as [| [| [| [| i]]]]; try lia; cbn [sequence_pattern].
  - destruct sq; [apply positive_re_begin | apply positive_re_end].
  - positive_auto.
  - unfold re_env_name. positive_auto.
  - positive_auto.
Qed.

#[local] Hint Resolve positive_re_title positive_matchPattern positive_re_line_comment
  positive_re_command positive_re_item positive_re_maketitle positive_re_no_backslash
  positive_re_bracket positive_re_amp_tilde positive_re_plain positive_re_math_special
  positive_re_number positive_re_blank positive_re_begin positive_re_end : positive_db.

Lemma positive_length (p : Pattern) s n :
  positive p -> p s = Some n -> 0 < n /\ 0 < List.length s.
Proof.
  intros Pp H. destruct (Pp _ _ H) as [H1 H2]. split; [exact H1 |].
  destruct s; [contradiction | simpl; lia].
Qed.

Ltac note_positive :=
  repeat match goal with
  | H : ?p ?s = Some ?n |- _ =>
      lazymatch goal with
      | _ : 0 < n /\ 0 < List.length s |- _ => fail
      | _ => idtac
      end;
      let Q := fresh "Q" in
      assert (Q : 0 < n /\ 0 < List.length s)
        by (apply (@positive_length p s n); [| exact H];
            first [assumption | unfold stream_eat; auto 8 with positive_db])
  end.

Lemma last_mark_set (l : list Mark) m (g : Mark -> Mark) :
  match rev (l ++ [m]) with
  | m0 :: r => rev r ++ [g m0]
  | [] => []
  end = l ++ [g m].
Proof. rewrite rev_unit, rev_involutive. reflexivity. Qed.

Ltac closers :=
  repeat first [apply Forall_nil | apply Forall_cons];
  cbn [closer_ok]; first [exact I | assumption | discriminate].

Ltac stack_witness :=
  first
    [ exists []; split; [reflexivity | split; [simpl; lia | closers]]
    | eexists (cons _ nil); split; [reflexivity | split; [simpl; lia | closers]]
    | eexists (cons _ (cons _ nil)); split; [reflexivity | split; [simpl; lia | closers]] ].

Ltac marks_witness :=
  unfold closed_ahead, ahead;
  cbn [stream state heap stack rest consume line marks pos to pos_line pos_ch];
  rewrite ?last_mark_set;
  first
    [ left; reflexivity
    | right; eexists; split;
      [reflexivity | cbn [to pos_line pos_ch]; split; [reflexivity | lia]] ].

Ltac progress_solve :=
  try discriminate; try congruence;
  note_positive;
  repeat match goal with H : _ /\ _ |- _ => destruct H end;
  unfold eats, still;
  cbn [stream state heap stack rest consume line marks pos];
  first
    [ split; [reflexivity | split; [reflexivity | split; reflexivity]]
    | split; [rewrite ?length_skipn; lia |];
      split; [stack_witness |]; split; [reflexivity | marks_witness] ].

Ltac strict_auto :=
  let w := fresh "w" in let r := fresh "r" in let w' := fresh "w'" in
  let H := fresh "H" in
  intros w r w' H; munfold; mrun'; progress_solve.

Lemma strict_ret_none : strict (ret None).
Proof. intros w r w' H. inversion H. repeat split; reflexivity. Qed.

Lemma still_refl w : still w w.
Proof. repeat split; reflexivity. Qed.

Lemma still_ahead a b m : still a b -> ahead b m -> ahead a m.
Proof. intros (_ & T & _ & L) [A1 A2]. unfold ahead. rewrite <- T, <- L. auto. Qed.

Lemma still_eats a b c : still a b -> eats b c -> eats a c.
Proof.
  intros St (L & (l & S2 & Hl) & Ln & C). assert (St' := St).
  destruct St as (S1 & T1 & M1 & L1). split; [rewrite <- T1; exact L |].
  split; [exists l; rewrite S2, S1; auto |]. split; [congruence |].
  destruct C as [C | (m & C & A)]; [left; congruence | right].
  exists m. split; [congruence | eapply still_ahead; eassumption].
Qed.

Lemma still_still a b c : still a b -> still b c -> still a c.
Proof.
  intros (S1 & T1 & M1 & L1) (S2 & T2 & M2 & L2). repeat split; congruence.
Qed.

Lemma strict_orElse a b : strict a -> strict b -> strict (a ||| b).
Proof.
  intros Ha Hb w r w' H. unfold orElse in H. apply bind_inr in H.
  destruct H as (x & w1 & E & H). apply Ha in E. destruct x as [s |].
  - apply ret_inr in H. destruct H as [<- <-]. exact E.
  - apply Hb in H. destruct r; [eapply still_eats | eapply still_still]; eassumption.
Qed.

Lemma tokenizes_orElse a b : strict a -> tokenizes b -> tokenizes (a ||| b).
Proof.
  intros Ha Hb w r w' H. unfold orElse in H. apply bind_inr in H.
  destruct H as (x & w1 & E & H). apply Ha in E. destruct x as [s |].
  - apply ret_inr in H. destruct H as [<- <-].
    destruct (rest (stream w)) eqn:R; [| exact E].
    destruct E as [L _]. rewrite R in L. simpl in L. lia.
  - apply Hb in H. assert (T1 := proj1 (proj2 E)). rewrite T1 in H.
    destruct (rest (stream w)); [eapply still_still | eapply still_eats]; eassumption.
Qed.

Lemma strict_matchAndMark k p o os c cs ab im :
  o <> [] -> c <> [] -> strict (_matchAndMark k p o os c cs ab im).
Proof.
  intros Ho Hc. unfold _matchAndMark, _openMark.
  assert (positive (lit o)) by (apply positive_lit; exact Ho).
  strict_auto.
Qed.

Lemma lookahead_title s n : re_title_lookahead s = Some n -> exists m, re_title s = Some m.
Proof.
  unfold re_title_lookahead, re_title. intros H. apply andThen_inv in H.
  destruct H as (k & m & H & _). exists k. exact H.
Qed.

Lemma lookahead_command c s n :
  lookaheadPattern c s = Some n -> exists m, matchPattern c s = Some m.
Proof.
  unfold lookaheadPattern, matchPattern. intros H.
  apply andThen_inv in H. destruct H as (k1 & m1 & H1 & H & _).
  apply andThen_inv in H. destruct H as (k2 & m2 & H2 & H & _).
  apply andThen_inv in H. destruct H as (k3 & m3 & H3 & _).
  unfold andThen. rewrite H1, H2, H3. eexists. reflexivity.
Qed.

Ltac lookahead_facts :=
  try match goal with
      | H1 : re_title_lookahead ?s = Some _, H2 : re_title ?s = None |- _ =>
          destruct (lookahead_title _ H1); congruence
      | H1 : lookaheadPattern ?c ?s = Some _, H2 : matchPattern ?c ?s = None |- _ =>
          destruct (lookahead_command _ _ H1); congruence
      end.

Ltac strict_auto2 :=
  let w := fresh "w" in let r := fresh "r" in let w' := fresh "w'" in
  let H := fresh "H" in
  intros w r w' H; munfold; mrun'; lookahead_facts; progress_solve.

Lemma strict_matchArgument o os c cs im : o <> [] -> strict (_matchArgument o os c cs im).
Proof.
  intros Ho. unfold _matchArgument.
  assert (positive (lit o)) by (apply positive_lit; exact Ho). strict_auto.
Qed.

Lemma strict_matchGroup im : strict (_matchGroup im).
Proof. unfold _matchGroup. strict_auto. Qed.

Lemma strict_matchLineComment : strict _matchLineComment.
Proof. unfold _matchLineComment. strict_auto. Qed.

Lemma strict_matchTitleCommand : strict _matchTitleCommand.
Proof. unfold _matchTitleCommand. strict_auto2. Qed.

Lemma strict_matchCommandWithArgument c : strict (_matchCommandWithArgument c).
Proof. unfold _matchCommandWithArgument. strict_auto2. Qed.

Lemma strict_matchIncludeGraphics : strict _matchIncludeGraphics.
Proof. unfold _matchIncludeGraphics. strict_auto2. Qed.

Lemma strict_matchBibCommand : strict _matchBibCommand.
Proof.
  unfold _matchBibCommand, _bibCommands. simpl.
  repeat (apply strict_orElse; [apply strict_matchCommandWithArgument |]).
  apply strict_ret_none.
Qed.

Lemma strict_matchItemCommand : strict _matchItemCommand.
Proof.
  unfold _matchItemCommand, _openMark, _closeMark, set_checkedProperties. strict_auto.
Qed.

Lemma re_verb_positive s n e : re_verb s = Some (n, e) -> 0 < n /\ 0 < List.length s.
Proof.
  unfold re_verb. destruct (lit (js "\verb") s) as [k |] eqn:L; [| discriminate].
  assert (P : positive (lit (js "\verb"))) by (apply positive_lit; discriminate).
  destruct (@positive_length _ _ _ P L) as [K S']. intros H. split; [| exact S'].
  destruct (skipn k s) as [| c s']; [discriminate |].
  destruct (c =? ch "*")%N.
  - destruct s' as [| d s'']; [inversion H; lia |].
    destruct (is_letter d); inversion H; lia.
  - destruct (is_letter c); [discriminate | inversion H; lia].
Qed.

Lemma strict_matchVerbCommand : strict _matchVerbCommand.
Proof.
  unfold _matchVerbCommand. intros w r w' H. munfold. mrun'.
  - match goal with E : re_verb _ = Some _ |- _ => destruct (re_verb_positive _ E) end.
    progress_solve.
  - progress_solve.
Qed.

Lemma strict_inr m w r w' :
  strict m -> m w = inr (r, w') ->
  match r with Some _ => eats w w' | None => still w w' end.
Proof. intros S H. exact (S _ _ _ H). Qed.

Ltac by_strict H := apply (fun S => @strict_inr _ _ _ _ S H).

Lemma strict_matchSequence sq cb : strict (_matchSequence sq cb).
Proof.
  intros w r w'. unfold _matchSequence, _matchNext, new_cell, read_cell, write_cell, _defer,
    _push, set_stack, stream_match.
  unfold bind, get_stream, get_state, set_state, set_stream, ret.
  cbn [stream state heap cells]. rewrite nth_middle.
  destruct (sequence_pattern sq 0 (rest (stream w))) as [n |] eqn:E;
    cbn [Nat.add Nat.ltb Nat.leb]; intros H; inversion H; subst; clear H.
  - assert (P : positive (sequence_pattern sq 0)) by (apply positive_sequence_pattern; lia).
    destruct (@positive_length _ _ _ P E).
    unfold eats; cbn [stream state heap stack rest consume sequence_token line marks].
    split; [rewrite length_skipn; lia |].
    split; [stack_witness |]. split; [reflexivity | left; reflexivity].
  - repeat split; reflexivity.
Qed.

Lemma strict_begin_environment e : strict (begin_environment e).
Proof.
  intros w r w' H. unfold begin_environment, _matchBeginEnvironmentSequence in H.
  apply bind_inr in H. destruct H as (x & w1 & E & H).
  assert (w1 = w) as ->.
  { destruct (env_kind e); unfold _startPos in E; munfold; mrun; reflexivity. }
  by_strict H; apply strict_matchSequence.
Qed.

Lemma strict_lookaheadForBeginEnvironments envs :
  strict (_lookaheadForBeginEnvironments envs begin_environment).
Proof.
  induction envs as [| e envs IH]; cbn [_lookaheadForBeginEnvironments].
  - apply strict_ret_none.
  - intros w r w' H. apply bind_inr in H. destruct H as (x & w1 & E & H).
    assert (w1 = w) as ->.
    { unfold stream_match in E. munfold. mrun; reflexivity. }
    destruct x; [by_strict H; apply strict_begin_environment | by_strict H; exact IH].
Qed.

Lemma strict_matchEnvironments envs : strict (_matchEnvironments envs).
Proof. apply strict_lookaheadForBeginEnvironments. Qed.

Lemma strict_matchCommand p k : positive p -> strict (_matchCommand p k).
Proof.
  intros Pp. unfold _matchCommand, _openMark, _closeMark, _startPos, _currentPos. strict_auto.
Qed.

Lemma lookahead_same p w x w1 : stream_match p false w = inr (x, w1) -> w1 = w.
Proof. intros E. unfold stream_match in E. munfold. mrun; reflexivity. Qed.

Lemma strict_matchOtherEnvironmentBeginOrEnd : strict _matchOtherEnvironmentBeginOrEnd.
Proof.
  intros w r w' H. unfold _matchOtherEnvironmentBeginOrEnd in H.
  apply bind_inr in H. destruct H as (x & w1 & E & H).
  apply lookahead_same in E. subst w1.
  destruct x; [by_strict H; apply strict_matchSequence |].
  apply bind_inr in H. destruct H as (y & w1 & E & H).
  apply lookahead_same in E. subst w1.
  destruct y; [by_strict H; apply strict_matchSequence | by_strict H; apply strict_ret_none].
Qed.

Lemma strict_matchEndDocument : strict _matchEndDocument.
Proof.
  intros w r w' H. unfold _matchEndDocument in H.
  apply bind_inr in H. destruct H as (x & w1 & E & H).
  apply lookahead_same in E. subst w1.
  destruct x; [by_strict H; apply strict_matchSequence | by_strict H; apply strict_ret_none].
Qed.

Lemma strict_matchOtherCommand : strict _matchOtherCommand.
Proof. unfold _matchOtherCommand. strict_auto. Qed.

Lemma strict_matchSectioningCommand : strict _matchSectioningCommand.
Proof.
  unfold _matchSectioningCommand.
  repeat (apply strict_orElse; [| apply strict_matchCommandWithArgument]).
  apply strict_matchCommandWithArgument.
Qed.

Lemma strict_startPos_matchAndMark k o os c cs ab im :
  o <> [] -> c <> [] -> strict (sp <- _startPos ;; _matchAndMark k sp o os c cs ab im).
Proof.
  intros Ho Hc w r w' H. apply bind_inr in H. destruct H as (x & w1 & E & H).
  assert (w1 = w) as -> by (unfold _startPos in E; munfold; mrun; reflexivity).
  by_strict H; apply strict_matchAndMark; assumption.
Qed.

Lemma strict_matchDollarDollarMath : strict _matchDollarDollarMath.
Proof. apply strict_startPos_matchAndMark; discriminate. Qed.
Lemma strict_matchDollarMath : strict _matchDollarMath.
Proof. apply strict_startPos_matchAndMark; discriminate. Qed.
Lemma strict_matchBracketMath : strict _matchBracketMath.
Proof. apply strict_startPos_matchAndMark; discriminate. Qed.
Lemma strict_matchParenMath : strict _matchParenMath.
Proof. apply strict_startPos_matchAndMark; discriminate. Qed.

Ltac tokenizes_solve :=
  try discriminate; try congruence;
  note_positive;
  repeat match goal with H : _ /\ _ |- _ => destruct H end;
  unfold eats, still;
  cbn [stream state heap stack rest consume List.length line marks pos] in *;
  try lia;
  first
    [ split; [reflexivity | split; [reflexivity | split; reflexivity]]
    | split; [rewrite ?length_skipn; cbn [List.length]; lia |];
      split; [stack_witness |]; split; [reflexivity | marks_witness] ].

Ltac tokenizes_auto :=
  let w := fresh "w" in let r := fresh "r" in let w' := fresh "w'" in
  let H := fresh "H" in
  intros w r w' H; destruct w as [[p s rs] st hp]; destruct rs;
  cbn [stream rest]; munfold; mrun'; tokenizes_solve.

Lemma tokenizes_matchOther : tokenizes _matchOther.
Proof. unfold _matchOther, stream_next. tokenizes_auto. Qed.

Lemma tokenizes_matchOtherMath : tokenizes _matchOtherMath.
Proof. unfold _matchOtherMath, stream_next. tokenizes_auto. Qed.

Lemma tokenizes_matchVerbatimEnvironment : tokenizes _matchVerbatimEnvironment.
Proof. unfold _matchVerbatimEnvironment, stream_next. tokenizes_auto. Qed.

Lemma tokenizes_matchCommentEnvironment : tokenizes _matchCommentEnvironment.
Proof. unfold _matchCommentEnvironment, stream_next. tokenizes_auto. Qed.

Ltac chain :=
  repeat first
    [ apply strict_matchCommandWithArgument
    | apply strict_matchBracketMath | apply strict_matchParenMath
    | apply strict_matchBibCommand | apply strict_matchEnvironments
    | apply strict_matchVerbCommand | apply strict_matchOtherEnvironmentBeginOrEnd
    | apply strict_matchOtherCommand | apply strict_matchGroup
    | apply strict_matchDollarDollarMath | apply strict_matchDollarMath
    | apply strict_matchTitleCommand | apply strict_matchSectioningCommand
    | apply strict_matchEndDocument | apply strict_matchIncludeGraphics
    | apply strict_matchItemCommand
    | apply strict_matchCommand; positive_auto
    | apply tokenizes_matchOther | apply tokenizes_matchOtherMath
    | apply tokenizes_orElse
    | apply strict_orElse ].

Lemma tokenizes_matchMath : tokenizes _matchMath.
Proof. unfold _matchMath. chain. Qed.

Lemma tokenizes_matchText : tokenizes _matchText.
Proof. unfold _matchText. chain. Qed.

Lemma tokenizes_matchTikZ : tokenizes _matchTikZ.
Proof. unfold _matchTikZ. chain. Qed.

Lemma tokenizes_matchFigureContent : tokenizes _matchFigureContent.
Proof. unfold _matchFigureContent. chain. Qed.

Lemma tokenizes_matchListContent : tokenizes _matchListContent.
Proof. unfold _matchListContent. chain. Qed.

Lemma tokenizes_topLevel : tokenizes _topLevel.
Proof. unfold _topLevel. chain. Qed.

Lemma tokenizes_inner_mode m : tokenizes (inner_mode m).
Proof. destruct m; [apply tokenizes_matchText | apply tokenizes_matchMath]. Qed.

Lemma tokenizes_env_tokenizer t : tokenizes (env_tokenizer t).
Proof.
  destruct t; cbn [env_tokenizer];
    auto using tokenizes_matchVerbatimEnvironment, tokenizes_matchCommentEnvironment,
      tokenizes_matchMath, tokenizes_matchText, tokenizes_matchListContent,
      tokenizes_matchFigureContent, tokenizes_matchTikZ.
Qed.

Lemma advances_measure w w' :
  advances w w' ->
  measure w' <= measure w /\ List.length (rest (stream w')) <= List.length (rest (stream w)).
Proof.
  intros [L H]. split; [| exact L]. unfold measure in *.
  destruct (rest (stream w)); simpl in *; lia.
Qed.

Lemma eats_advances w w' : eats w w' -> advances w w'.
Proof.
  intros (L & (l & S & Hl & _) & _). split; [lia |]. unfold measure. rewrite S, length_app.
  destruct (rest (stream w)); simpl in *; lia.
Qed.

Lemma still_advances_end w w' : still w w' -> rest (stream w) = [] -> advances w w'.
Proof. intros (S & T & _) R. split; [rewrite T; lia | rewrite R, S; lia]. Qed.

Lemma tokenizes_advances m w r w' :
  tokenizes m -> m w = inr (r, w') -> advances w w'.
Proof.
  intros T H. apply T in H. destruct (rest (stream w)) eqn:R.
  - apply still_advances_end; assumption.
  - apply eats_advances; assumption.
Qed.

(** A matcher called after a pop. *)
Lemma strict_after_pop m w w1 r w' :
  strict m -> m w1 = inr (r, w') ->
  stream w1 = stream w -> stack (state w1) = tl (stack (state w)) ->
  stack (state w) <> [] -> advances w w'.
Proof.
  intros S H T K N. apply S in H. destruct (stack (state w)) as [| t below] eqn:Sw;
    [contradiction |]. cbn [tl] in K.
  destruct r.
  - destruct H as (L & (l & S' & Hl & _) & _). rewrite T in L. split; [lia |].
    unfold measure. rewrite Sw, S', K, length_app. destruct (rest (stream w)); simpl in *; lia.
  - destruct H as (S' & T' & _). rewrite T in T'. split; [rewrite T'; lia |].
    unfold measure. rewrite Sw, S', K, T'. destruct (rest (stream w)); simpl; lia.
Qed.

(** A call resumed below the top of the stack. *)
Lemma resume_advances w w1 w' :
  advances w1 w' ->
  List.length (rest (stream w1)) <= List.length (rest (stream w)) ->
  S (List.length (stack (state w1))) = List.length (stack (state w)) ->
  advances w w'.
Proof.
  intros A L K. destruct (advances_measure A) as [M L']. destruct A as [_ A].
  split; [lia |]. unfold measure in *.
  destruct (rest (stream w)) as [| c rs] eqn:R.
  - destruct (rest (stream w1)); [lia | simpl in L; lia].
  - simpl in *. lia.
Qed.

Lemma run_callback_pushes cb w u w' :
  run_callback cb w = inr (u, w') ->
  stream w' = stream w /\
  List.length (stack (state w')) <= S (List.length (stack (state w))).
Proof.
  intros H. destruct cb as [| e p | e p |]; cbn [run_callback] in H.
  - munfold; mrun'. split; [reflexivity | lia].
  - destruct (env_kind e), p; unfold _openMark, set_openMarksCount in H; munfold; mrun';
      (split; [reflexivity | simpl; lia]).
  - destruct (env_kind e), p; unfold _closeMark, set_checkedProperties in H; munfold; mrun';
      (split; [reflexivity | simpl; lia]).
  - munfold; mrun'. split; [reflexivity | simpl; lia].
Qed.

Lemma pop_stream w u w1 :
  _pop w = inr (u, w1) ->
  stream w1 = stream w /\ stack (state w1) = tl (stack (state w)) /\ heap w1 = heap w.
Proof. intros H. munfold. mrun'. auto. Qed.

Lemma push_inr t w u w1 :
  _push t w = inr (u, w1) ->
  stream w1 = stream w /\ stack (state w1) = t :: stack (state w).
Proof. intros H. munfold. mrun'. auto. Qed.

Lemma matchNext_advances c sq cb w w1 r w' :
  nth c (cells (heap w1)) 0 <= 3 ->
  _matchNext c sq cb w1 = inr (r, w') ->
  stream w1 = stream w -> stack (state w1) = tl (stack (state w)) ->
  stack (state w) <> [] -> advances w w'.
Proof.
  intros V H T K N. unfold _matchNext in H.
  apply bind_inr in H. destruct H as (i & w2 & E & H).
  unfold read_cell in E. inversion E; subst i w2; clear E.
  apply bind_inr in H. destruct H as (m & w2 & E & H).
  unfold stream_match in E. apply bind_inr in E. destruct E as (s & w3 & E3 & E).
  unfold get_stream in E3. inversion E3; subst s w3; clear E3.
  destruct (stack (state w)) as [| t below] eqn:Sw; [contradiction |]. cbn [tl] in K.
  destruct (sequence_pattern sq (nth c (cells (heap w1)) 0) (rest (stream w1))) as [n |] eqn:P.
  - assert (Pp : positive (sequence_pattern sq (nth c (cells (heap w1)) 0)))
      by (apply positive_sequence_pattern; exact V).
    destruct (@positive_length _ _ _ Pp P) as [Hn Hs].
    apply bind_inr in E. destruct E as (u & w3 & E3 & E).
    unfold set_stream in E3. inversion E3; subst u w3; clear E3.
    apply ret_inr in E. destruct E as [<- <-].
    apply bind_inr in H. destruct H as (u & w3 & E3 & H).
    unfold write_cell in E3. inversion E3; subst u w3; clear E3.
    apply bind_inr in H. destruct H as (u & w3 & E3 & H).
    apply ret_inr in H. destruct H as [_ <-].
    assert (Q : List.length (rest (stream w3)) < List.length (rest (stream w)) /\
                List.length (stack (state w3)) <= S (List.length below)).
    { destruct (nth c (cells (heap w1)) 0 + 1 <? 4).
      - unfold _defer in E3. apply push_inr in E3. cbn [stream state stack] in E3.
        destruct E3 as [E3 E4]. rewrite E3, E4, K. cbn [rest consume List.length].
        rewrite <- T, length_skipn. lia.
      - apply run_callback_pushes in E3. cbn [stream state stack] in E3.
        destruct E3 as [E3 E4]. rewrite E3, K in *. cbn [rest consume].
        rewrite <- T, length_skipn. lia. }
    destruct Q as [Q1 Q2]. split; [lia |]. unfold measure. rewrite Sw.
    destruct (rest (stream w)); simpl in *; lia.
  - apply ret_inr in E. destruct E as [<- <-]. apply ret_inr in H. destruct H as [_ <-].
    split; [rewrite T; lia |]. unfold measure. rewrite T, K, Sw.
    destruct (rest (stream w)); simpl; lia.
Qed.

Lemma deferred_advances d below w r w' :
  stack (state w) = Deferred d :: below ->
  heap_ok (stack (state w)) (heap w) ->
  (_pop ;; deferred_call d) w = inr (r, w') -> advances w w'.
Proof.
  intros Sw Hh H. apply bind_inr in H. destruct H as (u & w1 & E & H).
  apply pop_stream in E. destruct E as (T & K & Eh).
  assert (N : stack (state w) <> []) by (rewrite Sw; discriminate).
  destruct d as [c sq cb | k p | k p |]; cbn [deferred_call] in H.
  - eapply matchNext_advances; try eassumption.
    rewrite Eh. rewrite Sw in Hh. destruct Hh as [_ Hc].
    destruct (Hc c) as [_ ?]; [left; reflexivity | lia].
  - eapply strict_after_pop; try eassumption.
    apply strict_matchAndMark; discriminate.
  - eapply strict_after_pop; try eassumption.
    apply strict_matchAndMark; discriminate.
  - eapply strict_after_pop; try eassumption.
    apply strict_matchArgument. discriminate.
Qed.

Lemma matchBlankLine_inr w b w1 :
  _matchBlankLine w = inr (b, w1) ->
  state w1 = state w /\ heap w1 = heap w /\ (b = false -> w1 = w) /\
  List.length (rest (stream w1)) <= List.length (rest (stream w)).
Proof.
  intros H. unfold _matchBlankLine in H. destruct w as [[p s rs] st hp]. munfold. mrun';
    repeat split; try reflexivity; try discriminate; try lia.
  rewrite length_skipn. lia.
Qed.

Lemma abandonMark_inr w u w1 :
  _abandonMark w = inr (u, w1) ->
  stream w1 = stream w /\ stack (state w1) = stack (state w) /\ heap w1 = heap w.
Proof. intros H. munfold. mrun'. auto. Qed.

Section Resume.

Variable K : M (option Style).
Variable below : list Tok.
Variable hp : Heap.
Hypothesis HK : forall w1 r w',
  stack (state w1) = below -> heap w1 = hp -> K w1 = inr (r, w') -> advances w1 w'.

Lemma resume_case t w w2 r w' :
  stack (state w) = t :: below -> heap w = hp ->
  stack (state w2) = stack (state w) -> heap w2 = heap w ->
  List.length (rest (stream w2)) <= List.length (rest (stream w)) ->
  (_pop ;; K) w2 = inr (r, w') -> advances w w'.
Proof.
  intros Sw Hh S2 H2 L H. apply bind_inr in H. destruct H as (u & w3 & E & H).
  apply pop_stream in E. destruct E as (T & S3 & H3).
  rewrite S2, Sw in S3. cbn [tl] in S3.
  apply HK in H; [| exact S3 | congruence].
  eapply resume_advances; [exact H | rewrite T; exact L | rewrite S3, Sw; reflexivity].
Qed.

Lemma abandon_resume_case t w w2 r w' :
  stack (state w) = t :: below -> heap w = hp ->
  stack (state w2) = stack (state w) -> heap w2 = heap w ->
  List.length (rest (stream w2)) <= List.length (rest (stream w)) ->
  (_abandonMark ;; _pop ;; K) w2 = inr (r, w') -> advances w w'.
Proof.
  intros Sw Hh S2 H2 L H. apply bind_inr in H. destruct H as (u & w3 & E & H).
  apply abandonMark_inr in E. destruct E as (T & S3 & H3).
  eapply resume_case; [exact Sw | exact Hh | | | | exact H]; [congruence | congruence |].
  rewrite T. exact L.
Qed.

End Resume.

Lemma stream_match_inr p w m w1 :
  stream_match p true w = inr (m, w1) ->
  state w1 = state w /\ heap w1 = heap w /\ (m = false -> w1 = w) /\
  List.length (rest (stream w1)) <= List.length (rest (stream w)).
Proof.
  intros H. destruct w as [[ps s rs] st h]. munfold. mrun';
    repeat split; try reflexivity; try discriminate; try lia.
  rewrite length_skipn. lia.
Qed.

Lemma closeMark_stream p w m w1 :
  _closeMark p w = inr (m, w1) ->
  stream w1 = stream w /\ stack (state w1) = stack (state w).
Proof. intros H. unfold _closeMark in H. munfold. mrun'; auto. Qed.

Lemma startPos_inr w p w1 : _startPos w = inr (p, w1) -> w1 = w.
Proof. intros H. munfold. mrun'. reflexivity. Qed.

Lemma popped_advances w w' :
  stack (state w) <> [] ->
  stack (state w') = tl (stack (state w)) ->
  List.length (rest (stream w')) <= List.length (rest (stream w)) ->
  advances w w'.
Proof.
  intros N S L. split; [exact L |]. unfold measure. rewrite S.
  destruct (stack (state w)); [contradiction |].
  destruct (rest (stream w)); simpl in *; lia.
Qed.

Lemma pop_ret_advances w w1 (s r : option Style) w' :
  stack (state w) <> [] -> stack (state w1) = stack (state w) ->
  List.length (rest (stream w1)) <= List.length (rest (stream w)) ->
  (_pop ;; ret s) w1 = inr (r, w') -> advances w w'.
Proof.
  intros N S L H. apply bind_inr in H. destruct H as (u & w2 & E & H).
  apply ret_inr in H. destruct H as [_ <-]. apply pop_stream in E. destruct E as (T & K & _).
  apply popped_advances; [exact N | congruence | rewrite T; exact L].
Qed.

Lemma index_of_after c d s n :
  (d =? c)%N = false -> index_of c (d :: s) = Some n -> 0 < n.
Proof.
  intros D H. cbn [index_of] in H. rewrite D in H.
  destruct (index_of c s); [inversion H; lia | discriminate].
Qed.

Lemma verb_body_advances verbEnd w r w' :
  stack (state w) <> [] ->
  run_tokenizer (VerbBody verbEnd) (ret None) w = inr (r, w') -> advances w w'.
Proof.
  intros N H. cbn [run_tokenizer] in H.
  destruct w as [[ps s rs] [stk ln om mk] h]. cbn [stream state stack] in N.
  destruct stk as [| t below]; [contradiction |].
  unfold stream_match, stream_skipTo, stream_skipToEnd, _pop, set_stack, bind, get_stream,
    get_state, set_stream, set_state, ret in H.
  cbn [stream state stack rest] in H.
  destruct rs as [| d rs]; cbn [lit index_of] in H.
  - inversion H; subst. split; cbn [stream state stack rest consume skipn List.length]; lia.
  - destruct (verbEnd =? d)%N eqn:D; cbn [stream state stack rest heap index_of tl] in H.
    + inversion H; subst.
      split; unfold measure; cbn [stream state stack rest consume skipn List.length tl]; lia.
    + rewrite (N.eqb_sym d verbEnd), D in H.
      destruct (index_of verbEnd rs) as [n |]; cbn [stream state stack rest heap] in H;
        inversion H; subst;
        (split; unfold measure; cbn [stream state stack rest consume];
         rewrite ?length_skipn; cbn [List.length]; lia).
Qed.

Lemma after_end_document_advances w r w' :
  run_tokenizer AfterEndDocument (ret None) w = inr (r, w') -> advances w w'.
Proof.
  intros H. cbn [run_tokenizer] in H. destruct w as [[ps s rs] [stk ln om mk] h].
  munfold. mrun'. split; unfold measure; cbn [stream state stack rest consume];
    rewrite length_skipn; destruct rs; cbn [List.length]; lia.
Qed.

Ltac split_bind H x w E :=
  apply bind_inr in H; destruct H as (x & w & E & H).

Lemma run_tokenizer_advances K t below w r w' :
  stack (state w) = t :: below ->
  heap_ok (stack (state w)) (heap w) ->
  (forall w1 r1 w1',
     stack (state w1) = below -> heap w1 = heap w -> K w1 = inr (r1, w1') ->
     advances w1 w1') ->
  run_tokenizer t (_pop ;; K) w = inr (r, w') -> advances w w'.
Proof.
  intros Sw Hh HK H.
  assert (N : stack (state w) <> []) by (rewrite Sw; discriminate).
  destruct t as [| d | close cs ab im | close cs im | im | verbEnd | e |].
  - eapply tokenizes_advances; [apply tokenizes_topLevel | exact H].
  - eapply deferred_advances; [exact Sw | exact Hh | exact H].
  - cbn [run_tokenizer] in H. split_bind H b w1 E.
    apply matchBlankLine_inr in E. destruct E as (E1 & E2 & E3 & E4).
    destruct b.
    { eapply abandon_resume_case; [exact HK | exact Sw | reflexivity | | | exact E4 | exact H];
        congruence. }
    rewrite (E3 eq_refl) in H. clear w1 E1 E2 E3 E4.
    split_bind H a w1 E. apply lookahead_any_same in E. subst w1.
    destruct a.
    { eapply abandon_resume_case; [exact HK | exact Sw | reflexivity | | | | exact H];
        (reflexivity || lia). }
    split_bind H c w1 E. apply stream_match_inr in E. destruct E as (E1 & E2 & E3 & E4).
    destruct c.
    + split_bind H sp w2 F. apply startPos_inr in F. subst w2.
      split_bind H m w2 F. apply closeMark_stream in F. destruct F as [F1 F2].
      eapply pop_ret_advances; [exact N | | | exact H]; [congruence | rewrite F1; exact E4].
    + rewrite (E3 eq_refl) in H. eapply tokenizes_advances; [apply (tokenizes_inner_mode im) | exact H].
  - cbn [run_tokenizer] in H. split_bind H b w1 E.
    apply matchBlankLine_inr in E. destruct E as (E1 & E2 & E3 & E4).
    destruct b.
    { eapply pop_ret_advances; [exact N | | exact E4 | exact H]. congruence. }
    rewrite (E3 eq_refl) in H. clear w1 E1 E2 E3 E4.
    split_bind H c w1 E. apply stream_match_inr in E. destruct E as (E1 & E2 & E3 & E4).
    destruct c.
    + eapply pop_ret_advances; [exact N | | exact E4 | exact H]. congruence.
    + rewrite (E3 eq_refl) in H. eapply tokenizes_advances; [apply (tokenizes_inner_mode im) | exact H].
  - cbn [run_tokenizer] in H. unfold stream_eat in H.
    split_bind H c w1 E. apply stream_match_inr in E. destruct E as (E1 & E2 & E3 & E4).
    destruct c.
    + eapply pop_ret_advances; [exact N | | exact E4 | exact H]. congruence.
    + rewrite (E3 eq_refl) in H. eapply tokenizes_advances; [apply (tokenizes_inner_mode im) | exact H].
  - eapply verb_body_advances; [exact N | exact H].
  - cbn [run_tokenizer] in H. split_bind H b w1 E.
    assert (E' : state w1 = state w /\ heap w1 = heap w /\ (b = false -> w1 = w) /\
                 List.length (rest (stream w1)) <= List.length (rest (stream w))).
    { destruct (negb (allowBlankLines e)); [apply matchBlankLine_inr; exact E |].
      apply ret_inr in E. destruct E as [<- <-]. auto. }
    clear E. destruct E' as (E1 & E2 & E3 & E4).
    destruct b.
    { destruct (env_kind e).
      - eapply abandon_resume_case; [exact HK | exact Sw | reflexivity | | | exact E4 | exact H];
          congruence.
      - split_bind H u w2 F. apply ret_inr in F. destruct F as [_ <-].
        eapply resume_case; [exact HK | exact Sw | reflexivity | | | exact E4 | exact H];
          congruence. }
    rewrite (E3 eq_refl) in H. clear w1 E1 E2 E3 E4.
    split_bind H c w1 E. apply lookahead_same in E. subst w1.
    destruct c.
    + split_bind H p w1 E.
      assert (w1 = w) as ->.
      { destruct (env_kind e); [| apply ret_inr in E; destruct E; congruence].
        split_bind E sp w2 F. apply startPos_inr in F. subst w2.
        apply ret_inr in E. destruct E; congruence. }
      split_bind H u w1 F. apply pop_stream in F. destruct F as (T & S1 & _).
      eapply strict_after_pop; [apply strict_matchSequence | exact H | exact T | exact S1 | exact N].
    + eapply tokenizes_advances; [apply (tokenizes_env_tokenizer (tokenizer e)) | exact H].
  - eapply after_end_document_advances. exact H.
Qed.

Lemma call_top_advances stk : forall f w r w',
  stack (state w) = stk -> heap_ok stk (heap w) ->
  call_top f stk w = inr (r, w') -> advances w w'.
Proof.
  induction stk as [| t below IH]; intros f w r w' Sw Hh H; cbn [call_top] in H.
  - discriminate H.
  - eapply run_tokenizer_advances; [exact Sw | rewrite Sw; exact Hh | | exact H].
    intros w1 r1 w1' S1 H1 E. eapply IH; [exact S1 | | exact E].
    rewrite H1. eapply heap_ok_tl. exact Hh.
Qed.

Lemma matchLineComment_none_inr w w' : _matchLineComment w = inr (None, w') -> w' = w.
Proof. intros H. unfold _matchLineComment in H. munfold. mrun'; congruence. Qed.

Lemma token_advances w r w' :
  heap_ok (stack (state w)) (heap w) -> _token w = inr (r, w') -> advances w w'.
Proof.
  intros Hh H. apply token_frame in H.
  destruct H as (L & a & w2 & w3 & EL & E1 & E2 & Es & Eh & Ek & Eo & Em & El).
  assert (A : advances w w3).
  { destruct a as [x |].
    - apply strict_matchLineComment in E1. apply ret_inr in E2. destruct E2 as [_ <-].
      apply eats_advances in E1. exact E1.
    - apply matchLineComment_none_inr in E1. subst w2.
      apply bind_inr in E2. destruct E2 as (st & w4 & E3 & E2).
      unfold get_state in E3. inversion E3; subst st w4. clear E3.
      cbn [state stack] in E2.
      apply call_top_advances in E2; [| reflexivity | exact Hh]. exact E2. }
  destruct A as [A1 A2]. unfold advances, measure in *. rewrite Es, Ek. split; assumption.
Qed.
Lemma reachable_token_returns w : Reachable w -> exists r w', _token w = inr (r, w').
Proof.
  intros R. assert (A := reachable_anchored R).
  apply reachable_ok in R. destruct R as (_ & G & _). destruct G as (_ & _ & Sy & _).
  eapply token_never_fails; [exact A | exact Sy].
Qed.

Lemma reachable_blank_returns w :
  Reachable w -> exists r w', blankLine (state w) (heap w) = inr (r, w').
Proof.
  intros R. assert (A := reachable_anchored R).
  apply reachable_ok in R. destruct R as (_ & G & _). destruct G as (_ & _ & Sy & _).
  destruct (@token_never_fails _ (mkWorld (StringStream []) (state w) (heap w)) A Sy)
    as (r0 & w' & T).
  exists None, w'. eapply blankLine_of_token. exact T.
Qed.

Lemma reachable_heap_ok w : Reachable w -> heap_ok (stack (state w)) (heap w).
Proof. intros R. apply reachable_ok in R. destruct R as (_ & G & _). apply G. Qed.

Lemma token_loop_total fuel : forall w out,
  Reachable w -> measure w < fuel ->
  exists out' w',
    token_loop fuel w out = Done (out', w') /\ Reachable w' /\ rest (stream w') = [].
Proof.
  induction fuel as [| fuel IH]; intros w out R M; [lia |].
  cbn [token_loop]. destruct (rest (stream w)) as [| c rs] eqn:E.
  - exists out, w. auto.
  - destruct (reachable_token_returns R) as (r & w1 & T). rewrite T.
    apply IH.
    + eapply reach_step; [exact R |]. eapply step_token; [| exact T]. rewrite E. discriminate.
    + apply token_advances in T; [| apply reachable_heap_ok; exact R].
      destruct T as [_ T]. rewrite E in T. unfold measure in *.
      cbn [stream state next_token rest]. lia.
Qed.

Lemma parseLine_total l w :
  Reachable w -> rest (stream w) = [] ->
  exists out w',
    parseLine l (state w) (heap w) = Done (out, state w', heap w') /\
    Reachable w' /\ rest (stream w') = [].
Proof.
  intros R E. unfold parseLine. destruct l as [| c l].
  - destruct (reachable_blank_returns R) as (r & w1 & B). rewrite B.
    exists [r], (advance w1). split; [reflexivity |]. split.
    + eapply reach_step; [exact R |]. eapply step_blank; [exact E | exact B].
    + apply blank_line_counted in B. apply B.
  - destruct (@token_loop_total (line_fuel (c :: l) (state w))
                (mkWorld (StringStream (c :: l)) (state w) (heap w)) [])
      as (out & w' & T & R' & E').
    + eapply reach_step; [exact R |]. apply step_line; [exact E | discriminate].
    + unfold measure, line_fuel. cbn [stream state StringStream rest]. lia.
    + rewrite T. exists out, w'. auto.
Qed.

Lemma parseLines_total ls : forall w,
  Reachable w -> rest (stream w) = [] ->
  exists p, parseLines ls (state w) (heap w) = Done p.
Proof.
  induction ls as [| l ls IH]; intros w R E; cbn [parseLines].
  - eexists. reflexivity.
  - destruct (parseLine_total l R E) as (out & w' & P & R' & E'). rewrite P.
    destruct (IH w' R' E') as (p & Q). rewrite Q. eexists. reflexivity.
Qed.

(** X11.  The loop of the test suite's driver, which calls [blankLine] on
    an empty line and otherwise [token] until the end of the line, stops on
    every document, whatever the code units of its lines, and no call
    throws: a call that consumes nothing pops the stack. *)
Theorem parse_document_total (ls : list (list N)) :
  exists p, parseLines ls startState empty_heap = Done p.
Proof.
  apply (@parseLines_total ls start_world); [apply reach_start | reflexivity].
Qed.

Lemma tokens_to_eol_total fuel : forall w,
  Reachable w -> measure w < fuel -> exists w', tokens_to_eol fuel w = Some w'.
Proof.
  induction fuel as [| fuel IH]; intros w R M; [lia |].
  cbn [tokens_to_eol]. destruct (rest (stream w)) as [| c rs] eqn:E.
  - exists w. reflexivity.
  - destruct (reachable_token_returns R) as (r & w1 & T). rewrite T.
    apply IH.
    + eapply reach_step; [exact R |]. eapply step_token; [| exact T]. rewrite E. discriminate.
    + apply token_advances in T; [| apply reachable_heap_ok; exact R].
      destruct T as [_ T]. rewrite E in T. unfold measure in *.
      cbn [advance stream state next_token rest]. lia.
Qed.

Lemma host_line_total l w :
  Reachable w -> rest (stream w) = [] -> exists w', host_line l w = Some w'.
Proof.
  intros R E. unfold host_line. destruct l as [| c l].
  - destruct (reachable_blank_returns R) as (r & w1 & B). rewrite B. eexists. reflexivity.
  - apply tokens_to_eol_total.
    + eapply reach_step; [exact R |]. apply step_line; [exact E | discriminate].
    + unfold measure, line_fuel. cbn [stream state StringStream rest]. lia.
Qed.

Lemma host_lines_total ls : forall w,
  Reachable w -> rest (stream w) = [] -> exists w', host_lines ls w = Some w'.
Proof.
  induction ls as [| l ls IH]; intros w R E; cbn [host_lines].
  - exists w. reflexivity.
  - rewrite E. destruct (host_line_total l R E) as [w1 H1]. rewrite H1.
    assert (H : host_lines [l] w = Some w1) by (cbn [host_lines]; rewrite E, H1; reflexivity).
    apply IH.
    + eapply host_lines_reachable; [exact R | exact H].
    + apply host_lines_line in H; [apply H | exact E].
Qed.

(** X8.  The editor gets through every document from the start state,
    calling [blankLine] on the empty lines and [token] up to the end of the
    others, whatever the code units of the lines; afterwards the line
    counter is the index of the last line. *)
Theorem line_counts_lines (ls : list (list N)) :
  exists w,
    host_lines ls start_world = Some w /\
    line (state w) = (Z.of_nat (List.length ls) - 1)%Z.
Proof.
  destruct (@host_lines_total ls start_world reach_start eq_refl) as [w H].
  exists w. split; [exact H |].
  apply host_lines_line in H; [| reflexivity]. destruct H as [H _]. rewrite H.
  change (line (state start_world)) with (-1)%Z. lia.
Qed.

(** X12.  On a line that is not finished, a call of [token] in a state that the
    editor reaches either consumes at least one character, or leaves the
    stream as it is and returns with a shorter stack. *)
Theorem token_makes_progress w r w' :
  Reachable w -> rest (stream w) <> [] -> _token w = inr (r, w') ->
  List.length (rest (stream w')) < List.length (rest (stream w)) \/
  (stream w' = stream w /\
   List.length (stack (state w')) < List.length (stack (state w))).
Proof.
  intros R E T. assert (F := @token_forward _ _ _ T). destruct F as [[k F] _].
  apply token_advances in T; [| apply reachable_heap_ok; exact R].
  destruct T as [L T]. unfold measure in T.
  destruct (rest (stream w)) as [| c rs] eqn:Er; [contradiction |].
  destruct k as [| k].
  - right. rewrite consume_0 in F. rewrite F, Er in T. cbn [List.length] in T.
    split; [exact F | lia].
  - left. rewrite F. cbn [consume rest]. rewrite Er, length_skipn. cbn [List.length]. lia.
Qed.

Lemma graphics_line_reachable : Reachable graphics_line.
Proof.
  eapply reach_step.
  - apply host_document_reachable with (ls := ["\begin{figure}"%string]).
    vm_compute. reflexivity.
  - apply step_line; [vm_compute; reflexivity | discriminate].
Qed.

Lemma token_makes_progress_witness :
  Reachable graphics_line /\
  exists r w',
    _token graphics_line = inr (r, w') /\
    (List.length (rest (stream w')) < List.length (rest (stream graphics_line)) \/
     (stream w' = stream graphics_line /\
      List.length (stack (state w')) < List.length (stack (state graphics_line)))).
Proof.
  split; [exact graphics_line_reachable |].
  eexists. eexists. split; [vm_compute; reflexivity |].
  eapply (@token_makes_progress graphics_line _ _ graphics_line_reachable);
    [vm_compute; discriminate | vm_compute; reflexivity].
Defined.

Lemma token_moves_forward_witness :
  exists r w',
    _token graphics_line = inr (r, w') /\
    (exists k, stream w' = consume (stream graphics_line) k) /\
    line (state w') =
      (if line_started graphics_line w' then (line (state graphics_line) + 1)%Z
       else line (state graphics_line)).
Proof.
  eexists. eexists. split; [vm_compute; reflexivity |].
  eapply (@token_moves_forward graphics_line). vm_compute. reflexivity.
Defined.

Lemma blank_line_only_pops_witness :
  Reachable (world_after nested_marks) /\
  exists r w',
    blankLine (state (world_after nested_marks)) (heap (world_after nested_marks))
      = inr (r, w') /\
    marks (state w') = marks (state (world_after nested_marks)) /\
    heap w' = heap (world_after nested_marks) /\
    line (state w') = (line (state (world_after nested_marks)) + 1)%Z /\
    (exists j, stack (state w') = skipn j (stack (state (world_after nested_marks)))) /\
    (exists k, openMarks (state w') = skipn k (openMarks (state (world_after nested_marks)))).
Proof.
  assert (R : Reachable (world_after nested_marks)).
  { apply host_document_reachable with (ls := nested_marks). vm_compute. reflexivity. }
  split; [exact R |].
  eexists. eexists. split; [vm_compute; reflexivity |].
  eapply (@blank_line_only_pops _ _ _ R). vm_compute. reflexivity.
Defined.

(** ** Scenarios *)


(** C3.  The line [foo $x bar $$x$$] leaves exactly one closed mark, the
    display math from column 11 to column 16, and no open mark: at column 11
    the inline-math mark opened at column 4 is still open, and the call of
    [token] there abandons it and opens the display math in its place. *)
Theorem dollar_abandoned_before_display_math :
  (exists p, parseDocument ["foo $x bar $$x$$"%string] = Done p /\
     map outline (marks (final p)) =
       [("display-math"%string, mkPos 0 11, mkPos 0 13, mkPos 0 14, mkPos 0 16)] /\
     openMarks (final p) = []) /\
  (exists w8 w9,
     token_steps 8 (mkWorld (StringStream dollar_line) startState empty_heap) = inr w8 /\
     pos (stream w8) = 11 /\
     map (fun o => (o_kind o, o_from o)) (openMarks (state w8)) =
       [("inline-math"%string, mkPos 0 4)] /\
     marks (state w8) = [] /\
     _token w8 = inr (Some keyword, w9) /\
     pos (stream w9) = 13 /\
     map (fun o => (o_kind o, o_from o, o_contentFrom o)) (openMarks (state w9)) =
       [("display-math"%string, mkPos 0 11, mkPos 0 13)] /\
     marks (state w9) = []).
Proof.
  split.
  - eexists. split; [vm_compute; reflexivity |]. split; reflexivity.
  - eexists. eexists. split; [vm_compute; reflexivity |].
    split; [reflexivity |]. split; [reflexivity |]. split; [reflexivity |].
    split; [vm_compute; reflexivity |]. repeat split.
Qed.


(** C1.  A line comment can interrupt the sequence of a [\begin{...}]: the
    state kept at the end of the line then holds the deferred [_matchNext],
    whose counter the next line advances.  Tokenizing the second line again
    from the kept state finds the counter advanced, and gives other
    styles. *)
Theorem resumed_styles_differ :
  exists p q,
    parseDocument interrupted_begin = Done p /\
    resume_from 1 (map js interrupted_begin) p = Done q /\
    skipn 1 (styles p) = [[Some keyword]] /\
    styles q = [[None; None]] /\
    marks (final q) = marks (final p).
Proof.
  eexists. eexists. split; [vm_compute; reflexivity |].
  split; [vm_compute; reflexivity |]. repeat split.
Qed.




(** ** The closed marks are distinct *)

Lemma closes_refl w : closes w w.
Proof. split; [reflexivity |]. split; [left; reflexivity | auto]. Qed.

Lemma eats_closes w w' : eats w w' -> closes w w'.
Proof.
  intros (_ & (l & S & _ & F) & L & C). split; [exact L |]. split; [exact C |].
  intros G. rewrite S. apply Forall_app. split; assumption.
Qed.

Lemma still_closes w w' : still w w' -> closes w w'.
Proof.
  intros (S & _ & M & L). split; [exact L |]. split; [left; exact M |].
  rewrite S. auto.
Qed.

Lemma tokenizes_closes m w r w' : tokenizes m -> m w = inr (r, w') -> closes w w'.
Proof.
  intros T H. apply T in H. destruct (rest (stream w));
    [apply still_closes | apply eats_closes]; exact H.
Qed.

Lemma strict_closes m w r w' : strict m -> m w = inr (r, w') -> closes w w'.
Proof.
  intros T H. apply T in H. destruct r; [apply eats_closes | apply still_closes]; exact H.
Qed.

Lemma later_refl w : later w w.
Proof. repeat split; try reflexivity. exists 0. reflexivity. Qed.

Lemma Forall_skipn {A} (P : A -> Prop) j (l : list A) : Forall P l -> Forall P (skipn j l).
Proof.
  revert l. induction j as [| j IH]; intros l H; [exact H |].
  destruct l as [| a l]; [exact H |]. inversion H; subst. simpl. apply IH. assumption.
Qed.

Lemma later_closes w w1 w' : later w w1 -> closes w1 w' -> closes w w'.
Proof.
  intros (L & M & P & j & S) (L' & C & F). split; [congruence |]. split.
  - destruct C as [C | (m & C & A1 & A2)]; [left; congruence | right].
    exists m. split; [congruence |]. split; [congruence | lia].
  - intros G. apply F. rewrite S. apply Forall_skipn. exact G.
Qed.

Lemma tl_skipn {A} j : forall l : list A, tl (skipn j l) = skipn (S j) l.
Proof.
  induction j as [| j IH]; intros l; [destruct l; reflexivity |].
  destruct l as [| a l]; [reflexivity |]. exact (IH l).
Qed.

Lemma later_pop w w1 u w2 :
  later w w1 -> _pop w1 = inr (u, w2) ->
  later w w2 /\ heap w2 = heap w1 /\ stream w2 = stream w1 /\
  stack (state w2) = tl (stack (state w1)).
Proof.
  intros (L & M & P & j & S) H. apply pop_inr in H.
  destruct H as (S2 & M2 & _ & L2 & T2 & H2).
  split; [| auto]. split; [congruence |]. split; [congruence |].
  split; [rewrite T2; exact P |]. exists (Datatypes.S j). rewrite S2, S. apply tl_skipn.
Qed.

Ltac later_solve :=
  unfold later in *;
  repeat match goal with H : _ /\ _ |- _ => destruct H | H : exists _, _ |- _ => destruct H end;
  cbn [stream state heap stack line marks pos rest consume] in *; subst;
  repeat split; try reflexivity; try assumption; try discriminate; try lia;
  try (eexists; first [eassumption | reflexivity]).

Lemma later_abandon w w1 u w2 :
  later w w1 -> _abandonMark w1 = inr (u, w2) ->
  later w w2 /\ heap w2 = heap w1 /\ stream w2 = stream w1 /\
  stack (state w2) = stack (state w1).
Proof.
  intros L H. destruct w1 as [s1 [k1 l1 o1 m1] h1]. munfold. mrun'. later_solve.
Qed.

Lemma later_match p w w1 m w2 :
  later w w1 -> stream_match p true w1 = inr (m, w2) ->
  later w w2 /\ heap w2 = heap w1 /\ state w2 = state w1 /\
  (if m then exists n, p (rest (stream w1)) = Some n /\ stream w2 = consume (stream w1) n
   else w2 = w1).
Proof.
  intros L H. destruct w1 as [s1 [k1 l1 o1 m1] h1]. munfold. mrun'; later_solve.
  eexists. split; reflexivity.
Qed.

Lemma later_blank w w1 b w2 :
  later w w1 -> _matchBlankLine w1 = inr (b, w2) ->
  later w w2 /\ heap w2 = heap w1 /\ state w2 = state w1 /\ (b = false -> w2 = w1).
Proof.
  intros L H. unfold _matchBlankLine in H.
  destruct w1 as [s1 [k1 l1 o1 m1] h1]. munfold. mrun'; later_solve.
Qed.

(** A step of a sequence whose counter is in range consumes. *)
Lemma strict_matchNext c sq cb w r w' :
  nth c (cells (heap w)) 0 <= 3 ->
  _matchNext c sq cb w = inr (r, w') ->
  match r with Some _ => eats w w' | None => still w w' end.
Proof.
  intros V H. unfold _matchNext in H.
  apply bind_inr in H. destruct H as (i & w2 & E & H).
  unfold read_cell in E. inversion E; subst i w2; clear E.
  assert (Pp : positive (sequence_pattern sq (nth c (cells (heap w)) 0)))
    by (apply positive_sequence_pattern; exact V).
  assert (T : exists s, sequence_token (nth c (cells (heap w)) 0) = Some s).
  { destruct (nth c (cells (heap w)) 0) as [| [| [| [| i]]]]; cbn [sequence_token];
      try (eexists; reflexivity). lia. }
  destruct T as [s T]. rewrite T in H.
  destruct w as [[ps ss rs] [stk ln om mk] h]. cbn [heap] in *.
  destruct (nth c (cells h) 0 + 1 <? 4).
  - unfold run_callback in H. munfold. mrun'; progress_solve.
  - destruct cb as [| e p | e p |]; cbn [run_callback] in H.
    + munfold. mrun'; progress_solve.
    + destruct (env_kind e), p; unfold _openMark, set_openMarksCount in H; munfold; mrun';
        progress_solve.
    + destruct (env_kind e), p; unfold _closeMark, set_checkedProperties in H; munfold; mrun';
        progress_solve.
    + munfold. mrun'; progress_solve.
Qed.

Lemma later_strict m w w1 r w' :
  strict m -> later w w1 -> m w1 = inr (r, w') -> closes w w'.
Proof.
  intros S L H. eapply later_closes; [exact L |]. eapply strict_closes; eassumption.
Qed.

Lemma deferred_closes d below w r w' :
  stack (state w) = Deferred d :: below ->
  heap_ok (stack (state w)) (heap w) ->
  (_pop ;; deferred_call d) w = inr (r, w') -> closes w w'.
Proof.
  intros Sw Hh H. apply bind_inr in H. destruct H as (u & w1 & E & H).
  destruct (later_pop (later_refl w) E) as (L & Eh & _ & _).
  destruct d as [c sq cb | k p | k p |]; cbn [deferred_call] in H.
  - eapply later_closes; [exact L |].
    assert (V : nth c (cells (heap w1)) 0 <= 3).
    { rewrite Eh. rewrite Sw in Hh. destruct Hh as [_ Hc].
      destruct (Hc c) as [_ ?]; [left; reflexivity | lia]. }
    assert (Q := @strict_matchNext _ _ _ _ _ _ V H).
    destruct r; [apply eats_closes | apply still_closes]; exact Q.
  - eapply later_strict; [| exact L | exact H]. apply strict_matchAndMark; discriminate.
  - eapply later_strict; [| exact L | exact H]. apply strict_matchAndMark; discriminate.
  - eapply later_strict; [| exact L | exact H]. apply strict_matchArgument; discriminate.
Qed.

(** The branch that has consumed [close] and pops, with or without closing
    a mark. *)
Lemma pop_ret_closes w w1 (s r : option Style) w' :
  later w w1 -> (_pop ;; ret s) w1 = inr (r, w') -> closes w w'.
Proof.
  intros L H. apply bind_inr in H. destruct H as (u & w2 & E & H).
  apply ret_inr in H. destruct H as [_ <-].
  destruct (later_pop L E) as (L2 & _). eapply later_closes; [exact L2 | apply closes_refl].
Qed.

Section ResumeCloses.

Variable K : M (option Style).
Variable below : list Tok.
Variable hp : Heap.
Hypothesis HK : forall w1 r w',
  stack (state w1) = below -> heap w1 = hp -> Forall closer_ok below ->
  K w1 = inr (r, w') -> closes w1 w'.

Lemma resume_closes t w w2 r w' :
  stack (state w) = t :: below -> heap w = hp -> Forall closer_ok (stack (state w)) ->
  later w w2 -> stack (state w2) = stack (state w) -> heap w2 = heap w ->
  (_pop ;; K) w2 = inr (r, w') -> closes w w'.
Proof.
  intros Sw Hh G L S2 H2 H. apply bind_inr in H. destruct H as (u & w3 & E & H).
  destruct (later_pop L E) as (L3 & H3 & _ & S3).
  rewrite S2, Sw in S3. cbn [tl] in S3. rewrite Sw in G. apply Forall_inv_tail in G.
  eapply later_closes; [exact L3 |]. eapply HK; [exact S3 | congruence | assumption | exact H].
Qed.

Lemma abandon_resume_closes t w w2 r w' :
  stack (state w) = t :: below -> heap w = hp -> Forall closer_ok (stack (state w)) ->
  later w w2 -> stack (state w2) = stack (state w) -> heap w2 = heap w ->
  (_abandonMark ;; _pop ;; K) w2 = inr (r, w') -> closes w w'.
Proof.
  intros Sw Hh G L S2 H2 H. apply bind_inr in H. destruct H as (u & w3 & E & H).
  destruct (later_abandon L E) as (L3 & H3 & _ & S3).
  eapply resume_closes; [exact Sw | exact Hh | exact G | exact L3 | | | exact H]; congruence.
Qed.

End ResumeCloses.

Lemma verb_body_closes verbEnd w r w' :
  run_tokenizer (VerbBody verbEnd) (ret None) w = inr (r, w') -> closes w w'.
Proof.
  intros H. cbn [run_tokenizer] in H.
  split_bind H m w1 E. destruct (@later_match _ _ _ _ _ (later_refl w) E) as (L1 & _ & _ & _).
  destruct m.
  - eapply pop_ret_closes; [exact L1 | exact H].
  - split_bind H f w2 F.
    assert (L2 : later w w2).
    { destruct w1 as [s1 [k1 l1 o1 m1] h1]. munfold. mrun'; later_solve. }
    destruct f.
    + apply ret_inr in H. destruct H as [_ <-].
      eapply later_closes; [exact L2 | apply closes_refl].
    + split_bind H u w3 G. apply ret_inr in H. destruct H as [_ <-].
      assert (L3 : later w w3).
      { destruct w2 as [s2 [k2 l2 o2 m2] h2]. munfold. mrun'; later_solve. }
      eapply later_closes; [exact L3 | apply closes_refl].
Qed.

Lemma after_end_document_closes w r w' :
  run_tokenizer AfterEndDocument (ret None) w = inr (r, w') -> closes w w'.
Proof.
  intros H. cbn [run_tokenizer] in H. split_bind H u w1 E.
  apply ret_inr in H. destruct H as [_ <-].
  assert (L : later w w1).
  { pose proof (later_refl w) as L0. destruct w as [s0 [k0 l0 o0 m0] h0].
    munfold. mrun'; later_solve. }
  eapply later_closes; [exact L | apply closes_refl].
Qed.

Lemma close_mark_closes w w1 n sp m w2 (s r : option Style) w' :
  0 < n -> stream w1 = consume (stream w) n -> state w1 = state w ->
  _closeMark sp w1 = inr (m, w2) ->
  (_pop ;; ret s) w2 = inr (r, w') -> closes w w'.
Proof.
  intros Hn T S C H. apply closeMark_inr in C.
  destruct C as (C1 & C2 & _ & C3 & C4 & _ & o & _ & Em).
  apply bind_inr in H. destruct H as (u & w3 & E & H).
  apply ret_inr in H. destruct H as [_ <-].
  apply pop_inr in E. destruct E as (P1 & P2 & _ & P3 & _).
  split; [congruence |]. split.
  - right. exists m. split; [congruence |]. rewrite Em. unfold ahead. cbn [to pos_line pos_ch].
    rewrite T, S. cbn [consume pos start]. split; [reflexivity | lia].
  - intros G. rewrite P1, C1, S. destruct (stack (state w)); [exact G |].
    apply Forall_inv_tail in G. exact G.
Qed.

Lemma run_tokenizer_closes K t below w r w' :
  stack (state w) = t :: below ->
  heap_ok (stack (state w)) (heap w) ->
  Forall closer_ok (stack (state w)) ->
  (forall w1 r1 w1',
     stack (state w1) = below -> heap w1 = heap w -> Forall closer_ok below ->
     K w1 = inr (r1, w1') -> closes w1 w1') ->
  run_tokenizer t (_pop ;; K) w = inr (r, w') -> closes w w'.
Proof.
  intros Sw Hh G HK H.
  destruct t as [| d | close cs ab im | close cs im | im | verbEnd | e |].
  - eapply tokenizes_closes; [apply tokenizes_topLevel | exact H].
  - eapply deferred_closes; [exact Sw | exact Hh | exact H].
  - cbn [run_tokenizer] in H. split_bind H b w1 E.
    destruct (later_blank (later_refl w) E) as (L1 & E2 & E1 & E3).
    destruct b.
    { eapply abandon_resume_closes;
        [exact HK | exact Sw | reflexivity | exact G | exact L1 | | | exact H]; congruence. }
    rewrite (E3 eq_refl) in H. clear w1 E L1 E1 E2 E3.
    split_bind H a w1 E. apply lookahead_any_same in E. subst w1.
    destruct a.
    { eapply abandon_resume_closes;
        [exact HK | exact Sw | reflexivity | exact G | apply later_refl | | | exact H];
        reflexivity. }
    split_bind H c w1 E.
    destruct (@later_match _ _ _ _ _ (later_refl w) E) as (L1 & E2 & E1 & E3).
    destruct c.
    + destruct E3 as (n & Pn & T).
      assert (Hn : 0 < n).
      { assert (Pp : positive (lit close)).
        { apply positive_lit. rewrite Sw in G. apply Forall_inv in G. exact G. }
        apply (@positive_length _ _ _ Pp Pn). }
      split_bind H sp w2 F. apply startPos_inr in F. subst w2.
      split_bind H m w2 F.
      eapply close_mark_closes; [exact Hn | exact T | exact E1 | exact F | exact H].
    + subst w1. eapply tokenizes_closes; [apply (tokenizes_inner_mode im) | exact H].
  - cbn [run_tokenizer] in H. split_bind H b w1 E.
    destruct (later_blank (later_refl w) E) as (L1 & E2 & E1 & E3).
    destruct b.
    { eapply pop_ret_closes; [exact L1 | exact H]. }
    rewrite (E3 eq_refl) in H. clear w1 E L1 E1 E2 E3.
    split_bind H c w1 E.
    destruct (@later_match _ _ _ _ _ (later_refl w) E) as (L1 & E2 & E1 & E3).
    destruct c.
    + eapply pop_ret_closes; [exact L1 | exact H].
    + subst w1. eapply tokenizes_closes; [apply (tokenizes_inner_mode im) | exact H].
  - cbn [run_tokenizer] in H. unfold stream_eat in H. split_bind H c w1 E.
    destruct (@later_match _ _ _ _ _ (later_refl w) E) as (L1 & E2 & E1 & E3).
    destruct c.
    + eapply pop_ret_closes; [exact L1 | exact H].
    + subst w1. eapply tokenizes_closes; [apply (tokenizes_inner_mode im) | exact H].
  - eapply verb_body_closes. exact H.
  - cbn [run_tokenizer] in H. split_bind H b w1 E.
    assert (E' : later w w1 /\ heap w1 = heap w /\ state w1 = state w /\ (b = false -> w1 = w)).
    { destruct (negb (allowBlankLines e)); [apply later_blank; [apply later_refl | exact E] |].
      apply ret_inr in E. destruct E as [<- <-]. split; [apply later_refl | auto]. }
    clear E. destruct E' as (L1 & E2 & E1 & E3).
    destruct b.
    { destruct (env_kind e).
      - eapply abandon_resume_closes;
          [exact HK | exact Sw | reflexivity | exact G | exact L1 | | | exact H]; congruence.
      - split_bind H u w2 F. apply ret_inr in F. destruct F as [_ <-].
        eapply resume_closes;
          [exact HK | exact Sw | reflexivity | exact G | exact L1 | | | exact H]; congruence. }
    rewrite (E3 eq_refl) in H. clear w1 L1 E1 E2 E3.
    split_bind H c w1 E. apply lookahead_same in E. subst w1.
    destruct c.
    + split_bind H p w1 E.
      assert (w1 = w) as ->.
      { destruct (env_kind e); [| apply ret_inr in E; destruct E; congruence].
        split_bind E sp w2 F. apply startPos_inr in F. subst w2.
        apply ret_inr in E. destruct E; congruence. }
      split_bind H u w1 F. destruct (later_pop (later_refl w) F) as (L1 & _).
      eapply later_strict; [apply strict_matchSequence | exact L1 | exact H].
    + eapply tokenizes_closes; [apply (tokenizes_env_tokenizer (tokenizer e)) | exact H].
  - eapply after_end_document_closes. exact H.
Qed.

Lemma call_top_closes stk : forall f w r w',
  stack (state w) = stk -> heap_ok stk (heap w) -> Forall closer_ok stk ->
  call_top f stk w = inr (r, w') -> closes w w'.
Proof.
  induction stk as [| t below IH]; intros f w r w' Sw Hh G H; cbn [call_top] in H.
  - discriminate H.
  - eapply run_tokenizer_closes; [exact Sw | rewrite Sw; exact Hh | rewrite Sw; exact G | | exact H].
    intros w1 r1 w1' S1 H1 G1 E. eapply IH; [exact S1 | | exact G1 | exact E].
    rewrite H1. eapply heap_ok_tl. exact Hh.
Qed.

Lemma token_closes w r w' :
  heap_ok (stack (state w)) (heap w) -> Forall closer_ok (stack (state w)) ->
  _token w = inr (r, w') ->
  Forall closer_ok (stack (state w')) /\
  (marks (state w') = marks (state w) \/
   exists m, marks (state w') = marks (state w) ++ [m] /\ pos_lt (bound w) (to m)).
Proof.
  intros Hh G H. apply token_frame in H.
  destruct H as (L & a & w2 & w3 & EL & E1 & E2 & Es & Eh & Ek & Eo & Em & El).
  match type of E1 with _matchLineComment ?W = _ => set (W1 := W) in * end.
  assert (C : closes W1 w3).
  { destruct a as [x |].
    - apply strict_matchLineComment in E1. apply ret_inr in E2. destruct E2 as [_ <-].
      apply eats_closes. exact E1.
    - apply matchLineComment_none_inr in E1. subst w2.
      apply bind_inr in E2. destruct E2 as (st & w4 & E3 & E2).
      unfold get_state in E3. inversion E3; subst st w4. clear E3.
      eapply call_top_closes; [reflexivity | exact Hh | exact G | exact E2]. }
  destruct C as (_ & C & F). rewrite Ek, Em. split; [apply F; exact G |].
  destruct C as [C | (m & C & A1 & A2)]; [left; exact C | right].
  exists m. split; [exact C |]. subst W1. cbn [stream state line] in A1, A2.
  unfold bound, pos_lt. rewrite A1, EL.
  destruct (pos (stream w)) as [| p]; cbn [Nat.eqb pos_line pos_ch]; right; split;
    (reflexivity || lia).
Qed.

Lemma strictly_ascending_snoc l p :
  strictly_ascending l -> (forall q, In q l -> pos_lt q p) -> strictly_ascending (l ++ [p]).
Proof.
  induction l as [| a l IH]; intros A H; cbn [app strictly_ascending].
  - split; [intros q [] | exact I].
  - destruct A as [A1 A2]. split.
    + intros q Hq. apply in_app_or in Hq. destruct Hq as [Hq | [<- | []]];
        [apply A1; exact Hq | apply H; left; reflexivity].
    + apply IH; [exact A2 |]. intros q Hq. apply H. right. exact Hq.
Qed.

Lemma strictly_ascending_extended b b' (ms ms' : list Mark) :
  strictly_ascending (map to ms) ->
  Forall (fun m => pos_le (to m) b) ms -> pos_le b b' ->
  (ms' = ms \/ exists m, ms' = ms ++ [m] /\ pos_lt b' (to m)) ->
  strictly_ascending (map to ms').
Proof.
  intros A F Hb [-> | (m & -> & Hm)]; [exact A |].
  rewrite map_app. cbn [map]. apply strictly_ascending_snoc; [exact A |].
  intros q Hq. apply in_map_iff in Hq. destruct Hq as (m0 & <- & Hm0).
  rewrite Forall_forall in F. specialize (F _ Hm0). pos_solve.
Qed.

Lemma reachable_closes_ahead w :
  Reachable w ->
  Forall closer_ok (stack (state w)) /\ strictly_ascending (map to (marks (state w))).
Proof.
  induction 1 as [| w w' R [G A] H].
  - split; [repeat constructor | exact I].
  - assert (Hh := reachable_heap_ok R).
    assert (F : Forall (fun m => pos_le (to m) (bound w)) (marks (state w))).
    { apply reachable_ok in R. destruct R as (_ & Gd & _). apply Gd. }
    destruct H as [w r w' E H | w r w' E H | w l E Hl].
    + destruct (@token_closes _ _ _ Hh G H) as [G' C]. split; [exact G' |].
      eapply strictly_ascending_extended; [exact A | exact F | apply pos_le_refl | exact C].
    + apply blankLine_inr in H. destruct H as (_ & r0 & H).
      destruct (@token_closes (mkWorld (StringStream []) (state w) (heap w)) r0 w' Hh G H)
        as [G' C].
      split; [exact G' |].
      eapply strictly_ascending_extended; [exact A | exact F | | exact C].
      unfold bound. cbn [stream state StringStream pos].
      destruct (pos (stream w)); pos_solve.
    + split; assumption.
Qed.

Lemma strictly_ascending_NoDup {A} (f : A -> Pos) (l : list A) :
  strictly_ascending (map f l) -> NoDup l.
Proof.
  induction l as [| a l IH]; intros H; [constructor |].
  destruct H as [H1 H2]. constructor; [| apply IH; exact H2].
  intros Ha. specialize (H1 (f a) (in_map f _ _ Ha)). pos_solve.
Qed.

(** X13.  In every state that the editor reaches, each closed mark ends after the
    marks closed before it: no two closed marks are equal. *)
Theorem closed_marks_distinct w :
  Reachable w ->
  strictly_ascending (map to (marks (state w))) /\ NoDup (marks (state w)).
Proof.
  intros R. apply reachable_closes_ahead in R. destruct R as [_ A].
  split; [exact A | eapply strictly_ascending_NoDup; exact A].
Qed.

Lemma closed_marks_distinct_witness :
  Reachable (world_after section_and_math) /\
  strictly_ascending (map to (marks (state (world_after section_and_math)))) /\
  NoDup (marks (state (world_after section_and_math))).
Proof.
  assert (R : Reachable (world_after section_and_math)).
  { apply host_document_reachable with (ls := section_and_math). vm_compute. reflexivity. }
  split; [exact R | apply closed_marks_distinct; exact R].
Defined.

(** X14.  A call of [token] in a state that the editor reaches closes one mark at
    most, and the mark that it closes ends after the cursor of the call. *)
Theorem token_closes_one_mark w r w' :
  Reachable w -> _token w = inr (r, w') ->
  marks (state w') = marks (state w) \/
  exists m, marks (state w') = marks (state w) ++ [m] /\ pos_lt (bound w) (to m).
Proof.
  intros R H. assert (Hh := reachable_heap_ok R).
  apply reachable_closes_ahead in R. destruct R as [G _].
  apply (@token_closes _ _ _ Hh G H).
Qed.

Lemma token_closes_one_mark_witness :
  Reachable item_world /\
  exists r w',
    _token item_world = inr (r, w') /\
    (marks (state w') = marks (state item_world) \/
     exists m, marks (state w') = marks (state item_world) ++ [m] /\
               pos_lt (bound item_world) (to m)).
Proof.
  assert (R : Reachable item_world).
  { eapply reach_step.
    - apply host_document_reachable with (ls := ["\begin{enumerate}"%string]).
      vm_compute. reflexivity.
    - apply step_line; [vm_compute; reflexivity | discriminate]. }
  split; [exact R |].
  eexists. eexists. split; [vm_compute; reflexivity |].
  eapply (@token_closes_one_mark item_world _ _ R). vm_compute. reflexivity.
Defined.

(** ** The end of an environment *)

(** [_token] in terms of what the line comment and the function on top of
    the stack return. *)
Lemma token_run w a w2 r w3 :
  _matchLineComment
    (mkWorld (stream w)
       (mkState (stack (state w))
          (if Nat.eqb (pos (stream w)) 0 then (line (state w) + 1)%Z else line (state w))
          (openMarks (state w)) (marks (state w))) (heap w)) = inr (a, w2) ->
  match a with
  | Some r => ret (Some r)
  | None => st <- get_state ;; call_top EmptyStack (stack st)
  end w2 = inr (r, w3) ->
  _token w =
    inr (r, mkWorld (stream w3)
              (mkState (stack (state w3))
                 (if Nat.eqb (pos (stream w3)) 0 &&
                     negb match rest (stream w3) with [] => true | _ :: _ => false end
                  then (line (state w3) - 1)%Z else line (state w3))
                 (openMarks (state w3)) (marks (state w3)))
              (heap w3)).
Proof.
  intros E1 E2. destruct w as [s [stk l os ms] hp].
  cbn [stream state heap stack line openMarks marks] in *.
  unfold _token, _startNewLine. munfold.
  unfold bind at 1. unfold bind at 1. unfold get_stream, ret at 1.
  cbn [stream state heap stack line openMarks marks].
  assert (W : (if Nat.eqb (pos s) 0
               then st <- get_state ;;
                    set_state (mkState (stack st) (line st + 1) (openMarks st) (marks st))
               else ret tt) (mkWorld s (mkState stk l os ms) hp) =
              inr (tt, mkWorld s (mkState stk (if Nat.eqb (pos s) 0 then (l + 1)%Z else l) os ms) hp)).
  { destruct (Nat.eqb (pos s) 0); reflexivity. }
  unfold bind at 1. rewrite W. unfold bind at 1. rewrite E1.
  unfold bind at 1. rewrite E2.
  unfold bind, get_stream, get_state, set_state, ret.
  destruct w3 as [s3 [stk3 l3 os3 ms3] hp3].
  cbn [stream state heap stack line openMarks marks].
  destruct (Nat.eqb (pos s3) 0 &&
            negb match rest s3 with [] => true | _ :: _ => false end); reflexivity.
Qed.

(** A call on the function of a sequence, past the start of the line. *)
Lemma token_on_sequence c sq cb below s l os ms h r w3 :
  0 < pos s -> re_line_comment (rest s) = None ->
  _matchNext c sq cb (mkWorld s (mkState below l os ms) h) = inr (r, w3) ->
  pos s <= pos (stream w3) ->
  _token (mkWorld s (mkState (Deferred (DMatchNext c sq cb) :: below) l os ms) h) =
    inr (r, w3).
Proof.
  intros Hp Hc H Hq.
  rewrite (@token_run _ None
             (mkWorld s (mkState (Deferred (DMatchNext c sq cb) :: below) l os ms) h) r w3).
  - destruct w3 as [s3 [stk3 l3 os3 ms3] hp3]. cbn [stream state heap stack line openMarks marks pos] in *.
    destruct (pos s3) as [| q]; [lia |]. reflexivity.
  - cbn [stream state heap stack line openMarks marks].
    destruct (pos s) as [| q]; [lia |]. cbn [Nat.eqb].
    apply matchLineComment_none. exact Hc.
  - unfold bind, get_state. cbn [state stack call_top run_tokenizer deferred_call].
    unfold _pop, set_stack, bind, get_state, set_state.
    cbn [state stack line openMarks marks stream heap tl]. exact H.
Qed.

Lemma set_nth_middle l v v' : set_nth (List.length l) v (l ++ [v']) = l ++ [v].
Proof. induction l as [| x l IH]; simpl; [reflexivity | rewrite IH; reflexivity]. Qed.

Lemma backslash_not_comment t : re_line_comment (ch "\" :: t) = None.
Proof. reflexivity. Qed.

Lemma backslash_not_blank t : re_blank (ch "\" :: t) = None.
Proof. reflexivity. Qed.

Lemma re_end_shape s k : re_end s = Some k -> 0 < k /\ exists t, s = ch "\" :: t.
Proof.
  intros H. unfold re_end in H. apply andThen_inv in H. destruct H as (a & b & Ha & _ & ->).
  split; [apply lit_pos in Ha; [lia | discriminate] |].
  apply lit_inv in Ha. eexists. rewrite Ha at 1. reflexivity.
Qed.

(** What [\end{name}] looks like: [\end], spaces, and the name in
    braces. *)
Lemma endPattern_shape e s n :
  endPattern e s = Some n ->
  exists k t,
    re_end s = Some k /\
    skipn k s = js "{" ++ regex_literal (env_name e) ++ js "}" ++ t /\
    n = k + 1 + List.length (regex_literal (env_name e)) + 1.
Proof.
  unfold endPattern. intros H.
  apply andThen_inv in H. destruct H as (k & m & Hk & H & ->).
  apply andThen_inv in H. destruct H as (k1 & m1 & H1 & H & ->).
  apply andThen_inv in H. destruct H as (k2 & m2 & H2 & H3 & ->).
  assert (L1 := @lit_length _ _ _ H1). assert (L2 := @lit_length _ _ _ H2).
  assert (L3 := @lit_length _ _ _ H3).
  apply lit_inv in H1, H2, H3.
  exists k, (skipn m2 (skipn k2 (skipn k1 (skipn k s)))). split; [exact Hk |]. split.
  - rewrite H1 at 1. simpl. f_equal. rewrite H2 at 1. f_equal. rewrite H3 at 1. reflexivity.
  - rewrite L1, L2, L3. simpl. lia.
Qed.

Lemma matchBlankLine_false w t :
  rest (stream w) = ch "\" :: t -> _matchBlankLine w = inr (false, w).
Proof.
  intros R. destruct w as [[p st rs] sta hp]. cbn [stream rest] in R. subst rs.
  unfold _matchBlankLine, sol, eol, stream_match, bind, get_stream, ret.
  cbn [stream pos rest]. destruct p; reflexivity.
Qed.

(** The end of an environment, first call: [\end] and the spaces after
    it. *)
Lemma end_first_step e below s l os ms h n k t :
  let L := if Nat.eqb (pos s) 0 then (l + 1)%Z else l in
  let cp := if is_marked e then Some (mkPos L (start s)) else None in
  endPattern e (rest s) = Some n -> re_end (rest s) = Some k -> rest s = ch "\" :: t ->
  0 < k ->
  _token (mkWorld s (mkState (EnvironmentBody e :: below) l os ms) h) =
    inr (Some tag,
         mkWorld (consume s k)
           (mkState (Deferred (DMatchNext (List.length (cells h)) EndSeq (CbEndEnvironment e cp))
                       :: below) L os ms)
           (mkHeap (cells h ++ [1]) (next_uid h))).
Proof.
  intros L cp Hn Hk R Kp.
  set (w1 := mkWorld s (mkState (EnvironmentBody e :: below) L os ms) h).
  set (w3 := mkWorld (consume s k)
           (mkState (Deferred (DMatchNext (List.length (cells h)) EndSeq (CbEndEnvironment e cp))
                       :: below) L os ms)
           (mkHeap (cells h ++ [1]) (next_uid h))).
  rewrite (@token_run _ None w1 (Some tag) w3).
  - subst w3. cbn [stream state heap stack line openMarks marks pos consume].
    replace (Nat.eqb (pos s + k) 0) with false by (symmetry; apply Nat.eqb_neq; lia).
    reflexivity.
  - cbn [stream state heap stack line openMarks marks]. fold L. fold w1.
    apply matchLineComment_none. cbn [w1 stream]. rewrite R. apply backslash_not_comment.
  - unfold bind at 1. unfold get_state. cbn [w1 state stack call_top run_tokenizer]. fold w1.
    assert (B : (if negb (allowBlankLines e) then _matchBlankLine else ret false) w1
                = inr (false, w1)).
    { destruct (negb (allowBlankLines e)); [| reflexivity].
      apply (@matchBlankLine_false w1 t). exact R. }
    unfold bind at 1. rewrite B.
    unfold bind at 1. unfold stream_match at 1. unfold bind at 1. unfold get_stream at 1.
    cbn [w1 stream]. rewrite Hn. unfold bind at 1. unfold ret at 1 2. fold w1.
    unfold _matchEndEnvironmentSequence, _matchSequence, _matchNext, _startPos, _pop, _defer,
      _push, set_stack, new_cell, read_cell, write_cell, stream_match.
    unfold is_marked in cp. subst cp w3.
    destruct (env_kind e);
      unfold bind, get_stream, get_state, set_state, set_stream, ret;
      cbn [w1 stream state heap stack line openMarks marks cells next_uid tl];
      rewrite nth_middle; cbn [sequence_pattern]; rewrite Hk;
      cbn [Nat.add Nat.ltb Nat.leb sequence_token stream state heap stack line openMarks marks
           cells next_uid];
      rewrite set_nth_middle; reflexivity.
Qed.

(** A call in the middle of a sequence. *)
Lemma sequence_middle_step c sq cb below s l os ms h i n :
  0 < pos s -> re_line_comment (rest s) = None ->
  nth c (cells h) 0 = i -> i + 1 < 4 -> sequence_pattern sq i (rest s) = Some n ->
  _token (mkWorld s (mkState (Deferred (DMatchNext c sq cb) :: below) l os ms) h) =
    inr (sequence_token i,
         mkWorld (consume s n)
           (mkState (Deferred (DMatchNext c sq cb) :: below) l os ms)
           (mkHeap (set_nth c (i + 1) (cells h)) (next_uid h))).
Proof.
  intros Hp Hc Hi Hlt Hn. apply token_on_sequence; [exact Hp | exact Hc | | simpl; lia].
  unfold _matchNext, read_cell, write_cell, stream_match, _defer, _push, set_stack.
  unfold bind, get_stream, get_state, set_state, set_stream, ret.
  cbn [stream state heap stack line openMarks marks cells next_uid].
  rewrite Hi, Hn. apply Nat.ltb_lt in Hlt. rewrite Hlt. reflexivity.
Qed.

(** The last call of the end sequence of an environment without a mark. *)
Lemma end_last_step_unmarked c e below s l os ms h :
  0 < pos s -> nth c (cells h) 0 = 3 ->
  forall t, rest s = ch "}" :: t ->
  _token (mkWorld s (mkState (Deferred (DMatchNext c EndSeq (CbEndEnvironment e None)) :: below)
                       l os ms) h) =
    inr (Some bracket,
         mkWorld (consume s 1) (mkState below l os ms)
           (mkHeap (set_nth c 4 (cells h)) (next_uid h))).
Proof.
  intros Hp Hi t R. apply token_on_sequence; [exact Hp | rewrite R; reflexivity | | simpl; lia].
  unfold _matchNext, read_cell, write_cell, stream_match, run_callback.
  unfold bind, get_stream, get_state, set_state, set_stream, ret.
  cbn [stream state heap stack line openMarks marks cells next_uid].
  rewrite Hi, R. change (sequence_pattern EndSeq 3 (ch "}" :: t)) with (Some 1).
  cbn [Nat.add Nat.ltb Nat.leb sequence_token].
  destruct (env_kind e); reflexivity.
Qed.

(** The last call of the end sequence of an environment with a mark: the
    mark is closed. *)
Lemma end_last_step_marked c e k0 p below s l o os ms h :
  0 < pos s -> nth c (cells h) 0 = 3 -> env_kind e = Some k0 ->
  forall t, rest s = ch "}" :: t ->
  exists cp,
  _token (mkWorld s (mkState (Deferred (DMatchNext c EndSeq (CbEndEnvironment e (Some p))) :: below)
                       l (o :: os) ms) h) =
    inr (Some bracket,
         mkWorld (consume s 1)
           (mkState below l os
              (ms ++ [mkMark (o_kind o) (o_from o) (o_contentFrom o) p
                             (mkPos l (start s + (pos s + 1 - start s))) (hd_error os) cp]))
           (mkHeap (set_nth c 4 (cells h)) (next_uid h))).
Proof.
  intros Hp Hi Ek t R. eexists.
  apply token_on_sequence; [exact Hp | rewrite R; reflexivity | | simpl; lia].
  unfold _matchNext, read_cell, write_cell, stream_match, run_callback, _closeMark,
    set_checkedProperties, _currentPos, set_openMarks, set_marks.
  unfold bind, get_stream, get_state, set_state, set_stream, ret.
  cbn [stream state heap stack line openMarks marks cells next_uid].
  rewrite Hi, R, Ek. change (sequence_pattern EndSeq 3 (ch "}" :: t)) with (Some 1).
  cbn [Nat.add Nat.ltb Nat.leb sequence_token stream state heap stack line openMarks marks
       cells next_uid consume pos start tl].
  rewrite rev_unit, rev_involutive.
  cbn [kind from contentFrom contentTo to openParent checkedProperties]. reflexivity.
Qed.

(** X15.  The end of an environment of the tables takes four calls of
    [token], which return [tag], [bracket], [keyword] and [bracket] and
    consume [\end{name}]; they pop the function of the environment, and
    close its mark if it has one: the content of the mark ends where [\end]
    begins, and the mark ends after the closing brace. *)
Theorem end_closes_environment w e below o os n :
  stack (state w) = EnvironmentBody e :: below ->
  In e all_environments ->
  start (stream w) = pos (stream w) ->
  (is_marked e = true -> openMarks (state w) = o :: os) ->
  endPattern e (rest (stream w)) = Some n ->
  let L := if Nat.eqb (pos (stream w)) 0 then (line (state w) + 1)%Z else line (state w) in
  exists w1 w2 w3 w4,
    _token w = inr (Some tag, w1) /\
    _token (advance w1) = inr (Some bracket, w2) /\
    _token (advance w2) = inr (Some keyword, w3) /\
    _token (advance w3) = inr (Some bracket, w4) /\
    pos (stream w4) = pos (stream w) + n /\
    rest (stream w4) = skipn n (rest (stream w)) /\
    stack (state w4) = below /\
    if is_marked e then
      openMarks (state w4) = os /\
      exists m, marks (state w4) = marks (state w) ++ [m] /\
        outline m = (o_kind o, o_from o, o_contentFrom o,
                     mkPos L (pos (stream w)), mkPos L (pos (stream w) + n))
    else
      openMarks (state w4) = openMarks (state w) /\ marks (state w4) = marks (state w).
Proof.
  intros Sw Ie St Ho Hn L.
  destruct w as [[ps ss rs] [stk l om ms] [cs u]].
  cbn [stream state heap stack line openMarks marks pos start rest] in *. subst stk ss.
  destruct (endPattern_shape _ _ Hn) as (k & t & Hk & Hs & En).
  destruct (re_end_shape _ Hk) as (Kp & t0 & R).
  destruct (@name_matches _ (@names_ok e Ie)) as [Np Nm].
  set (name := regex_literal (env_name e)) in *.
  set (cp := if is_marked e then Some (mkPos L ps) else None).
  assert (T1 := @end_first_step e below (mkStream ps ps rs) l om ms (mkHeap cs u) n k t0 Hn Hk R Kp).
  unfold consume in T1. cbn [pos start cells next_uid rest] in T1. fold L in T1. fold cp in T1.
  rewrite Hs in T1.
  assert (T2 := @sequence_middle_step (List.length cs) EndSeq (CbEndEnvironment e cp) below
                  (mkStream (ps + k) (ps + k) (js "{" ++ name ++ js "}" ++ t)) L om ms
                  (mkHeap (cs ++ [1]) u) 1 1).
  unfold consume in T2. cbn [pos start cells next_uid rest] in T2.
  rewrite set_nth_middle in T2.
  specialize (T2 ltac:(lia) eq_refl (nth_middle _ _ _ _) ltac:(lia) eq_refl).
  change (skipn 1 (js "{" ++ name ++ js "}" ++ t)) with (name ++ js "}" ++ t) in T2.
  assert (T3 := @sequence_middle_step (List.length cs) EndSeq (CbEndEnvironment e cp) below
                  (mkStream (ps + k + 1) (ps + k + 1) (name ++ js "}" ++ t)) L om ms
                  (mkHeap (cs ++ [2]) u) 2 (List.length name)).
  unfold consume in T3. cbn [pos start cells next_uid rest] in T3.
  rewrite set_nth_middle in T3.
  specialize (T3 ltac:(lia) (@name_not_comment _ _ (@names_ok e Ie)) (nth_middle _ _ _ _)
                 ltac:(lia) (Nm t)).
  rewrite skipn_app, skipn_all, Nat.sub_diag in T3. cbn [skipn app] in T3.
  assert (Rn : skipn n rs = t).
  { rewrite En.
    replace (k + 1 + List.length name + 1) with (1 + List.length name + 1 + k) by lia.
    rewrite <- skipn_skipn, Hs. rewrite <- skipn_skipn.
    change (skipn 1 (js "{" ++ name ++ js "}" ++ t)) with (name ++ js "}" ++ t).
    rewrite <- skipn_skipn, skipn_app, skipn_all, Nat.sub_diag. reflexivity. }
  unfold cp, is_marked in *. destruct (env_kind e) as [k0 |] eqn:Ek.
  - rewrite (Ho eq_refl) in *.
    destruct (@end_last_step_marked (List.length cs) e k0 (mkPos L ps) below
                (mkStream (ps + k + 1 + List.length name) (ps + k + 1 + List.length name)
                   (js "}" ++ t)) L o os ms (mkHeap (cs ++ [3]) u)) with (t := t)
      as (cpr & T4); [simpl; lia | apply nth_middle | exact Ek | reflexivity |].
    unfold consume in T4. cbn [pos start cells next_uid rest] in T4.
    eexists. eexists. eexists. eexists.
    split; [exact T1 |]. split; [exact T2 |]. split; [exact T3 |]. split; [exact T4 |].
    cbn [stream state stack openMarks marks pos rest].
    split; [rewrite En; unfold name; lia |]. split; [rewrite Rn; reflexivity |].
    split; [reflexivity |]. split; [reflexivity |].
    eexists. split; [reflexivity |]. unfold outline. cbn [kind from contentFrom contentTo to].
    f_equal. f_equal. rewrite En. unfold name. lia.
  - assert (T4 := @end_last_step_unmarked (List.length cs) e below
                (mkStream (ps + k + 1 + List.length name) (ps + k + 1 + List.length name)
                   (js "}" ++ t)) L om ms (mkHeap (cs ++ [3]) u)
                ltac:(simpl; lia) (nth_middle _ _ _ _) t eq_refl).
    unfold consume in T4. cbn [pos start cells next_uid rest] in T4.
    eexists. eexists. eexists. eexists.
    split; [exact T1 |]. split; [exact T2 |]. split; [exact T3 |]. split; [exact T4 |].
    cbn [stream state stack openMarks marks pos rest].
    split; [rewrite En; unfold name; lia |]. split; [rewrite Rn; reflexivity |]. repeat split; reflexivity.
Qed.

Lemma end_closes_environment_witness :
  stack (state figure_end) = [EnvironmentBody figure_environment; TopLevel] /\
  endPattern figure_environment (rest (stream figure_end)) = Some 12 /\
  exists w1 w2 w3 w4,
    _token figure_end = inr (Some tag, w1) /\
    _token (advance w1) = inr (Some bracket, w2) /\
    _token (advance w2) = inr (Some keyword, w3) /\
    _token (advance w3) = inr (Some bracket, w4) /\
    pos (stream w4) = 12 /\
    rest (stream w4) = js " x" /\
    stack (state w4) = [TopLevel] /\
    openMarks (state w4) = [] /\
    exists m, marks (state w4) = marks (state figure_end) ++ [m] /\
      outline m = ("figure"%string, mkPos 0 0, mkPos 0 14, mkPos 1 0, mkPos 1 12).
Proof.
  split; [vm_compute; reflexivity |]. split; [vm_compute; reflexivity |].
  apply (@end_closes_environment figure_end figure_environment [TopLevel] figure_mark [] 12).
  - vm_compute. reflexivity.
  - vm_compute. tauto.
  - reflexivity.
  - intros _. vm_compute. reflexivity.
  - vm_compute. reflexivity.
Defined.
(** ** Two blank lines *)











(** ** A blank line and the environment on top of the stack *)


























(** ** Every item is numbered *)

Lemma maintains_ret {A} I (a : A) : maintains I (ret a).
Proof. intros w b w' Hw H. inversion H; subst. exact Hw. Qed.

Lemma maintains_throw {A} I e : maintains I (@throw A e).
Proof. intros w b w' Hw H. discriminate H. Qed.

Lemma maintains_bind {A B} I (m : M A) (f : A -> M B) :
  maintains I m -> (forall a, maintains I (f a)) -> maintains I (bind m f).
Proof.
  intros Hm Hf w b w' Hw H. apply bind_inr in H. destruct H as (a & w1 & H1 & H2).
  exact (Hf a w1 b w' (Hm w a w1 Hw H1) H2).
Qed.

Lemma maintains_orElse I (a b : M (option Style)) :
  maintains I a -> maintains I b -> maintains I (a ||| b).
Proof.
  intros Ha Hb. unfold orElse. apply maintains_bind; [exact Ha |].
  intros [s |]; [apply maintains_ret | exact Hb].
Qed.

(** A function that leaves the state alone. *)
Lemma maintains_state {A} (m : M A) :
  (forall w a w', m w = inr (a, w') -> state w' = state w) -> maintains numbered_ok m.
Proof. intros Hm w a w' Hw H. unfold numbered_ok. rewrite (Hm w a w' H). exact Hw. Qed.

Create HintDb numbers_db.

Ltac numbers_side :=
  first [ reflexivity | assumption
        | match goal with H : _ = true |- _ => exact H end ].

Ltac numbers_auto :=
  repeat (intros;
    match goal with
    | |- maintains _ (bind _ _) => apply maintains_bind
    | |- maintains _ (ret _) => apply maintains_ret
    | |- maintains _ (throw _) => apply maintains_throw
    | |- maintains _ (_ ||| _) => apply maintains_orElse
    | |- maintains _ (if ?b then _ else _) => destruct b
    | |- maintains _ (match ?x with Some _ => _ | None => _ end) => destruct x
    | |- maintains _ (match ?x with [] => _ | _ :: _ => _ end) => destruct x
    | |- maintains _ (let (_, _) := ?x in _) => destruct x
    | |- maintains _ _ => solve [auto with numbers_db]
    end).


Ltac state_kept :=
  apply maintains_state; intros w a w' H; cbv in H; inversion H; reflexivity.

Lemma numbers_get_stream : maintains numbered_ok get_stream.
Proof. state_kept. Qed.

Lemma numbers_get_state : maintains numbered_ok get_state.
Proof. state_kept. Qed.

Lemma numbers_set_stream s : maintains numbered_ok (set_stream s).
Proof. state_kept. Qed.

Lemma numbers_new_cell v : maintains numbered_ok (new_cell v).
Proof.
  apply maintains_state. intros w a w' H. unfold new_cell in H. inversion H. reflexivity.
Qed.

Lemma numbers_read_cell c : maintains numbered_ok (read_cell c).
Proof.
  apply maintains_state. intros w a w' H. unfold read_cell in H. inversion H. reflexivity.
Qed.

Lemma numbers_write_cell c v : maintains numbered_ok (write_cell c v).
Proof.
  apply maintains_state. intros w a w' H. unfold write_cell in H. inversion H. reflexivity.
Qed.

Lemma numbers_fresh_uid : maintains numbered_ok fresh_uid.
Proof.
  apply maintains_state. intros w a w' H. unfold fresh_uid in H. inversion H. reflexivity.
Qed.

Lemma numbers_set_line f : maintains numbered_ok (set_line f).
Proof.
  intros w a w' Hw H. unfold set_line in H. mrun. exact Hw.
Qed.

#[local] Hint Resolve numbers_get_stream numbers_get_state numbers_set_stream
  numbers_new_cell numbers_read_cell numbers_write_cell numbers_fresh_uid
  numbers_set_line : numbers_db.

Lemma numbers_sol : maintains numbered_ok sol.
Proof. unfold sol. numbers_auto. Qed.

Lemma numbers_eol : maintains numbered_ok eol.
Proof. unfold eol. numbers_auto. Qed.

Lemma numbers_stream_match p c : maintains numbered_ok (stream_match p c).
Proof. unfold stream_match. numbers_auto. Qed.

Lemma numbers_stream_next : maintains numbered_ok stream_next.
Proof. unfold stream_next. numbers_auto. Qed.

Lemma numbers_stream_skipToEnd : maintains numbered_ok stream_skipToEnd.
Proof. unfold stream_skipToEnd. numbers_auto. Qed.

Lemma numbers_stream_skipTo c : maintains numbered_ok (stream_skipTo c).
Proof. unfold stream_skipTo. numbers_auto. Qed.

#[local] Hint Resolve numbers_sol numbers_eol numbers_stream_match numbers_stream_next
  numbers_stream_skipToEnd numbers_stream_skipTo : numbers_db.

Lemma numbers_stream_eat c : maintains numbered_ok (stream_eat c).
Proof. unfold stream_eat. numbers_auto. Qed.

Lemma numbers_startPos : maintains numbered_ok _startPos.
Proof. unfold _startPos. numbers_auto. Qed.

Lemma numbers_currentPos : maintains numbered_ok _currentPos.
Proof. unfold _currentPos. numbers_auto. Qed.

Lemma numbers_matchBlankLine : maintains numbered_ok _matchBlankLine.
Proof. unfold _matchBlankLine. numbers_auto. Qed.

Lemma numbers_lookahead_any ab : maintains numbered_ok (lookahead_any ab).
Proof. induction ab; simpl; numbers_auto. Qed.

(** The stack. *)
Lemma numbers_push t : plain_tok t = true -> maintains numbered_ok (_push t).
Proof.
  intros Ht w a w' (Hm & Ho & Hs) H. unfold _push, set_stack in H. mrun.
  split; [exact Hm |]. split; [exact Ho |]. cbn. rewrite Ht. exact Hs.
Qed.

Lemma forallb_tl {A} (f : A -> bool) l : forallb f l = true -> forallb f (tl l) = true.
Proof. destruct l; [trivial |]. simpl. intros H. apply andb_prop in H. apply H. Qed.

Lemma numbers_pop : maintains numbered_ok _pop.
Proof.
  intros w a w' (Hm & Ho & Hs) H. unfold _pop, set_stack in H. mrun.
  split; [exact Hm |]. split; [exact Ho |]. cbn. apply forallb_tl. exact Hs.
Qed.

Lemma numbers_defer d : plain_deferred d = true -> maintains numbered_ok (_defer d).
Proof. intros Hd. unfold _defer. apply numbers_push. exact Hd. Qed.

(** The open marks. *)
Lemma numbers_abandonMark : maintains numbered_ok _abandonMark.
Proof.
  intros w a w' (Hm & Ho & Hs) H. unfold _abandonMark, set_openMarks in H. mrun.
  split; [exact Hm |]. split; [| exact Hs]. cbn. apply forallb_tl. exact Ho.
Qed.

Lemma numbers_openMark k p :
  item_kind_name k = false -> maintains numbered_ok (_openMark k p).
Proof.
  intros Hk w a w' (Hm & Ho & Hs) H. unfold _openMark, _currentPos, set_openMarks in H.
  mrun. split; [exact Hm |]. split; [| exact Hs].
  cbn. unfold plain_open at 1. cbn. rewrite Hk. exact Ho.
Qed.

Lemma numbers_set_openMarksCount n : maintains numbered_ok (set_openMarksCount n).
Proof.
  intros w a w' (Hm & Ho & Hs) H. unfold set_openMarksCount, set_openMarks in H. mrun.
  split; [exact Hm |]. split; [| exact Hs]. cbn.
  match goal with |- context [match ?l with [] => _ | _ :: _ => _ end] =>
    destruct l as [| o os]; [reflexivity | exact Ho] end.
Qed.

(** A mark closed by [_closeMark] is not the mark of an item. *)
Lemma numbers_closeMark p : maintains numbered_ok (_closeMark p).
Proof.
  intros w a w' (Hm & Ho & Hs) H. unfold _closeMark, _currentPos, set_openMarks, set_marks in H.
  mrun. cbn in *.
  match goal with E : openMarks _ = _ :: _ |- _ => rewrite E in * end.
  cbn in *. apply andb_prop in Ho. destruct Ho as [Hk Ho].
  split; [| split; [exact Ho | exact Hs]].
  cbn. apply Forall_app. split; [exact Hm |]. constructor; [| constructor].
  intros K. cbn in K. unfold plain_open in Hk. rewrite K in Hk. discriminate Hk.
Qed.

(** An assignment to [checkedProperties] that leaves [number] alone. *)
Lemma numbers_set_checkedProperties f :
  (forall m, cp_number (f m) = cp_number (checkedProperties m)) ->
  maintains numbered_ok (set_checkedProperties f).
Proof.
  intros Hf w a w' (Hm & Ho & Hs) H. unfold set_checkedProperties, set_marks in H. mrun.
  split; [| split; [exact Ho | exact Hs]]. cbn.
  match goal with |- context [rev ?ms] => revert Hm; generalize ms; intros mks Hm end.
  destruct mks as [| x l _] using rev_ind; [constructor |].
  rewrite rev_unit. rewrite rev_involutive.
  apply Forall_app in Hm. destruct Hm as [Hl Hx]. apply Forall_app. split; [exact Hl |].
  constructor; [| constructor]. apply Forall_inv in Hx.
  intros K. cbn in K |- *. rewrite Hf. exact (Hx K).
Qed.

#[local] Hint Resolve numbers_stream_eat numbers_startPos numbers_currentPos
  numbers_matchBlankLine numbers_lookahead_any numbers_pop numbers_abandonMark
  numbers_set_openMarksCount numbers_closeMark : numbers_db.

#[local] Hint Resolve numbers_push numbers_defer numbers_openMark : numbers_db.
#[local] Hint Extern 1 (_ = true) => reflexivity : numbers_db.
#[local] Hint Extern 1 (_ = false) => reflexivity : numbers_db.

Lemma plain_kind e k :
  plain_environment e = true -> env_kind e = Some k -> item_kind_name k = false.
Proof.
  unfold plain_environment. intros H E. rewrite E in H. apply negb_true_iff in H. exact H.
Qed.

Lemma numbers_run_callback cb :
  plain_callback cb = true -> maintains numbered_ok (run_callback cb).
Proof.
  intros Hc. destruct cb as [| e p | e p |]; cbn [run_callback].
  - numbers_auto.
  - cbn in Hc. destruct (env_kind e) as [k |] eqn:E; [| numbers_auto].
    assert (Hk := plain_kind _ Hc E). destruct p; numbers_auto.
  - destruct (env_kind e); [| numbers_auto]. destruct p; [| numbers_auto].
    apply maintains_bind; [auto with numbers_db |]. intros m.
    apply maintains_bind; [auto with numbers_db |]. intros st.
    apply numbers_set_checkedProperties. reflexivity.
  - numbers_auto.
Qed.

#[local] Hint Resolve numbers_run_callback : numbers_db.

Lemma numbers_matchNext c sq cb :
  plain_callback cb = true -> maintains numbered_ok (_matchNext c sq cb).
Proof. intros Hc. unfold _matchNext. numbers_auto. Qed.

#[local] Hint Resolve numbers_matchNext : numbers_db.

Lemma numbers_matchSequence sq cb :
  plain_callback cb = true -> maintains numbered_ok (_matchSequence sq cb).
Proof. intros Hc. unfold _matchSequence. numbers_auto. Qed.

#[local] Hint Resolve numbers_matchSequence : numbers_db.

Lemma numbers_matchAndMark k p o os c cs ab im :
  item_kind_name k = false ->
  maintains numbered_ok (_matchAndMark k p o os c cs ab im).
Proof. intros Hk. unfold _matchAndMark. numbers_auto. Qed.

Lemma numbers_matchArgument o os c cs im :
  maintains numbered_ok (_matchArgument o os c cs im).
Proof. unfold _matchArgument. numbers_auto. Qed.

Lemma numbers_matchGroup im : maintains numbered_ok (_matchGroup im).
Proof. unfold _matchGroup. numbers_auto. Qed.

Lemma numbers_matchLineComment : maintains numbered_ok _matchLineComment.
Proof. unfold _matchLineComment. numbers_auto. Qed.

Lemma numbers_matchTitleCommand : maintains numbered_ok _matchTitleCommand.
Proof. unfold _matchTitleCommand. numbers_auto. Qed.

Lemma numbers_matchCommandWithArgument c :
  item_kind_name c = false -> maintains numbered_ok (_matchCommandWithArgument c).
Proof.
  intros Hc. unfold _matchCommandWithArgument.
  assert (Hd : forall p, plain_deferred (DRequiredArgument c p) = true).
  { intros p. cbn. rewrite Hc. reflexivity. }
  numbers_auto.
Qed.

#[local] Hint Resolve numbers_matchAndMark numbers_matchArgument numbers_matchGroup
  numbers_matchLineComment numbers_matchTitleCommand numbers_matchCommandWithArgument
  : numbers_db.

Lemma numbers_matchBibCommand : maintains numbered_ok _matchBibCommand.
Proof. unfold _matchBibCommand, _bibCommands. simpl. numbers_auto. Qed.

Lemma numbers_matchVerbCommand : maintains numbered_ok _matchVerbCommand.
Proof. unfold _matchVerbCommand. numbers_auto. Qed.

Lemma numbers_matchVerbatimEnvironment : maintains numbered_ok _matchVerbatimEnvironment.
Proof. unfold _matchVerbatimEnvironment. numbers_auto. Qed.

Lemma numbers_matchCommentEnvironment : maintains numbered_ok _matchCommentEnvironment.
Proof. unfold _matchCommentEnvironment. numbers_auto. Qed.

#[local] Hint Resolve numbers_matchBibCommand numbers_matchVerbCommand
  numbers_matchVerbatimEnvironment numbers_matchCommentEnvironment : numbers_db.

Lemma numbers_begin_environment e :
  plain_environment e = true -> maintains numbered_ok (begin_environment e).
Proof.
  intros He. unfold begin_environment, _matchBeginEnvironmentSequence.
  apply maintains_bind; [destruct (env_kind e); numbers_auto |].
  intros p. apply numbers_matchSequence. exact He.
Qed.

Lemma numbers_matchEnvironments envs :
  forallb plain_environment envs = true -> maintains numbered_ok (_matchEnvironments envs).
Proof.
  unfold _matchEnvironments. induction envs as [| e envs IH]; intros H; simpl.
  - numbers_auto.
  - simpl in H. apply andb_prop in H. destruct H as [He H].
    apply maintains_bind; [auto with numbers_db |].
    intros [|]; [apply numbers_begin_environment; exact He | apply IH; exact H].
Qed.

Lemma numbers_matchCommand p k :
  item_kind_name k = false -> maintains numbered_ok (_matchCommand p k).
Proof. intros Hk. unfold _matchCommand. numbers_auto. Qed.

Lemma numbers_matchOtherEnvironmentBeginOrEnd :
  maintains numbered_ok _matchOtherEnvironmentBeginOrEnd.
Proof.
  unfold _matchOtherEnvironmentBeginOrEnd, _matchBeginEnvironmentSequence,
    _matchEndEnvironmentSequence. numbers_auto.
Qed.

Lemma numbers_matchOtherCommand : maintains numbered_ok _matchOtherCommand.
Proof. unfold _matchOtherCommand. numbers_auto. Qed.

#[local] Hint Resolve numbers_matchEnvironments numbers_matchCommand
  numbers_matchOtherEnvironmentBeginOrEnd numbers_matchOtherCommand : numbers_db.

Lemma numbers_matchSectioningCommand : maintains numbered_ok _matchSectioningCommand.
Proof. unfold _matchSectioningCommand. numbers_auto. Qed.

Lemma numbers_matchDollarDollarMath : maintains numbered_ok _matchDollarDollarMath.
Proof. unfold _matchDollarDollarMath. numbers_auto. Qed.

Lemma numbers_matchDollarMath : maintains numbered_ok _matchDollarMath.
Proof. unfold _matchDollarMath. numbers_auto. Qed.

Lemma numbers_matchBracketMath : maintains numbered_ok _matchBracketMath.
Proof. unfold _matchBracketMath. numbers_auto. Qed.

Lemma numbers_matchParenMath : maintains numbered_ok _matchParenMath.
Proof. unfold _matchParenMath. numbers_auto. Qed.

Lemma numbers_matchEndDocument : maintains numbered_ok _matchEndDocument.
Proof. unfold _matchEndDocument, _matchEndEnvironmentSequence. numbers_auto. Qed.

Lemma numbers_matchOther : maintains numbered_ok _matchOther.
Proof. unfold _matchOther. numbers_auto. Qed.

Lemma numbers_matchOtherMath : maintains numbered_ok _matchOtherMath.
Proof. unfold _matchOtherMath. numbers_auto. Qed.

#[local] Hint Resolve numbers_matchSectioningCommand numbers_matchDollarDollarMath
  numbers_matchDollarMath numbers_matchBracketMath numbers_matchParenMath
  numbers_matchEndDocument numbers_matchOther numbers_matchOtherMath : numbers_db.

Lemma numbers_matchMath : maintains numbered_ok _matchMath.
Proof. unfold _matchMath. numbers_auto. Qed.

Lemma numbers_matchText : maintains numbered_ok _matchText.
Proof. unfold _matchText. numbers_auto. Qed.

#[local] Hint Resolve numbers_matchMath numbers_matchText : numbers_db.

Lemma numbers_matchIncludeGraphics : maintains numbered_ok _matchIncludeGraphics.
Proof. unfold _matchIncludeGraphics. numbers_auto. Qed.

#[local] Hint Resolve numbers_matchIncludeGraphics : numbers_db.

Lemma numbers_matchTikZ : maintains numbered_ok _matchTikZ.
Proof. unfold _matchTikZ. numbers_auto. Qed.

Lemma numbers_matchFigureContent : maintains numbered_ok _matchFigureContent.
Proof. unfold _matchFigureContent. numbers_auto. Qed.

Lemma numbers_topLevel : maintains numbered_ok _topLevel.
Proof. unfold _topLevel. numbers_auto. Qed.

(** The number that the loop of [_matchItemCommand] finds. *)
Lemma item_number_numbered older k lo : forall N,
  Forall numbered older -> item_kind_name k = true ->
  item_number older k lo = inr N -> exists j, N = JNum j /\ 1 <= j.
Proof.
  induction older as [| mark older IH]; intros N F Hk H; cbn [item_number] in H.
  - inversion H. exists 1. split; [reflexivity | lia].
  - destruct lo as [l |]; [| discriminate H].
    destruct (pos_line (from mark) <? pos_line (o_from l))%Z.
    { inversion H. exists 1. split; [reflexivity | lia]. }
    assert (Fo := Forall_inv_tail F).
    destruct (String.eqb (kind mark) k) eqn:E; [| exact (IH N Fo Hk H)].
    destruct (negb (same_object (openParent mark) (Some l))); [exact (IH N Fo Hk H) |].
    apply String.eqb_eq in E. apply Forall_inv in F. rewrite <- E in Hk.
    destruct (F Hk) as (n & En & Hn). rewrite En in H. cbn in H. inversion H.
    exists (n + 1). split; [reflexivity | lia].
Qed.

Lemma item_kinds o :
  item_kind_name (match o with
                  | Some l => if String.eqb (o_kind l) "enumerate"
                              then "enumerate-item"%string else "item"%string
                  | None => "item"%string
                  end) = true.
Proof. destruct o as [l |]; [destruct (String.eqb (o_kind l) "enumerate") |]; reflexivity. Qed.

Lemma numbers_matchItemCommand : maintains numbered_ok _matchItemCommand.
Proof.
  unfold _matchItemCommand.
  apply maintains_bind; [auto with numbers_db |]. intros s.
  apply maintains_bind; [destruct s; auto with numbers_db; apply maintains_ret |].
  intros [|]; [| apply maintains_ret].
  intros w a w' (Hm & Ho & Hs) H.
  apply bind_inr in H. destruct H as (st & w0 & E0 & H).
  unfold get_state in E0. inversion E0; subst st w0. clear E0. cbv zeta in H.
  set (lo := hd_error (openMarks (state w))) in *.
  set (k := match lo with
            | Some l => if String.eqb (o_kind l) "enumerate"
                        then "enumerate-item"%string else "item"%string
            | None => "item"%string
            end) in *.
  assert (Hk : item_kind_name k = true) by apply item_kinds.
  apply bind_inr in H. destruct H as (sp & w1 & E1 & H).
  apply bind_inr in H. destruct H as (o & w2 & E2 & H).
  apply bind_inr in H. destruct H as (cur & w3 & E3 & H).
  apply bind_inr in H. destruct H as (m & w4 & E4 & H).
  apply bind_inr in H. destruct H as (st' & w5 & E5 & H).
  unfold get_state in E5. inversion E5; subst st' w5. clear E5.
  destruct (item_number (rev (marks (state w))) k lo) as [e | N] eqn:EN; [discriminate H |].
  apply bind_inr in H. destruct H as (u & w6 & E6 & H).
  apply ret_inr in H. destruct H as [_ <-].
  destruct (@item_number_numbered _ _ _ N (Forall_rev Hm) Hk EN) as (j & -> & Hj).
  unfold _startPos in E1. mrun.
  unfold _openMark, _currentPos, set_openMarks in E2. mrun.
  unfold _currentPos in E3. mrun.
  apply closeMark_inr in E4. destruct E4 as (S4 & M4 & O4 & _ & _ & _ & o4 & Eo & ->).
  cbn in S4, M4, O4, Eo. inversion Eo; subst o4. clear Eo.
  apply set_checkedProperties_inr in E6. destruct E6 as (S6 & O6 & _ & _ & _ & M6).
  specialize (M6 _ _ M4). unfold numbered_ok. rewrite S6, O6, M6, S4, O4.
  split; [| split; [exact Ho | exact Hs]].
  apply Forall_app. split; [exact Hm |]. constructor; [| constructor].
  intros _. cbn. exists j. split; [reflexivity | exact Hj].
Qed.

#[local] Hint Resolve numbers_matchItemCommand : numbers_db.

Lemma numbers_matchListContent : maintains numbered_ok _matchListContent.
Proof. unfold _matchListContent. numbers_auto. Qed.

#[local] Hint Resolve numbers_matchTikZ numbers_matchFigureContent
  numbers_matchListContent numbers_topLevel : numbers_db.

Lemma numbers_inner_mode im : maintains numbered_ok (inner_mode im).
Proof. destruct im; simpl; auto with numbers_db. Qed.

Lemma numbers_env_tokenizer t : maintains numbered_ok (env_tokenizer t).
Proof. destruct t; simpl; auto with numbers_db. Qed.

Lemma numbers_deferred_call d :
  plain_deferred d = true -> maintains numbered_ok (deferred_call d).
Proof.
  intros Hd. destruct d; cbn in Hd; try apply negb_true_iff in Hd; simpl;
    unfold _matchAndMarkRequiredArgument, _matchAndMarkOptionalArgument,
      _matchOptionalArgument; auto with numbers_db.
Qed.

#[local] Hint Resolve numbers_inner_mode numbers_env_tokenizer numbers_deferred_call
  : numbers_db.

(** The function on top of the stack. *)
Lemma numbers_run_tokenizer t k :
  plain_tok t = true -> maintains numbered_ok k ->
  maintains numbered_ok (run_tokenizer t k).
Proof.
  intros Ht Hk. destruct t; cbn [run_tokenizer].
  - auto with numbers_db.
  - cbn in Ht. numbers_auto.
  - numbers_auto.
  - numbers_auto.
  - numbers_auto.
  - numbers_auto.
  - unfold _matchEndEnvironmentSequence.
    apply maintains_bind; [destruct (negb (allowBlankLines envConfig)); auto with numbers_db;
                           apply maintains_ret |].
    intros [|].
    + apply maintains_bind; [destruct (env_kind envConfig); auto with numbers_db;
                             apply maintains_ret | intros _; exact Hk].
    + apply maintains_bind; [auto with numbers_db |]. intros [|]; [| auto with numbers_db].
      apply maintains_bind; [destruct (env_kind envConfig); numbers_auto |].
      intros p. apply maintains_bind; [auto with numbers_db |]. intros _.
      apply numbers_matchSequence. reflexivity.
  - numbers_auto.
Qed.

Lemma numbers_call_top stk : forall fault,
  forallb plain_tok stk = true -> maintains numbered_ok (call_top fault stk).
Proof.
  induction stk as [| t below IH]; intros fault H; cbn [call_top].
  - apply maintains_throw.
  - cbn in H. apply andb_prop in H. destruct H as [Ht Hb].
    apply numbers_run_tokenizer; [exact Ht |].
    apply maintains_bind; [auto with numbers_db | intros _; apply IH; exact Hb].
Qed.

Lemma numbers_token : maintains numbered_ok _token.
Proof.
  unfold _token, _startNewLine.
  apply maintains_bind; [auto with numbers_db |]. intros s.
  apply maintains_bind; [destruct s; auto with numbers_db; apply maintains_ret |]. intros _.
  apply maintains_bind; [auto with numbers_db |]. intros r.
  apply maintains_bind; [| numbers_auto].
  destruct r; [apply maintains_ret |].
  intros w a w' Hw H. apply bind_inr in H. destruct H as (st & w0 & E0 & H).
  unfold get_state in E0. inversion E0; subst st w0.
  exact (@numbers_call_top _ EmptyStack (proj2 (proj2 Hw)) w a w' Hw H).
Qed.

Lemma reachable_numbered w : Reachable w -> numbered_ok w.
Proof.
  induction 1 as [| w w' R IH H].
  - split; [constructor | split; reflexivity].
  - destruct H as [w r w' E H | w r w' E H | w l E Hl].
    + exact (numbers_token IH H).
    + apply blankLine_inr in H. destruct H as (_ & r0 & H).
      exact (@numbers_token (mkWorld (StringStream []) (state w) (heap w)) r0 w' IH H).
    + exact IH.
Qed.

Lemma previous_item_found mks k parent prev :
  previous_item mks k parent = Some prev -> In prev mks /\ kind prev = k.
Proof.
  unfold previous_item. intros H. apply find_some in H. destruct H as [Hin Hk].
  apply andb_prop in Hk. destruct Hk as [Hk _]. apply String.eqb_eq in Hk.
  apply in_rev in Hin. apply filter_In in Hin. split; [apply Hin | exact Hk].
Qed.

Lemma item_kind_is_item parent : item_kind_name (item_kind parent) = true.
Proof. unfold item_kind. destruct (String.eqb (o_kind parent) "enumerate"); reflexivity. Qed.

(** C6.  When the editor calls [token] at the start of a line that begins
    with [\item] (followed by a space or the end of the line), with the
    tokenizer of a list environment on top of the stack, the innermost open
    mark is the mark of that list, and the call closes one mark: its kind,
    also recorded in [checkedProperties.kind], is [enumerate-item] if the
    list is an [enumerate] and [item] otherwise, its [openParent] is the
    mark of the list, and its number is a number [N]: when there is a closed
    mark of the same kind and the same [openParent] among the closed marks
    that do not start on a line before the list, the most recent of them has
    a number [n] and [N = n + 1]; when there is none, [N = 1].  In
    particular the first [\item] after [\begin{enumerate}] has number 1,
    kind [enumerate-item] and the open [enumerate] mark as its
    [openParent], and an [\item] after a nested [itemize] continues the
    numbers of the outer list. *)
Theorem item_numbered :
  (forall w e below n,
     Reachable w ->
     stack (state w) = EnvironmentBody e :: below ->
     tokenizer e = TkListContent ->
     pos (stream w) = 0 ->
     re_item (rest (stream w)) = Some n ->
     exists parent opens w' m N,
       openMarks (state w) = parent :: opens /\
       env_kind e = Some (o_kind parent) /\
       _token w = inr (Some tag, w') /\
       marks (state w') = marks (state w) ++ [m] /\
       openMarks (state w') = openMarks (state w) /\
       kind m = item_kind parent /\
       openParent m = Some parent /\
       cp_kind (checkedProperties m) = Some (item_kind parent) /\
       cp_number (checkedProperties m) = Some (JNum N) /\
       match previous_item (marks (state w)) (item_kind parent) parent with
       | Some prev =>
           exists n0, cp_number (checkedProperties prev) = Some (JNum n0) /\ N = n0 + 1
       | None => N = 1
       end) /\
  (exists w parent m,
     host_document enumerate_item = Some w /\
     openMarks (state w) = [parent] /\ o_kind parent = "enumerate"%string /\
     marks (state w) = [m] /\
     kind m = "enumerate-item"%string /\
     cp_kind (checkedProperties m) = Some "enumerate-item"%string /\
     cp_number (checkedProperties m) = Some (JNum 1) /\
     openParent m = Some parent) /\
  (exists w,
     host_document nested_items = Some w /\
     map (fun m => (kind m, cp_number (checkedProperties m))) (marks (state w)) =
       [("enumerate-item"%string, Some (JNum 1)); ("item"%string, Some (JNum 1));
        ("itemize"%string, None); ("enumerate-item"%string, Some (JNum 2))]).
Proof.
  split; [| split].
  - intros w e below n R S T Hp Hi.
    assert (Nb := reachable_numbered R).
    apply reachable_ok in R. destruct R as (St & G & _).
    destruct w as [[ps ss rs] [stk l os ms] hp].
    cbn [stream state heap stack line openMarks marks pos start rest] in *. subst stk ps ss.
    destruct G as (_ & _ & Sy & _ & Ch & _).
    cbn [sync state stack openMarks marks] in Sy, Ch. destruct Sy as (Ie & Sy).
    rewrite (list_env_marked Ie T) in Sy. destruct Sy as (P & os' & -> & _ & Hk & _).
    assert (HN : item_number (rev ms) (item_kind P) (Some P) =
                 inr (loop_number ms (item_kind P) P)).
    { apply item_number_spec. intros l1 m l2 E Hm m2 Hm2.
      eapply (Ch P l1 m l2); [left; reflexivity | exact E | exact Hm | exact Hm2]. }
    destruct (item_token e below l P os' ms hp rs T Hi HN)
      as (w' & m & H1 & H2 & H3 & H4 & H5 & H6 & H7).
    destruct Nb as (Fm & _). cbn [state marks] in Fm.
    assert (Hshape : exists N,
              loop_number ms (item_kind P) P = JNum N /\
              match previous_item ms (item_kind P) P with
              | Some prev =>
                  exists n0, cp_number (checkedProperties prev) = Some (JNum n0) /\
                             N = n0 + 1
              | None => N = 1
              end).
    { unfold loop_number. fold (previous_item ms (item_kind P) P).
      destruct (previous_item ms (item_kind P) P) as [prev |] eqn:Ep.
      - destruct (previous_item_found _ _ _ Ep) as [Hin Hkd].
        rewrite Forall_forall in Fm. specialize (Fm prev Hin).
        unfold numbered in Fm. rewrite Hkd in Fm. destruct (Fm (item_kind_is_item P)) as (n0 & En & _).
        exists (n0 + 1). rewrite En. split; [reflexivity |].
        exists n0. split; [reflexivity | reflexivity].
      - exists 1. split; reflexivity. }
    destruct Hshape as (N & EN & Hprev). rewrite EN in H7.
    exists P, os', w', m, N. repeat split; assumption.
  - eexists. eexists. eexists. split; [vm_compute; reflexivity |].
    split; [reflexivity |]. repeat split.
  - eexists. split; vm_compute; reflexivity.
Qed.

Lemma item_numbered_witness :
  Reachable second_item_world /\
  exists parent opens w' m N,
    openMarks (state second_item_world) = parent :: opens /\
    env_kind enumerate_environment = Some (o_kind parent) /\
    _token second_item_world = inr (Some tag, w') /\
    marks (state w') = marks (state second_item_world) ++ [m] /\
    openMarks (state w') = openMarks (state second_item_world) /\
    kind m = item_kind parent /\
    openParent m = Some parent /\
    cp_kind (checkedProperties m) = Some (item_kind parent) /\
    cp_number (checkedProperties m) = Some (JNum N) /\
    match previous_item (marks (state second_item_world)) (item_kind parent) parent with
    | Some prev =>
        exists n0, cp_number (checkedProperties prev) = Some (JNum n0) /\ N = n0 + 1
    | None => N = 1
    end.
Proof.
  assert (R : Reachable second_item_world).
  { eapply reach_step.
    - apply host_document_reachable with (ls := firstn 5 nested_items).
      vm_compute. reflexivity.
    - apply step_line; [vm_compute; reflexivity | discriminate]. }
  split; [exact R |].
  apply (proj1 item_numbered second_item_world enumerate_environment [TopLevel] 6);
    [exact R | vm_compute; reflexivity | reflexivity | reflexivity | vm_compute; reflexivity].
Defined.
